(** * PWM configuration solver of the ATmega328P timer calculator

    A shallow embedding of the [calculation] memo of [src/App.tsx]: the
    search over the clock prescalers, the derivation of TOP and OCR, and the
    register table built from them.

    JavaScript numbers are IEEE 754 binary64 values; they are modelled by
    Rocq's primitive [float], whose operations are the same binary64
    operations, so every definition below evaluates to what the script
    computes. *)

From Stdlib Require Import ZArith Zpower List Sorted String Ascii Bool Lia.
From Stdlib Require Import Floats Uint63 Reals Lra.
Import ListNotations.

Local Open Scope list_scope.
Local Open Scope string_scope.
Local Open Scope float_scope.

(** ** The fragment of the JavaScript library the solver calls *)

Module JS.

(** The integer [z] as a number, for |z| < 2^63: the binary64 value nearest
    to it, [z] itself up to 2^53.  The solver converts the result of
    [Math.round] below 2^52, three binary digits, and 32-bit integers. *)
Definition of_Z (z : Z) : float :=
  match z with
  | Z0 => zero
  | Zpos _ => of_uint63 (Uint63.of_Z z)
  | Zneg p => - of_uint63 (Uint63.of_Z (Zpos p))
  end.

(** [Math.round]: the nearest integer, a tie going towards +infinity.  NaN,
    the infinities and the zeros are returned unchanged, and so is a value
    whose binary exponent is non-negative, which is an integer already.  A
    result that rounds to zero keeps the sign of the argument. *)
Definition Math_round (x : float) : float :=
  match Prim2SF x with
  | S754_finite s m e =>
      if (0 <=? e)%Z then x
      else
        let twice := (if s then Zneg m~0 else Zpos m~0)%Z in
        let n := ((twice + 2 ^ (- e)) / 2 ^ (1 - e))%Z in
        if (n =? 0)%Z then (if s then neg_zero else zero) else of_Z n
  | _ => x
  end.

(** [Math.max] of two numbers: NaN when either is NaN, and +0 above -0. *)
Definition Math_max (a b : float) : float :=
  if is_nan a || is_nan b then nan
  else if a <? b then b
  else if b <? a then a
  else if get_sign a then b else a.

(** The integer part of a finite number, truncated towards zero. *)
Definition trunc (x : float) : Z :=
  match Prim2SF x with
  | S754_finite s m e =>
      let a := (if 0 <=? e then Zpos m * 2 ^ e else Zpos m / 2 ^ (- e))%Z in
      if s then (- a)%Z else a
  | _ => 0%Z
  end.

(** [ToInt32], applied to the operands of the bitwise operators. *)
Definition ToInt32 (x : float) : Z :=
  ((trunc x + 2 ^ 31) mod 2 ^ 32 - 2 ^ 31)%Z.

(** [a | b] on numbers: the bitwise or of the two 32-bit integers. *)
Definition bitor (a b : float) : float :=
  of_Z (Z.lor (ToInt32 a) (ToInt32 b)).

(** The digits of [Number.prototype.toString], by value. *)
Definition digits : string := "0123456789abcdef".

Definition digit_char (d : Z) : ascii :=
  match String.get (Z.to_nat d) digits with
  | Some c => c
  | None => "f"%char
  end.

(** Digits of the natural number [n] in base [radix], most significant
    first, pushed in front of [acc]. *)
Fixpoint int_digits (fuel : nat) (radix n : Z) (acc : string) : string :=
  match fuel with
  | O => acc
  | S fuel' =>
      let acc' := String (digit_char (n mod radix)) acc in
      if (n / radix =? 0)%Z then acc'
      else int_digits fuel' radix (n / radix) acc'
  end.

(** Digits of the fraction [f / 2^k] in base [radix]. *)
Fixpoint frac_digits (fuel : nat) (radix f k : Z) : string :=
  match fuel with
  | O => EmptyString
  | S fuel' =>
      if (f =? 0)%Z then EmptyString
      else String (digit_char (f * radix / 2 ^ k))
                  (frac_digits fuel' radix ((f * radix) mod 2 ^ k) k)
  end.

(** [Number.prototype.toString(radix)].  Exact for NaN, the infinities, the
    zeros, and every integral value in radix 16; in radix 10 for the
    integral values below 10^21.  Outside of these the digits printed here
    are those of the exact binary expansion, where the script prints in
    radix 10 the shortest decimal that reads back as the number, and
    switches to exponent notation from 10^21 on.  The values the solver
    prints in radix 10 are the literal prescalers, the timer index, TOP and
    the clamped OCR: whole numbers below 10^21 for the timers 0, 1, 2 of
    the page and a duty cycle between 0 and 100.  For a timer index with a
    fraction, or an OCR from 10^21 on (a duty cycle far above 100), the
    names and descriptions built with radix 10 are not the script's; the
    properties below read a name at the timers 0, 1 and 2 only, of a
    description only a fixed prefix, or compare two texts printed from the
    same numbers. *)
Definition Number_toString (radix : Z) (x : float) : string :=
  match Prim2SF x with
  | S754_nan => "NaN"
  | S754_infinity false => "Infinity"
  | S754_infinity true => "-Infinity"
  | S754_zero _ => "0"
  | S754_finite s m e =>
      let ip := (if 0 <=? e then Zpos m * 2 ^ e else Zpos m / 2 ^ (- e))%Z in
      let fp := (if 0 <=? e then 0 else Zpos m mod 2 ^ (- e))%Z in
      let body :=
        int_digits (S (Z.to_nat (Z.log2 ip))) radix ip
          (if (fp =? 0)%Z then EmptyString
           else String "." (frac_digits (Z.to_nat (- e)) radix fp (- e))) in
      if s then String "-" body else body
  end%string.

(** [parseInt(s, 2)] on a string of binary digits: the value of the longest
    prefix of digits, NaN when there is none. *)
Fixpoint bin_prefix (s : string) (acc : option Z) : option Z :=
  match s with
  | String "0" s' => bin_prefix s' (Some (2 * match acc with Some a => a | None => 0 end))%Z
  | String "1" s' => bin_prefix s' (Some (2 * match acc with Some a => a | None => 0 end + 1))%Z
  | _ => acc
  end.

Definition parseInt2 (s : string) : float :=
  match bin_prefix s None with
  | Some z => of_Z z
  | None => nan
  end.

Definition upper_char (c : ascii) : ascii :=
  let n := nat_of_ascii c in
  if (97 <=? n)%nat && (n <=? 122)%nat then ascii_of_nat (n - 32) else c.

(** [String.prototype.toUpperCase] on the ASCII strings the solver builds. *)
Fixpoint toUpperCase (s : string) : string :=
  match s with
  | EmptyString => EmptyString
  | String c s' => String (upper_char c) (toUpperCase s')
  end.

End JS.

(** ** The result record *)

Record Register := mkRegister {
  name : string;
  value : string;
  description : string
}.

Record PWMResult := mkPWMResult {
  timer : float;
  prescaler : float;
  top : float;
  ocr : float;
  frequency : float;
  actualFrequency : float;
  dutyCycle : float;
  actualDutyCycle : float;
  error : option string;
  registers : list Register
}.

(** ** The solver *)

Definition prescalers : list float := [1; 8; 64; 256; 1024].

Definition unreachable_message : string :=
  "فرکانس درخواستی با این تایمر و فرکانس کلاک قابل دستیابی نیست. لطفاً فرکانس یا تایمر را تغییر دهید.".

Section Calculation.

Variables clockFreq targetFreq dutyCycle selectedTimer : float.

Definition is16Bit : bool := selectedTimer =? 1.

Definition maxTop : float := if is16Bit then 65535 else 255.

(** [top] of the loop body, for the candidate prescaler [N]. *)
Definition topOf (N : float) : float :=
  JS.Math_round (clockFreq / (N * targetFreq)) - 1.

(** The guard of the loop body. *)
Definition usable (N : float) : bool :=
  (0 <? topOf N) && (topOf N <=? maxTop).

(** [ocr] of the loop body, before any clamp. *)
Definition ocrOf (N : float) : float :=
  JS.Math_round (((topOf N + 1) * dutyCycle) / 100) - 1.

(** [csBits] of the Timer 1 branch. *)
Definition csBits1 (N : float) : string :=
  if N =? 1 then "001" else if N =? 8 then "010" else if N =? 64 then "011"
  else if N =? 256 then "100" else "101".

(** [csBits] of the branch of the 8-bit timers, Timer 0 or Timer 2. *)
Definition csBits (N : float) : string :=
  if selectedTimer =? 0 then
    (if N =? 1 then "001" else if N =? 8 then "010" else if N =? 64 then "011"
     else if N =? 256 then "100" else "101")
  else
    (if N =? 1 then "001" else if N =? 8 then "010" else if N =? 32 then "011"
     else if N =? 64 then "100" else if N =? 128 then "101"
     else if N =? 256 then "110" else "111").

Definition hexUpper (x : float) : string :=
  JS.toUpperCase (JS.Number_toString 16 x).

(** A number inside a template literal: [toString(10)], within the limits
    given at [JS.Number_toString]. *)
Definition dec (x : float) : string := JS.Number_toString 10 x.

(** The register table for prescaler [N], given [top] and the unclamped
    [ocr] of the loop body. *)
Definition registersOf (N top ocr : float) : list Register :=
  if selectedTimer =? 1 then
    let cs := csBits1 N in
    [ mkRegister "TCCR1A" "0x82" "COM1A1=1, WGM11=1 (Fast PWM, Non-inverting)";
      mkRegister "TCCR1B"
        ("0x1" ++ JS.Number_toString 16 (JS.parseInt2 cs))
        ("WGM13=1, WGM12=1, CS=" ++ cs ++ " (Prescaler " ++ dec N ++ ")");
      mkRegister "ICR1"
        ("0x" ++ hexUpper top)
        ("TOP value for frequency (" ++ dec top ++ " decimal)");
      mkRegister "OCR1A"
        ("0x" ++ hexUpper (JS.Math_max 0 ocr))
        ("Duty cycle value (" ++ dec (JS.Math_max 0 ocr) ++ " decimal)") ]
  else
    let cs := csBits N in
    let tccra := if selectedTimer =? 0 then "0x23" else "0x23" in
    let tccrb := "0x0" ++ JS.Number_toString 16 (JS.bitor 8 (JS.parseInt2 cs)) in
    [ mkRegister ("TCCR" ++ dec selectedTimer ++ "A") tccra
        "Fast PWM mode, OCnB non-inverting";
      mkRegister ("TCCR" ++ dec selectedTimer ++ "B") tccrb
        ("WGMn2=1, CS=" ++ cs ++ " (Prescaler " ++ dec N ++ ")");
      mkRegister ("OCR" ++ dec selectedTimer ++ "A")
        ("0x" ++ hexUpper top)
        ("TOP value for frequency (" ++ dec top ++ " decimal)");
      mkRegister ("OCR" ++ dec selectedTimer ++ "B")
        ("0x" ++ hexUpper (JS.Math_max 0 ocr))
        ("Duty cycle value (" ++ dec (JS.Math_max 0 ocr) ++ " decimal)") ]%string.

(** The record assigned to [bestResult] when the guard holds for [N]. *)
Definition resultOf (N : float) : PWMResult :=
  let top := topOf N in
  let actualFreq := clockFreq / (N * (1 + top)) in
  let ocr := ocrOf N in
  let actualDuty := ((ocr + 1) / (top + 1)) * 100 in
  mkPWMResult
    (* timer *) selectedTimer
    (* prescaler *) N
    (* top *) top
    (* ocr *) (JS.Math_max 0 ocr)
    (* frequency *) targetFreq
    (* actualFrequency *) actualFreq
    (* dutyCycle *) dutyCycle
    (* actualDutyCycle *) actualDuty
    (* error *) None
    (* registers *) (registersOf N top ocr).

(** The [for] loop: candidates in order, leaving at the first usable one. *)
Fixpoint search (candidates : list float) : option PWMResult :=
  match candidates with
  | [] => None
  | N :: rest => if usable N then Some (resultOf N) else search rest
  end.

(** The record returned when the loop leaves [bestResult] null. *)
Definition failure : PWMResult :=
  mkPWMResult
    (* timer *) selectedTimer
    (* prescaler *) 0
    (* top *) 0
    (* ocr *) 0
    (* frequency *) targetFreq
    (* actualFrequency *) 0
    (* dutyCycle *) dutyCycle
    (* actualDutyCycle *) 0
    (* error *) (Some unreachable_message)
    (* registers *) [].

Definition calculation : PWMResult :=
  match search prescalers with
  | Some best => best
  | None => failure
  end.

End Calculation.

(** ** Vocabulary of the properties *)

(** The candidate [N] gives a TOP strictly inside the open interval
    (0, maxTop). *)
Definition strictlyInside (clockFreq targetFreq selectedTimer N : float) : bool :=
  (0 <? topOf clockFreq targetFreq N)
  && (topOf clockFreq targetFreq N <? maxTop selectedTimer).

(** The value written to control register B: the second entry of the table. *)
Definition controlRegisterB (r : PWMResult) : option string :=
  option_map value (nth_error (registers r) 1).

(** Position of [c] in [s], counted from [i]. *)
Fixpoint position (c : ascii) (s : string) (i : Z) : option Z :=
  match s with
  | EmptyString => None
  | String a s' => if Ascii.eqb a c then Some i else position c s' (i + 1)%Z
  end.

Definition hex_digit (c : ascii) : option Z := position c JS.digits 0.

Fixpoint hex_value (s : string) (acc : Z) : option Z :=
  match s with
  | EmptyString => Some acc
  | String c s' =>
      match hex_digit c with
      | Some d => hex_value s' (16 * acc + d)%Z
      | None => None
      end
  end.

(** The byte denoted by a [0x..] literal. *)
Definition byte_of_literal (s : string) : option Z :=
  match s with
  | String "0" (String "x" digits) => hex_value digits 0
  | _ => None
  end.

(** The three clock-select bits CSn2:0, the low bits of control register B. *)
Definition clockSelect (r : PWMResult) : option Z :=
  match controlRegisterB r with
  | Some v => option_map (fun b => Z.land b 7) (byte_of_literal v)
  | None => None
  end.

(** The candidates come in ascending order, none of them NaN. *)
Definition ascending (l : list float) : Prop :=
  StronglySorted (fun a b => (a <=? b) = true) l
  /\ Forall (fun a => (a <=? a) = true) l.

(** Resolution monotonicity read with an open interval: whenever some
    candidate gives a TOP strictly between 0 and maxTop, the prescaler of
    the result is the least such candidate. *)
Definition selects_least_strictly_inside
    (clockFreq targetFreq dutyCycle selectedTimer : float) : Prop :=
  (exists N, In N prescalers
             /\ strictlyInside clockFreq targetFreq selectedTimer N = true) ->
  let r := calculation clockFreq targetFreq dutyCycle selectedTimer in
  In (prescaler r) prescalers
  /\ strictlyInside clockFreq targetFreq selectedTimer (prescaler r) = true
  /\ (forall M, In M prescalers ->
        strictlyInside clockFreq targetFreq selectedTimer M = true ->
        (prescaler r <=? M) = true).

(** Timer 0 and Timer 2 agree on the clock-select code whenever both
    succeed with the same prescaler. *)
Definition same_clock_select (c0 t0 d0 c2 t2 d2 : float) : Prop :=
  let r0 := calculation c0 t0 d0 0 in
  let r2 := calculation c2 t2 d2 2 in
  error r0 = None -> error r2 = None -> prescaler r0 = prescaler r2 ->
  clockSelect r0 = clockSelect r2.

(** *** Reading the register table *)

Definition lower_char (c : ascii) : ascii :=
  let n := nat_of_ascii c in
  if (65 <=? n)%nat && (n <=? 90)%nat then ascii_of_nat (n + 32) else c.

Fixpoint lowercase (s : string) : string :=
  match s with
  | EmptyString => EmptyString
  | String c s' => String (lower_char c) (lowercase s')
  end.

(** The number denoted by a hexadecimal literal of C, whose prefix and
    digits may be in either case. *)
Definition literal_value (s : string) : option Z :=
  byte_of_literal (lowercase s).

(** The number written to the [i]-th register of the table. *)
Definition registerNumber (r : PWMResult) (i : nat) : option Z :=
  match nth_error (registers r) i with
  | Some reg => literal_value (value reg)
  | None => None
  end.

(** The waveform generation mode the two control registers select: the
    bits WGM13:2 of control register B (bits 4 and 3) over WGM11:0 of
    control register A on the 16-bit timer, WGMn2 (bit 3) over WGMn1:0 on
    an 8-bit timer. *)
Definition waveformMode (r : PWMResult) : option Z :=
  match registerNumber r 0, registerNumber r 1 with
  | Some a, Some b =>
      Some (if timer r =? 1
            then (Z.land (Z.shiftr b 3) 3 * 4 + Z.land a 3)%Z
            else (Z.land (Z.shiftr b 3) 1 * 4 + Z.land a 3)%Z)
  | _, _ => None
  end.

(** Two results agree on everything but the timer and its registers. *)
Definition same_numbers (r r' : PWMResult) : Prop :=
  prescaler r = prescaler r' /\ top r = top r' /\ ocr r = ocr r'
  /\ frequency r = frequency r' /\ actualFrequency r = actualFrequency r'
  /\ dutyCycle r = dutyCycle r' /\ actualDutyCycle r = actualDutyCycle r'
  /\ error r = error r'.

(** *** Numbers as real values *)

Section RealValues.

Local Open Scope R_scope.

Definition bpow (e : Z) : R := powerRZ 2 e.

(** The real number a finite float stands for (0 for the others). *)
Definition SF2R (f : spec_float) : R :=
  match f with
  | S754_finite s m e =>
      (if s then - IZR (Zpos m) else IZR (Zpos m)) * bpow e
  | _ => 0
  end.

Definition F2R (x : float) : R := SF2R (Prim2SF x).

(** Zero or a finite number: neither NaN nor an infinity. *)
Definition finite_number (x : float) : bool :=
  match Prim2SF x with
  | S754_zero _ | S754_finite _ _ _ => true
  | _ => false
  end.

(** [x] lies in the slice [m 2^e, (m+1) 2^e) at the place the round and
    sticky bits [r], [s] tell. *)
Definition inbetween (x : R) (m e : Z) (r s : bool) : Prop :=
  match r, s with
  | false, false => x = IZR m * bpow e
  | false, true => IZR m * bpow e < x < (IZR m + / 2) * bpow e
  | true, false => x = (IZR m + / 2) * bpow e
  | true, true => (IZR m + / 2) * bpow e < x < (IZR m + 1) * bpow e
  end.

Definition located (x : R) (mrs : shr_record) (e : Z) : Prop :=
  (0 <= shr_m mrs)%Z /\ inbetween x (shr_m mrs) e (shr_r mrs) (shr_s mrs).

(** Numbers of the binary64 format, the exponent unbounded above. *)
Definition format (y : R) : Prop :=
  exists m e : Z, y = IZR m * bpow e /\ (0 <= m < 2 ^ 53)%Z /\ (-1074 <= e)%Z.

(** The magnitude [v] is at least as near to [x] as every number of the
    format. *)
Definition nearest (x v : R) : Prop :=
  0 <= v /\ forall y, format y -> Rabs (v - x) <= Rabs (y - x).

(** The float [z] of sign [s] stands for the rounded magnitude [v]:
    a zero, a finite number of that value, or an infinity when [v] has
    left the exponent range. *)
Definition carries (z : spec_float) (s : bool) (v : R) : Prop :=
  (z = S754_zero s /\ v = 0)
  \/ (exists m e, z = S754_finite s m e /\ v = IZR (Zpos m) * bpow e)
  \/ (z = S754_infinity s /\ bpow 1024 <= v).

(** The float [x] is a zero, or a positive finite number, of value [v]. *)
Definition holds (x : float) (v : R) : Prop :=
  ((exists s, Prim2SF x = S754_zero s) /\ v = 0)
  \/ (exists m e, Prim2SF x = S754_finite false m e /\ v = IZR (Zpos m) * bpow e).

End RealValues.

(** ** The search *)

Section SearchFacts.

Variables clockFreq targetFreq dutyCycle selectedTimer : float.

Let usable' := usable clockFreq targetFreq selectedTimer.
Let resultOf' := resultOf clockFreq targetFreq dutyCycle selectedTimer.
Let search' := search clockFreq targetFreq dutyCycle selectedTimer.

Lemma search_none (candidates : list float) :
  search' candidates = None <->
  (forall N, In N candidates -> usable' N = false).
Proof.
  subst usable' search'.
  induction candidates as [|N rest IH]; simpl.
  - split; [intros _ N [] | reflexivity].
  - destruct (usable clockFreq targetFreq selectedTimer N) eqn:HN.
    + split; [discriminate|].
      intros H. specialize (H N (or_introl eq_refl)). congruence.
    + rewrite IH. split.
      * intros H M [<-|HM]; auto.
      * intros H M HM. apply H. now right.
Qed.

Lemma search_first (candidates : list float) (r : PWMResult) :
  search' candidates = Some r ->
  exists before N after,
    candidates = (before ++ N :: after)%list
    /\ (forall M, In M before -> usable' M = false)
    /\ usable' N = true
    /\ r = resultOf' N.
Proof.
  subst usable' resultOf' search'.
  induction candidates as [|N rest IH]; simpl; [discriminate|].
  destruct (usable clockFreq targetFreq selectedTimer N) eqn:HN.
  - intros [= <-]. exists [], N, rest. repeat split; auto. intros M [].
  - intros H. destruct (IH H) as (before & M & after & -> & Hb & HM & ->).
    exists (N :: before), M, after. repeat split; auto.
    intros K [<-|HK]; auto.
Qed.

(** The two ways out of the loop. *)
Lemma calculation_cases :
  (exists before N after,
      prescalers = (before ++ N :: after)%list
      /\ (forall M, In M before -> usable' M = false)
      /\ usable' N = true
      /\ calculation clockFreq targetFreq dutyCycle selectedTimer = resultOf' N)
  \/ ((forall N, In N prescalers -> usable' N = false)
      /\ calculation clockFreq targetFreq dutyCycle selectedTimer
         = failure targetFreq dutyCycle selectedTimer).
Proof.
  unfold calculation.
  destruct (search clockFreq targetFreq dutyCycle selectedTimer prescalers)
    as [r|] eqn:Hs.
  - left. destruct (search_first _ _ Hs) as (b & N & a & H1 & H2 & H3 & ->).
    exists b, N, a. auto.
  - right. split; auto. now apply search_none.
Qed.

Lemma registersOf_nonempty (N t o : float) :
  registersOf selectedTimer N t o <> [].
Proof.
  unfold registersOf. destruct (selectedTimer =? 1); discriminate.
Qed.

End SearchFacts.

Lemma search_least (c t d tm : float) (candidates : list float) (r : PWMResult) :
  ascending candidates ->
  search c t d tm candidates = Some r ->
  forall M, In M candidates -> usable c t tm M = true ->
            (prescaler r <=? M) = true.
Proof.
  intros [Hs Hr]. revert r.
  induction Hs as [|N rest Hs IH Hall]; simpl; [discriminate|].
  inversion Hr as [|? ? HN Hr']; subst.
  destruct (usable c t tm N) eqn:HuN.
  - intros r [= <-] M [<-|HM] _; simpl; auto.
    rewrite Forall_forall in Hall. auto.
  - intros r Hsearch M [<-|HM] HuM; [congruence|]. eauto.
Qed.

Lemma prescalers_ascending : ascending prescalers.
Proof.
  split; unfold prescalers.
  - repeat (constructor; [|repeat (constructor; [reflexivity|]); constructor]).
    constructor.
  - repeat (constructor; [reflexivity|]). constructor.
Qed.

(** Distinct number literals are distinct. *)
Ltac float_neq :=
  let H := fresh in
  intro H;
  match type of H with
  | ?a = ?b => apply (f_equal (fun x => x =? a)) in H
  end;
  vm_compute in H; discriminate H.

Ltac in_prescalers H :=
  unfold prescalers in H; simpl in H;
  repeat (destruct H as [H|H]; [symmetry in H|]); [..|contradiction H].

(** ** Resolution: the first usable prescaler *)

(** C1, as stated, fails: with a 65536 Hz clock and a 1 Hz target on
    Timer 1 the prescaler 8 gives the TOP 8191, strictly inside (0, 65535),
    yet the solver answers prescaler 1, whose TOP is 65535 itself. *)
Lemma C1_open_interval_counterexample :
  ~ selects_least_strictly_inside 65536 1 50 1.
Proof.
  unfold selects_least_strictly_inside. intros H.
  assert (Hex : exists N, In N prescalers /\ strictlyInside 65536 1 1 N = true).
  { exists 8. split; [right; left; reflexivity | vm_compute; reflexivity]. }
  destruct (H Hex) as (_ & Hin & _).
  vm_compute in Hin. discriminate Hin.
Qed.

(** C1, amended: whenever some candidate prescaler gives a TOP with
    0 < TOP <= maxTop (the guard of the loop), the calculation succeeds and
    its prescaler is the smallest candidate with that property. *)
Theorem C1_smallest_usable_prescaler (c t d tm N : float) :
  In N prescalers ->
  usable c t tm N = true ->
  error (calculation c t d tm) = None
  /\ In (prescaler (calculation c t d tm)) prescalers
  /\ usable c t tm (prescaler (calculation c t d tm)) = true
  /\ (forall M, In M prescalers -> usable c t tm M = true ->
                (prescaler (calculation c t d tm) <=? M) = true).
Proof.
  intros HN HuN. unfold calculation.
  destruct (search c t d tm prescalers) as [r|] eqn:Hs.
  - destruct (search_first _ _ _ _ _ _ Hs) as (b & K & a & Hp & _ & HuK & ->).
    change (prescaler (resultOf c t d tm K)) with K.
    split; [reflexivity|]. split; [|split; [exact HuK|]].
    + rewrite Hp. apply in_or_app. right. now left.
    + apply (search_least _ _ _ _ _ _ prescalers_ascending Hs).
  - pose proof (proj1 (search_none _ _ _ _ _) Hs N HN) as HuN'.
    rewrite HuN' in HuN. discriminate.
Qed.

Lemma C1_smallest_usable_prescaler_witness :
  error (calculation 65536 1 50 1) = None
  /\ In (prescaler (calculation 65536 1 50 1)) prescalers
  /\ usable 65536 1 1 (prescaler (calculation 65536 1 50 1)) = true
  /\ (forall M, In M prescalers -> usable 65536 1 1 M = true ->
                (prescaler (calculation 65536 1 50 1) <=? M) = true).
Proof.
  apply (C1_smallest_usable_prescaler 65536 1 50 1 8).
  - right; left; reflexivity.
  - vm_compute; reflexivity.
Defined.

(** ** Worked scenarios *)

(** C7: a 16 MHz clock, 1 kHz at 50 % on Timer 1 gives prescaler 1,
    TOP 15999, OCR 7999, exactly 1000 Hz, and no error. *)
Theorem C7_scenario_1kHz_timer1 :
  prescaler (calculation 16000000 1000 50 1) = 1
  /\ top (calculation 16000000 1000 50 1) = 15999
  /\ ocr (calculation 16000000 1000 50 1) = 7999
  /\ actualFrequency (calculation 16000000 1000 50 1) = 1000
  /\ error (calculation 16000000 1000 50 1) = None.
Proof. vm_compute. repeat split. Qed.

(** C2, as stated, fails: for 1 Hz on Timer 1 at 16 MHz the solver does
    not answer prescaler 1024 with TOP 15624. *)
Lemma C2_prescaler_1024_counterexample :
  ~ (prescaler (calculation 16000000 1 50 1) = 1024
     /\ top (calculation 16000000 1 50 1) = 15624).
Proof.
  intros [H _]. vm_compute in H. revert H. float_neq.
Qed.

(** C2, amended: the prescaler 256 already gives the TOP
    round(16000000 / 256) - 1 = 62499, which fits the 16-bit timer, so the
    solver stops there, four times finer than 1024; the frequency reached
    is 16000000 / (256 * 62500), exactly 1 Hz. *)
Theorem C2_scenario_1Hz_timer1 :
  prescaler (calculation 16000000 1 50 1) = 256
  /\ top (calculation 16000000 1 50 1) = JS.Math_round (16000000 / 256) - 1
  /\ top (calculation 16000000 1 50 1) = 62499
  /\ actualFrequency (calculation 16000000 1 50 1) = 16000000 / (256 * 62500)
  /\ actualFrequency (calculation 16000000 1 50 1) = 1
  /\ error (calculation 16000000 1 50 1) = None
  /\ usable 16000000 1 1 1024 = true.
Proof. vm_compute. repeat split. Qed.

(** C4, on the code: at 0 % duty on Timer 0 the selected prescaler is 64
    and TOP is 249; OCR is -1 before the clamp and 0 in the record and in
    OCR0B; the reported duty cycle is computed from the unclamped -1 and is
    0, while the formula applied to the OCR written gives 0.4 %. *)
Theorem C4_zero_duty_on_the_code :
  let r := calculation 16000000 1000 0 0 in
  prescaler r = 64
  /\ top r = 249
  /\ ocrOf 16000000 1000 0 64 = -1
  /\ ocr r = 0
  /\ option_map value (nth_error (registers r) 3) = Some "0x0"
  /\ actualDutyCycle r = 0
  /\ ((ocr r + 1) / (top r + 1)) * 100 = (1 / 250) * 100
  /\ (0 <? ((ocr r + 1) / (top r + 1)) * 100) = true
  /\ (0 <? actualDutyCycle r) = false.
Proof. vm_compute. repeat split. Qed.

(** ** Success and failure *)

(** C5: the error is null exactly when the register table is non-empty
    and TOP is positive. *)
Theorem C5_error_iff_no_configuration (c t d tm : float) :
  error (calculation c t d tm) = None
  <-> (registers (calculation c t d tm) <> []
       /\ (0 <? top (calculation c t d tm)) = true).
Proof.
  destruct (calculation_cases c t d tm)
    as [(b & N & a & _ & _ & Hu & ->) | (_ & ->)].
  - split; [intros _ | reflexivity]. split.
    + apply registersOf_nonempty.
    + unfold usable in Hu. apply andb_prop in Hu. exact (proj1 Hu).
  - split; [discriminate|]. intros [H _]. now elim H.
Qed.

(** C6: when no candidate prescaler gives a TOP in range, the record
    carries the error message, no registers, zero TOP, OCR and achieved
    frequency, and the requested frequency and duty cycle as given. *)
Theorem C6_failure_record (c t d tm : float) :
  (forall N, In N prescalers -> usable c t tm N = false) ->
  error (calculation c t d tm) <> None
  /\ registers (calculation c t d tm) = []
  /\ top (calculation c t d tm) = 0
  /\ ocr (calculation c t d tm) = 0
  /\ actualFrequency (calculation c t d tm) = 0
  /\ frequency (calculation c t d tm) = t
  /\ dutyCycle (calculation c t d tm) = d.
Proof.
  intros H. apply search_none with (dutyCycle := d) in H.
  unfold calculation. rewrite H. simpl. repeat split. discriminate.
Qed.

Lemma C6_failure_record_witness :
  error (calculation 16000000 1 50 0) <> None
  /\ registers (calculation 16000000 1 50 0) = []
  /\ top (calculation 16000000 1 50 0) = 0
  /\ ocr (calculation 16000000 1 50 0) = 0
  /\ actualFrequency (calculation 16000000 1 50 0) = 0
  /\ frequency (calculation 16000000 1 50 0) = 1
  /\ dutyCycle (calculation 16000000 1 50 0) = 50.
Proof.
  apply (C6_failure_record 16000000 1 50 0).
  intros N HN. in_prescalers HN; subst N; vm_compute; reflexivity.
Defined.



(** ** Bit width *)

Lemma success_top_in_range (c t d tm : float) :
  error (calculation c t d tm) = None ->
  (0 <? top (calculation c t d tm)) = true
  /\ (top (calculation c t d tm) <=? maxTop tm) = true.
Proof.
  destruct (calculation_cases c t d tm)
    as [(b & N & a & _ & _ & Hu & ->) | (_ & ->)]; [intros _|discriminate].
  unfold usable in Hu. apply andb_prop in Hu. exact Hu.
Qed.

(** C8: a successful calculation has 0 < TOP <= 65535 on Timer 1 and
    0 < TOP <= 255 on Timers 0 and 2. *)
Theorem C8_top_within_bit_width (c t d tm : float) :
  error (calculation c t d tm) = None ->
  (tm = 1 -> (0 <? top (calculation c t d tm)) = true
             /\ (top (calculation c t d tm) <=? 65535) = true)
  /\ (tm = 0 \/ tm = 2 ->
      (0 <? top (calculation c t d tm)) = true
      /\ (top (calculation c t d tm) <=? 255) = true).
Proof.
  intros H. pose proof (success_top_in_range c t d tm H) as Hr.
  split.
  - intros ->. exact Hr.
  - intros [-> | ->]; exact Hr.
Qed.

Lemma C8_top_within_bit_width_witness :
  ((0 <? top (calculation 16000000 1000 50 1)) = true
   /\ (top (calculation 16000000 1000 50 1) <=? 65535) = true)
  /\ ((0 <? top (calculation 16000000 1000 50 2)) = true
      /\ (top (calculation 16000000 1000 50 2) <=? 255) = true).
Proof.
  split.
  - apply (C8_top_within_bit_width 16000000 1000 50 1); reflexivity.
  - apply (C8_top_within_bit_width 16000000 1000 50 2);
      [reflexivity | right; reflexivity].
Defined.

(** ** Clock-select codes of the 8-bit timers *)

(** Control register B of an 8-bit timer depends on the timer and the
    prescaler only. *)
Lemma controlRegisterB_8bit (c t d tm N : float) :
  (tm =? 1) = false ->
  controlRegisterB (resultOf c t d tm N)
  = Some ("0x0" ++ JS.Number_toString 16 (JS.bitor 8 (JS.parseInt2 (csBits tm N)))).
Proof.
  intros H. unfold controlRegisterB, resultOf, registersOf. simpl registers.
  rewrite H. reflexivity.
Qed.

Lemma clockSelect_8bit (c t d tm N : float) :
  (tm =? 1) = false ->
  clockSelect (resultOf c t d tm N)
  = option_map (fun b => Z.land b 7)
      (byte_of_literal
         ("0x0" ++ JS.Number_toString 16 (JS.bitor 8 (JS.parseInt2 (csBits tm N))))).
Proof.
  intros H. unfold clockSelect. now rewrite controlRegisterB_8bit.
Qed.

Lemma success_prescaler (c t d tm : float) :
  error (calculation c t d tm) = None ->
  In (prescaler (calculation c t d tm)) prescalers
  /\ calculation c t d tm = resultOf c t d tm (prescaler (calculation c t d tm)).
Proof.
  destruct (calculation_cases c t d tm)
    as [(b & N & a & Hp & _ & _ & ->) | (_ & ->)]; [intros _|discriminate].
  split; [|reflexivity].
  change (prescaler (resultOf c t d tm N)) with N.
  rewrite Hp. apply in_or_app. right. now left.
Qed.

(** C3, as stated, fails: at 16 MHz and 1 kHz both Timer 0 and Timer 2
    select the prescaler 64, and the clock-select codes are 011 on Timer 0
    and 100 on Timer 2 (TCCR0B = 0x0b, TCCR2B = 0x0c). *)
Lemma C3_same_code_counterexample :
  ~ same_clock_select 16000000 1000 50 16000000 1000 50.
Proof.
  unfold same_clock_select. intros H.
  specialize (H eq_refl eq_refl eq_refl).
  vm_compute in H. discriminate H.
Qed.

(** C3, amended: when Timer 0 and Timer 2 both succeed with the same
    prescaler, their clock-select codes agree exactly when that prescaler
    is 1 or 8, where both write the code 001, respectively 010; at 64, 256
    and 1024 Timer 0 writes 011, 100, 101 and Timer 2 writes 100, 110, 111.
    Timer 0's table gives 001, 010, 011, 100, 101 to the five prescalers;
    Timer 2's table gives 001 to 111 to 1, 8, 32, 64, 128, 256, 1024, the
    positions 32 and 128 (codes 011 and 101) lying in between. *)
Theorem C3_clock_select_shared_at_1_and_8 (c0 t0 d0 c2 t2 d2 : float) :
  error (calculation c0 t0 d0 0) = None ->
  error (calculation c2 t2 d2 2) = None ->
  prescaler (calculation c0 t0 d0 0) = prescaler (calculation c2 t2 d2 2) ->
  (clockSelect (calculation c0 t0 d0 0) = clockSelect (calculation c2 t2 d2 2)
   <-> (prescaler (calculation c0 t0 d0 0) = 1
        \/ prescaler (calculation c0 t0 d0 0) = 8))
  /\ (prescaler (calculation c0 t0 d0 0) = 1 ->
      clockSelect (calculation c0 t0 d0 0) = Some 1%Z
      /\ clockSelect (calculation c2 t2 d2 2) = Some 1%Z)
  /\ (prescaler (calculation c0 t0 d0 0) = 8 ->
      clockSelect (calculation c0 t0 d0 0) = Some 2%Z
      /\ clockSelect (calculation c2 t2 d2 2) = Some 2%Z)
  /\ (prescaler (calculation c0 t0 d0 0) = 64 ->
      clockSelect (calculation c0 t0 d0 0) = Some 3%Z
      /\ clockSelect (calculation c2 t2 d2 2) = Some 4%Z)
  /\ (prescaler (calculation c0 t0 d0 0) = 256 ->
      clockSelect (calculation c0 t0 d0 0) = Some 4%Z
      /\ clockSelect (calculation c2 t2 d2 2) = Some 6%Z)
  /\ (prescaler (calculation c0 t0 d0 0) = 1024 ->
      clockSelect (calculation c0 t0 d0 0) = Some 5%Z
      /\ clockSelect (calculation c2 t2 d2 2) = Some 7%Z)
  /\ map (csBits 0) prescalers = ["001"; "010"; "011"; "100"; "101"]
  /\ map (csBits 2) [1; 8; 32; 64; 128; 256; 1024]
     = ["001"; "010"; "011"; "100"; "101"; "110"; "111"].
Proof.
  intros H0 H2 Heq.
  destruct (success_prescaler _ _ _ _ H0) as [Hin Hr0].
  destruct (success_prescaler _ _ _ _ H2) as [_ Hr2].
  rewrite <- Heq in Hr2.
  remember (prescaler (calculation c0 t0 d0 0)) as N eqn:HN. clear HN Heq.
  rewrite Hr0, Hr2, !clockSelect_8bit by reflexivity.
  clear Hr0 Hr2 H0 H2.
  in_prescalers Hin; subst N; vm_compute.
  all: repeat apply conj; try reflexivity; intros E.
  all: try (exfalso; revert E; float_neq).
  all: try (split; reflexivity).
  all: try discriminate E.
  all: try (left; reflexivity); try (right; reflexivity).
  all: destruct E as [E|E]; exfalso; revert E; float_neq.
Qed.

Lemma C3_clock_select_shared_at_1_and_8_witness :
  ((clockSelect (calculation 16000000 1000 50 0)
    = clockSelect (calculation 16000000 1000 50 2)
    <-> (prescaler (calculation 16000000 1000 50 0) = 1
         \/ prescaler (calculation 16000000 1000 50 0) = 8))
   /\ clockSelect (calculation 16000000 1000 50 0) = Some 3%Z
   /\ clockSelect (calculation 16000000 1000 50 2) = Some 4%Z)
  /\ (clockSelect (calculation 100000 1000 50 0) = Some 1%Z
      /\ clockSelect (calculation 100000 1000 50 2) = Some 1%Z)
  /\ (clockSelect (calculation 1000000 1000 50 0) = Some 2%Z
      /\ clockSelect (calculation 1000000 1000 50 2) = Some 2%Z).
Proof.
  pose proof (C3_clock_select_shared_at_1_and_8
                16000000 1000 50 16000000 1000 50 eq_refl eq_refl eq_refl)
    as (Hiff & _ & _ & H64 & _).
  pose proof (C3_clock_select_shared_at_1_and_8
                100000 1000 50 100000 1000 50 eq_refl eq_refl eq_refl)
    as (_ & H1 & _).
  pose proof (C3_clock_select_shared_at_1_and_8
                1000000 1000 50 1000000 1000 50 eq_refl eq_refl eq_refl)
    as (_ & _ & H8 & _).
  split; [split; [exact Hiff | exact (H64 eq_refl)]|].
  split; [exact (H1 eq_refl) | exact (H8 eq_refl)].
Defined.

(** ** Rounding of the binary64 operations

    The primitive operations are specified by [FloatAxioms] through the
    functions of [SpecFloat].  This part shows that they round to nearest:
    the result of an operation on positive finite numbers is a number of
    the format nearest to the exact result, or an infinity past the
    exponent range. *)

Section Rounding.

Local Open Scope R_scope.

(** *** Powers of two and bit counts *)

Lemma bpow_gt_0 e : 0 < bpow e.
Proof. apply powerRZ_lt. lra. Qed.

Lemma bpow_add e1 e2 : bpow (e1 + e2) = bpow e1 * bpow e2.
Proof. apply powerRZ_add. lra. Qed.

Lemma bpow_IZR e : (0 <= e)%Z -> bpow e = IZR (2 ^ e).
Proof.
  intros He. unfold bpow. destruct e as [|p|p]; [reflexivity| |lia].
  change (2 ^ Z.pos p)%Z with (Z.pow_pos 2 p).
  now rewrite Zpower_pos_powerRZ.
Qed.

Lemma bpow_ge_1 e : (0 <= e)%Z -> 1 <= bpow e.
Proof.
  intros He. rewrite bpow_IZR by assumption. apply IZR_le.
  pose proof (Z.pow_pos_nonneg 2 e). lia.
Qed.

Lemma bpow_le e1 e2 : (e1 <= e2)%Z -> bpow e1 <= bpow e2.
Proof.
  intros H. replace e2 with (e1 + (e2 - e1))%Z by lia. rewrite bpow_add.
  pose proof (bpow_gt_0 e1). pose proof (bpow_ge_1 (e2 - e1) ltac:(lia)). nra.
Qed.

Lemma bpow_1 : bpow 1 = 2.
Proof. unfold bpow. simpl. lra. Qed.

Lemma bpow_lt e1 e2 : (e1 < e2)%Z -> bpow e1 < bpow e2.
Proof.
  intros H. replace e2 with (e1 + 1 + (e2 - e1 - 1))%Z by lia.
  rewrite !bpow_add. rewrite bpow_1.
  pose proof (bpow_gt_0 e1). pose proof (bpow_ge_1 (e2 - e1 - 1) ltac:(lia)). nra.
Qed.

Lemma bpow_succ e : bpow (e + 1) = 2 * bpow e.
Proof. rewrite bpow_add. rewrite bpow_1. lra. Qed.

(** [digits2_pos] counts the bits of a positive number. *)
Lemma digits2_size p : digits2_pos p = Pos.size p.
Proof. induction p; simpl; congruence. Qed.

Lemma digits2_bounds p :
  (2 ^ (Zpos (digits2_pos p) - 1) <= Zpos p < 2 ^ Zpos (digits2_pos p))%Z.
Proof.
  rewrite digits2_size. split.
  - pose proof (Pos.size_le p) as H.
    apply Pos2Z.pos_le_pos in H. rewrite Pos2Z.inj_pow in H.
    replace (Z.pos (Pos.size p)) with (Z.pos (Pos.size p) - 1 + 1)%Z in H by lia.
    rewrite Z.pow_add_r in H by lia. change (Z.pos p~0) with (2 * Z.pos p)%Z in H. lia.
  - pose proof (Pos.size_gt p) as H.
    apply Pos2Z.pos_lt_pos in H. now rewrite Pos2Z.inj_pow in H.
Qed.

(** One shift to the right halves the mantissa and keeps track of where
    the value lies in the coarser slice. *)
Lemma shr_1_located x mrs e :
  located x mrs e ->
  located x (shr_1 mrs) (e + 1)
  /\ shr_m (shr_1 mrs) = (shr_m mrs / 2)%Z.
Proof.
  destruct mrs as [m r s]. unfold located. simpl shr_m; simpl shr_r; simpl shr_s.
  intros [Hm Hx]. pose proof (bpow_succ e) as Hs. pose proof (bpow_gt_0 e) as He.
  destruct m as [|[p|p|]|p]; try lia; simpl shr_1; cbv iota beta;
    simpl shr_m; simpl shr_r; simpl shr_s.
  - split; [split; [lia|]|reflexivity].
    destruct r, s; unfold inbetween in *; simpl orb; rewrite Hs; simpl in Hx; nra.
  - assert (E : (Z.pos p~1 / 2)%Z = Z.pos p)
      by (symmetry; apply (Z.div_unique _ 2 _ 1); lia).
    split; [split; [lia|]|now rewrite E].
    rewrite Pos2Z.inj_xI in Hx.
    destruct r, s; unfold inbetween in *; simpl orb; rewrite Hs;
      rewrite plus_IZR, mult_IZR in Hx; nra.
  - assert (E : (Z.pos p~0 / 2)%Z = Z.pos p)
      by (symmetry; apply (Z.div_unique _ 2 _ 0); lia).
    split; [split; [lia|]|now rewrite E].
    rewrite Pos2Z.inj_xO in Hx.
    destruct r, s; unfold inbetween in *; simpl orb; rewrite Hs;
      rewrite mult_IZR in Hx; nra.
  - split; [split; [lia|]|reflexivity].
    destruct r, s; unfold inbetween in *; simpl orb; rewrite Hs; simpl in Hx; nra.
Qed.

(** So do [p] shifts in a row. *)
Lemma shr_iter_located p : forall x mrs e,
  located x mrs e ->
  located x (SpecFloat.iter_pos shr_1 p mrs) (e + Zpos p)
  /\ shr_m (SpecFloat.iter_pos shr_1 p mrs) = (shr_m mrs / 2 ^ Zpos p)%Z.
Proof.
  induction p as [p IH|p IH|]; intros x mrs e H.
  - assert (HP : (0 < 2 ^ Z.pos p)%Z) by (apply Z.pow_pos_nonneg; lia).
    assert (E : (2 ^ Z.pos p~1 = 2 * 2 ^ Z.pos p * 2 ^ Z.pos p)%Z).
    { rewrite <- Z.mul_assoc, <- Z.pow_add_r by lia.
      replace (Z.pos p~1) with (1 + (Z.pos p + Z.pos p))%Z by lia.
      rewrite Z.pow_add_r by lia. reflexivity. }
    change (SpecFloat.iter_pos shr_1 p~1 mrs)
      with (SpecFloat.iter_pos shr_1 p (SpecFloat.iter_pos shr_1 p (shr_1 mrs))).
    destruct (shr_1_located _ _ _ H) as [H1 E1].
    destruct (IH _ _ _ H1) as [H2 E2].
    destruct (IH _ _ _ H2) as [H3 E3].
    split.
    + replace (e + Z.pos p~1)%Z with (e + 1 + Z.pos p + Z.pos p)%Z by lia. exact H3.
    + rewrite E3, E2, E1, E, !Z.div_div by lia. f_equal. lia.
  - assert (HP : (0 < 2 ^ Z.pos p)%Z) by (apply Z.pow_pos_nonneg; lia).
    assert (E : (2 ^ Z.pos p~0 = 2 ^ Z.pos p * 2 ^ Z.pos p)%Z).
    { rewrite <- Z.pow_add_r by lia. f_equal. lia. }
    change (SpecFloat.iter_pos shr_1 p~0 mrs)
      with (SpecFloat.iter_pos shr_1 p (SpecFloat.iter_pos shr_1 p mrs)).
    destruct (IH _ _ _ H) as [H2 E2].
    destruct (IH _ _ _ H2) as [H3 E3].
    split.
    + replace (e + Z.pos p~0)%Z with (e + Z.pos p + Z.pos p)%Z by lia. exact H3.
    + rewrite E3, E2, E, !Z.div_div by lia. f_equal.
  - destruct (shr_1_located _ _ _ H) as [H1 E1]. split; [exact H1|].
    exact E1.
Qed.

(** *** Truncation to the exponent of the format *)

Lemma fexp_eq e : SpecFloat.fexp prec emax e = Z.max (e - 53) (-1074).
Proof. reflexivity. Qed.

Lemma Zdigits2_bounds m :
  (0 < m)%Z -> (2 ^ (Zdigits2 m - 1) <= m < 2 ^ Zdigits2 m)%Z.
Proof.
  destruct m as [|p|p]; try lia. intros _. apply digits2_bounds.
Qed.

Lemma Zdigits2_nonneg m : (0 <= Zdigits2 m)%Z.
Proof. destruct m; simpl; lia. Qed.

Lemma Zdigits2_le_53 m : (0 <= m < 2 ^ 53)%Z -> (Zdigits2 m <= 53)%Z.
Proof.
  intros [H0 H1]. destruct (Z.eq_dec m 0) as [->|Hn]; [simpl; lia|].
  pose proof (Zdigits2_bounds m ltac:(lia)) as [Hl _].
  destruct (Z_le_gt_dec (Zdigits2 m) 53) as [|Hgt]; [assumption|exfalso].
  assert (2 ^ 53 <= 2 ^ (Zdigits2 m - 1))%Z by (apply Z.pow_le_mono_r; lia).
  lia.
Qed.

Lemma shr_m_of_loc m l : shr_m (shr_record_of_loc m l) = m.
Proof. destruct l as [|[]]; reflexivity. Qed.

(** [shr_fexp] brings a mantissa with enough bits to the exponent the
    format gives a number of that size. *)
Lemma shr_fexp_located x mx ex lx :
  located x (shr_record_of_loc mx lx) ex ->
  (ex <= SpecFloat.fexp prec emax (Zdigits2 mx + ex))%Z ->
  located x (fst (shr_fexp prec emax mx ex lx)) (snd (shr_fexp prec emax mx ex lx))
  /\ snd (shr_fexp prec emax mx ex lx) = SpecFloat.fexp prec emax (Zdigits2 mx + ex)
  /\ shr_m (fst (shr_fexp prec emax mx ex lx))
     = (mx / 2 ^ (SpecFloat.fexp prec emax (Zdigits2 mx + ex) - ex))%Z.
Proof.
  intros Hloc Hk. unfold shr_fexp, shr.
  set (k := (SpecFloat.fexp prec emax (Zdigits2 mx + ex) - ex)%Z) in *.
  destruct k as [|p|p] eqn:Ek; simpl fst; simpl snd.
  - repeat split; [apply Hloc | apply Hloc | lia |].
    rewrite shr_m_of_loc, Z.div_1_r. reflexivity.
  - destruct (shr_iter_located p _ _ _ Hloc) as [H1 H2].
    repeat split; [apply H1 | apply H1 | lia |].
    rewrite H2, shr_m_of_loc. reflexivity.
  - lia.
Qed.

(** Rounding to nearest, ties to even, picks the nearer end of the slice. *)
Lemma round_nearest_even_located x mrs e :
  located x mrs e ->
  let m1 := round_nearest_even (shr_m mrs) (loc_of_shr_record mrs) in
  (m1 = shr_m mrs \/ m1 = (shr_m mrs + 1)%Z)
  /\ forall y, (y <= IZR (shr_m mrs) * bpow e
                \/ (IZR (shr_m mrs) + 1) * bpow e <= y) ->
               Rabs (IZR m1 * bpow e - x) <= Rabs (y - x).
Proof.
  destruct mrs as [m r s]. unfold located. simpl shr_m; simpl shr_r; simpl shr_s.
  intros [Hm Hx]. pose proof (bpow_gt_0 e) as He.
  set (b := bpow e) in *. set (A := IZR m * b).
  assert (EA1 : (IZR m + 1) * b = A + b) by (unfold A; ring).
  assert (EA2 : (IZR m + / 2) * b = A + b / 2) by (unfold A; field).
  assert (EA3 : IZR (m + 1) * b = A + b) by (rewrite plus_IZR; unfold A; ring).
  destruct r, s; unfold inbetween in Hx; change (bpow e) with b in Hx;
    simpl loc_of_shr_record; simpl round_nearest_even;
    rewrite ?EA1, ?EA2 in Hx; fold A in Hx; rewrite EA1.
  - split; [right; reflexivity|]. intros y Hy. rewrite EA3.
    unfold Rabs. repeat destruct Rcase_abs; lra.
  - destruct (Z.even m).
    + split; [left; reflexivity|]. intros y Hy. fold A.
      unfold Rabs. repeat destruct Rcase_abs; lra.
    + split; [right; reflexivity|]. intros y Hy. rewrite EA3.
      unfold Rabs. repeat destruct Rcase_abs; lra.
  - split; [left; reflexivity|]. intros y Hy. fold A.
    unfold Rabs. repeat destruct Rcase_abs; lra.
  - split; [left; reflexivity|]. intros y Hy. fold A.
    unfold Rabs. repeat destruct Rcase_abs; lra.
Qed.

Section Truncated.

(** The mantissa [mx] at exponent [ex], truncated to the exponent the
    format gives a number of its size. *)
Variables mx ex : Z.
Hypothesis Hmx : (0 <= mx)%Z.
Let e' := SpecFloat.fexp prec emax (Zdigits2 mx + ex).
Hypothesis Hex : (ex <= e')%Z.
Let m' := (mx / 2 ^ (e' - ex))%Z.

Lemma truncated_nonneg : (0 <= m')%Z.
Proof.
  subst m'. apply Z.div_pos; [assumption|]. apply Z.pow_pos_nonneg; lia.
Qed.

Lemma truncated_lt : (m' < 2 ^ 53)%Z.
Proof.
  subst m'. assert (Hp : (0 < 2 ^ (e' - ex))%Z) by (apply Z.pow_pos_nonneg; lia).
  apply Z.div_lt_upper_bound; [assumption|].
  destruct (Z.eq_dec mx 0) as [->|Hn]; [lia|].
  pose proof (Zdigits2_bounds mx ltac:(lia)) as [_ Hu].
  assert (He : (Zdigits2 mx <= 53 + (e' - ex))%Z)
    by (subst e'; rewrite fexp_eq in *; lia).
  assert (2 ^ Zdigits2 mx <= 2 ^ (53 + (e' - ex)))%Z
    by (apply Z.pow_le_mono_r; lia).
  rewrite Z.pow_add_r in * by lia. lia.
Qed.

(** Above the subnormal range the truncated mantissa has all 53 bits. *)
Lemma truncated_normal : (-1074 < e')%Z -> (2 ^ 52 <= m')%Z.
Proof.
  intros Hn.
  assert (He : e' = (Zdigits2 mx + ex - 53)%Z)
    by (subst e'; rewrite fexp_eq in *; lia).
  assert (Hpos : (0 < mx)%Z).
  { destruct (Z.eq_dec mx 0) as [E|E]; [|lia].
    rewrite E in He. simpl in He. lia. }
  pose proof (Zdigits2_bounds mx Hpos) as [Hl _].
  subst m'. assert (Hp : (0 < 2 ^ (e' - ex))%Z) by (apply Z.pow_pos_nonneg; lia).
  apply Z.div_le_lower_bound; [assumption|].
  replace (Zdigits2 mx - 1)%Z with ((e' - ex) + 52)%Z in Hl by lia.
  rewrite Z.pow_add_r in Hl by lia. lia.
Qed.

(** No number of the format lies strictly inside a slice of the grid. *)
Lemma format_off_slice y :
  format y ->
  y <= IZR m' * bpow e' \/ (IZR m' + 1) * bpow e' <= y.
Proof.
  intros (my & ey & -> & Hmy & Hey).
  pose proof (bpow_gt_0 e') as Hb.
  destruct (Z_le_gt_dec e' ey) as [Hge|Hlt].
  - replace ey with ((ey - e') + e')%Z by lia. rewrite bpow_add.
    rewrite bpow_IZR by lia. rewrite <- Rmult_assoc, <- mult_IZR.
    set (j := (my * 2 ^ (ey - e'))%Z).
    destruct (Z_le_gt_dec j m') as [Hj|Hj].
    + left. apply Rmult_le_compat_r; [lra|]. now apply IZR_le.
    + right. rewrite <- plus_IZR. apply Rmult_le_compat_r; [lra|].
      apply IZR_le. lia.
  - left. pose proof (truncated_normal ltac:(lia)) as Hm.
    apply Rle_trans with (IZR (2 ^ 53) * bpow ey).
    + apply Rmult_le_compat_r; [pose proof (bpow_gt_0 ey); lra|].
      apply IZR_le. lia.
    + apply Rle_trans with (IZR (2 ^ 52) * bpow e').
      * replace e' with ((e' - 1) + 1)%Z at 1 by lia.
        rewrite bpow_succ.
        pose proof (bpow_le ey (e' - 1) ltac:(lia)).
        pose proof (bpow_gt_0 ey).
        change (IZR (2 ^ 53)) with (2 * IZR (2 ^ 52)).
        assert (0 < IZR (2 ^ 52)) by (apply IZR_lt; lia). nra.
      * apply Rmult_le_compat_r; [lra|]. now apply IZR_le.
Qed.

End Truncated.

(** The renormalisation after rounding shifts only when the mantissa has
    overflowed to 2^53, and then loses nothing. *)
Lemma shr_fexp_rounded m1 e :
  (0 <= m1 <= 2 ^ 53)%Z -> (-1074 <= e)%Z ->
  IZR (shr_m (fst (shr_fexp prec emax m1 e loc_Exact)))
    * bpow (snd (shr_fexp prec emax m1 e loc_Exact))
  = IZR m1 * bpow e
  /\ (0 <= shr_m (fst (shr_fexp prec emax m1 e loc_Exact)))%Z
  /\ ((shr_fexp prec emax m1 e loc_Exact
       = (Build_shr_record m1 false false, e))
      \/ (m1 = (2 ^ 53)%Z
          /\ shr_fexp prec emax m1 e loc_Exact
             = (Build_shr_record (2 ^ 52) false false, (e + 1)%Z))).
Proof.
  intros Hm He.
  destruct (Z.eq_dec m1 (2 ^ 53)) as [->|Hne].
  - assert (E : shr_fexp prec emax (2 ^ 53) e loc_Exact
                = (Build_shr_record (2 ^ 52) false false, (e + 1)%Z)).
    { unfold shr_fexp.
      replace (SpecFloat.fexp prec emax (Zdigits2 (2 ^ 53) + e) - e)%Z with 1%Z
        by (rewrite fexp_eq; change (Zdigits2 (2 ^ 53)) with 54%Z; lia).
      reflexivity. }
    rewrite E. cbn [fst snd shr_m].
    split; [|split; [lia|right; split; reflexivity]].
    rewrite bpow_succ.
    replace (IZR (2 ^ 53)) with (2 * IZR (2 ^ 52))
      by (rewrite <- mult_IZR; f_equal).
    ring.
  - assert (E : shr_fexp prec emax m1 e loc_Exact
                = (Build_shr_record m1 false false, e)).
    { unfold shr_fexp, shr.
      pose proof (Zdigits2_le_53 m1 ltac:(lia)) as Hd.
      pose proof (Zdigits2_nonneg m1) as Hd0.
      destruct (SpecFloat.fexp prec emax (Zdigits2 m1 + e) - e)%Z as [|p|p] eqn:Ek;
        try reflexivity.
      rewrite fexp_eq in Ek. lia. }
    rewrite E. cbn [fst snd shr_m].
    split; [reflexivity|split; [lia|left; reflexivity]].
Qed.

(** ** Rounding of a located value

    [binary_round_aux] returns a nearest number of the format, or an
    infinity when that number is 2^1024 or more. *)
Theorem binary_round_aux_nearest s mx ex lx x :
  located x (shr_record_of_loc mx lx) ex ->
  (ex <= SpecFloat.fexp prec emax (Zdigits2 mx + ex))%Z ->
  exists v,
    0 <= v
    /\ (forall y, format y -> Rabs (v - x) <= Rabs (y - x))
    /\ ((binary_round_aux prec emax s mx ex lx = S754_zero s /\ v = 0)
        \/ (exists m e,
              binary_round_aux prec emax s mx ex lx = S754_finite s m e
              /\ v = IZR (Zpos m) * bpow e)
        \/ (binary_round_aux prec emax s mx ex lx = S754_infinity s
            /\ bpow 1024 <= v)).
Proof.
  intros Hloc Hex.
  assert (Hmx : (0 <= mx)%Z) by (destruct Hloc as [H _]; now rewrite shr_m_of_loc in H).
  destruct (shr_fexp_located _ _ _ _ Hloc Hex) as (H1 & He' & Hm').
  unfold binary_round_aux.
  destruct (shr_fexp prec emax mx ex lx) as [mrs' e'] eqn:E1.
  simpl fst in *; simpl snd in *.
  destruct (round_nearest_even_located _ _ _ H1) as [Hm1 Hnear].
  set (m1 := round_nearest_even (shr_m mrs') (loc_of_shr_record mrs')) in *.
  pose proof (truncated_nonneg mx ex Hmx Hex) as Hm'0.
  pose proof (truncated_lt mx ex Hmx Hex) as Hm'lt.
  assert (He'ge : (-1074 <= e')%Z) by (rewrite He', fexp_eq; lia).
  rewrite <- Hm' in Hm'0, Hm'lt.
  assert (Hm1r : (0 <= m1 <= 2 ^ 53)%Z) by lia.
  destruct (shr_fexp_rounded m1 e' Hm1r He'ge) as (Hval & Hpos & Hcase).
  destruct (shr_fexp prec emax m1 e' loc_Exact) as [mrs'' e''] eqn:E2.
  simpl fst in *; simpl snd in *.
  exists (IZR m1 * bpow e').
  pose proof (bpow_gt_0 e') as Hb.
  split; [apply Rmult_le_pos; [apply IZR_le; lia | lra]|].
  split.
  { intros y Hy. apply Hnear.
    pose proof (format_off_slice mx ex Hmx Hex y Hy) as Hoff.
    rewrite <- Hm', <- He' in Hoff. exact Hoff. }
  destruct (shr_m mrs'') as [|p|p] eqn:Em; [| |lia].
  - left. split; [reflexivity|]. rewrite <- Hval. simpl. ring.
  - destruct (e'' <=? emax - prec)%Z eqn:Ele.
    + right; left. exists p, e''. split; [reflexivity|]. now rewrite Hval.
    + right; right. split; [reflexivity|].
      apply Z.leb_gt in Ele. change (emax - prec)%Z with 971%Z in Ele.
      destruct Hcase as [Hc|[Hc1 Hc2]].
      * injection Hc as Hc1 Hc2. subst e''.
        pose proof (truncated_normal mx ex Hmx Hex) as Hn.
        rewrite <- Hm', <- He' in Hn. specialize (Hn ltac:(lia)).
        replace 1024%Z with (52 + 972)%Z by lia. rewrite bpow_add.
        rewrite (bpow_IZR 52) by lia.
        pose proof (bpow_le 972 e' ltac:(lia)).
        pose proof (bpow_gt_0 972).
        assert (IZR (2 ^ 52) <= IZR m1) by (apply IZR_le; lia).
        assert (0 < IZR (2 ^ 52)) by (apply IZR_lt; lia).
        nra.
      * injection Hc2 as Hc2 Hc3. subst e''. rewrite Hc1.
        replace 1024%Z with (53 + 971)%Z by lia. rewrite bpow_add.
        rewrite (bpow_IZR 53) by lia.
        pose proof (bpow_le 971 e' ltac:(lia)).
        assert (0 < IZR (2 ^ 53)) by (apply IZR_lt; lia).
        nra.
Qed.

(** *** Nearest numbers *)

(** A number of the format rounds to itself, and rounding is monotone
    with respect to the numbers of the format. *)
Lemma nearest_exact x v : nearest x v -> format x -> v = x.
Proof.
  intros [_ H] Hx. specialize (H x Hx).
  replace (x - x) with 0 in H by ring. rewrite Rabs_R0 in H.
  pose proof (Rabs_pos (v - x)) as Hp.
  assert (E : Rabs (v - x) = 0) by lra.
  destruct (Req_dec (v - x) 0) as [E0|E0]; [lra|].
  apply Rabs_no_R0 in E0. contradiction.
Qed.

Lemma nearest_ge x v y : nearest x v -> format y -> y <= x -> y <= v.
Proof.
  intros [_ H] Hy Hle. specialize (H y Hy).
  destruct (Rle_lt_dec y v) as [|Hlt]; [assumption|exfalso].
  unfold Rabs in H. repeat destruct Rcase_abs; lra.
Qed.

Lemma nearest_le x v y : nearest x v -> format y -> x <= y -> v <= y.
Proof.
  intros [_ H] Hy Hle. specialize (H y Hy).
  destruct (Rle_lt_dec v y) as [|Hlt]; [assumption|exfalso].
  unfold Rabs in H. repeat destruct Rcase_abs; lra.
Qed.

Lemma binary_round_aux_carries s mx ex lx x :
  located x (shr_record_of_loc mx lx) ex ->
  (ex <= SpecFloat.fexp prec emax (Zdigits2 mx + ex))%Z ->
  exists v, nearest x v /\ carries (binary_round_aux prec emax s mx ex lx) s v.
Proof.
  intros H1 H2.
  destruct (binary_round_aux_nearest s mx ex lx x H1 H2) as (v & Hv & Hn & Hc).
  exists v. split; [split; assumption | exact Hc].
Qed.

(** *** Formats *)

Lemma format_IZR_bpow m e :
  (0 <= m < 2 ^ 53)%Z -> (-1074 <= e)%Z -> format (IZR m * bpow e).
Proof. intros Hm He. exists m, e. auto. Qed.

Lemma format_IZR m : (0 <= m < 2 ^ 53)%Z -> format (IZR m).
Proof.
  intros Hm. exists m, 0%Z. repeat split; try lia.
  unfold bpow. simpl. ring.
Qed.

(** *** Valid finite numbers *)

(** A valid positive float is in canonical form. *)
Lemma valid_finite m e :
  valid_binary (S754_finite false m e) = true ->
  e = SpecFloat.fexp prec emax (Zpos (digits2_pos m) + e)
  /\ (-1074 <= e <= 971)%Z
  /\ (Zpos m < 2 ^ 53)%Z
  /\ ((-1074 < e)%Z -> (2 ^ 52 <= Zpos m)%Z).
Proof.
  unfold SpecFloat.valid_binary, bounded, canonical_mantissa.
  intros H. apply andb_prop in H. destruct H as [H1 H2].
  apply Z.eqb_eq in H1. apply Z.leb_le in H2.
  change (emax - prec)%Z with 971%Z in H2.
  pose proof (digits2_bounds m) as [Hl Hu].
  rewrite fexp_eq in H1.
  split; [now rewrite fexp_eq|]. split; [lia|]. split.
  - assert (Hd : (Zpos (digits2_pos m) <= 53)%Z) by lia.
    assert (2 ^ Zpos (digits2_pos m) <= 2 ^ 53)%Z by (apply Z.pow_le_mono_r; lia).
    lia.
  - intros Hn. assert (Hd : Zpos (digits2_pos m) = 53%Z) by lia.
    rewrite Hd in Hl. exact Hl.
Qed.

Lemma SF2R_format m e :
  valid_binary (S754_finite false m e) = true ->
  format (SF2R (S754_finite false m e)).
Proof.
  intros H. destruct (valid_finite m e H) as (_ & He & Hm & _).
  simpl. apply format_IZR_bpow; lia.
Qed.

Lemma SF2R_pos m e : 0 < SF2R (S754_finite false m e).
Proof.
  simpl. apply Rmult_lt_0_compat; [apply IZR_lt; lia | apply bpow_gt_0].
Qed.

(** *** Comparison *)

(** On valid positive floats [SFleb] is the order of the values. *)
Lemma SFleb_finite m1 e1 m2 e2 :
  valid_binary (S754_finite false m1 e1) = true ->
  valid_binary (S754_finite false m2 e2) = true ->
  SFleb (S754_finite false m1 e1) (S754_finite false m2 e2) = true ->
  SF2R (S754_finite false m1 e1) <= SF2R (S754_finite false m2 e2).
Proof.
  intros V1 V2. unfold SFleb, SFcompare.
  destruct (valid_finite _ _ V1) as (_ & He1 & Hm1 & _).
  destruct (valid_finite _ _ V2) as (_ & He2 & _ & Hn2).
  simpl SF2R.
  destruct (Z.compare_spec e1 e2) as [E|E|E].
  - subst e2. rewrite Pos.compare_cont_spec. simpl.
    destruct (Pos.compare_spec m1 m2) as [E|E|E]; try discriminate; intros _.
    + subst. lra.
    + apply Rmult_le_compat_r; [pose proof (bpow_gt_0 e1); lra|].
      apply IZR_le. lia.
  - intros _. specialize (Hn2 ltac:(lia)).
    apply Rle_trans with (IZR (2 ^ 53) * bpow e1).
    + apply Rmult_le_compat_r; [pose proof (bpow_gt_0 e1); lra|]. apply IZR_le; lia.
    + apply Rle_trans with (IZR (2 ^ 52) * bpow e2).
      * replace e2 with ((e2 - 1) + 1)%Z by lia. rewrite bpow_succ.
        pose proof (bpow_le e1 (e2 - 1) ltac:(lia)). pose proof (bpow_gt_0 e1).
        replace (IZR (2 ^ 53)) with (2 * IZR (2 ^ 52)) by (rewrite <- mult_IZR; f_equal).
        assert (0 < IZR (2 ^ 52)) by (apply IZR_lt; lia). nra.
      * apply Rmult_le_compat_r; [pose proof (bpow_gt_0 e2); lra|]. now apply IZR_le.
  - discriminate.
Qed.

Lemma Zdigits2_unique m k :
  (2 ^ (k - 1) <= m < 2 ^ k)%Z -> (0 < m)%Z -> Zdigits2 m = k.
Proof.
  intros [Hl Hu] Hm. pose proof (Zdigits2_bounds m Hm) as [Hl' Hu'].
  pose proof (Zdigits2_nonneg m) as Hd.
  assert (Hk : (0 < k)%Z).
  { destruct (Z_lt_le_dec 0 k); [assumption|].
    assert (2 ^ k <= 2 ^ 0)%Z by (apply Z.pow_le_mono_r; lia).
    simpl in *. lia. }
  destruct (Z.lt_trichotomy (Zdigits2 m) k) as [H|[H|H]]; [exfalso|assumption|exfalso].
  - assert (2 ^ Zdigits2 m <= 2 ^ (k - 1))%Z by (apply Z.pow_le_mono_r; lia). lia.
  - assert (2 ^ k <= 2 ^ (Zdigits2 m - 1))%Z by (apply Z.pow_le_mono_r; lia). lia.
Qed.

Lemma Zdigits2_pos_lt m : (0 < m)%Z -> (0 < Zdigits2 m)%Z.
Proof. destruct m; simpl; lia. Qed.

(** *** Multiplication *)

(** The product of two valid positive floats is rounded to nearest. *)
Lemma SFmul_finite mx ex my ey :
  valid_binary (S754_finite false mx ex) = true ->
  valid_binary (S754_finite false my ey) = true ->
  exists v,
    nearest (SF2R (S754_finite false mx ex) * SF2R (S754_finite false my ey)) v
    /\ carries (SF64mul (S754_finite false mx ex) (S754_finite false my ey)) false v.
Proof.
  intros Vx Vy. unfold SF64mul, SFmul. simpl xorb.
  destruct (valid_finite _ _ Vx) as (Cx & Hex & _ & _).
  destruct (valid_finite _ _ Vy) as (Cy & Hey & _ & _).
  rewrite fexp_eq in Cx, Cy.
  apply binary_round_aux_carries.
  - split; [simpl; lia|]. simpl. rewrite Pos2Z.inj_mul, mult_IZR, bpow_add. ring.
  - rewrite fexp_eq.
    pose proof (digits2_bounds mx) as [Hlx Hux].
    pose proof (digits2_bounds my) as [Hly Huy].
    set (dx := Zpos (digits2_pos mx)) in *. set (dy := Zpos (digits2_pos my)) in *.
    change (Zdigits2 (Z.pos (mx * my))) with (Zpos (digits2_pos (mx * my))).
    pose proof (digits2_bounds (mx * my)) as [_ Hu].
    set (D := Zpos (digits2_pos (mx * my))) in *.
    assert (HD : (dx + dy - 1 <= D)%Z).
    { destruct (Z_le_gt_dec (dx + dy - 1) D) as [|Hgt]; [assumption|exfalso].
      assert (2 ^ D <= 2 ^ (dx - 1 + (dy - 1)))%Z by (apply Z.pow_le_mono_r; lia).
      rewrite Z.pow_add_r in * by lia.
      rewrite Pos2Z.inj_mul in Hu.
      assert (2 ^ (dx - 1) * 2 ^ (dy - 1) <= Z.pos mx * Z.pos my)%Z
        by (apply Z.mul_le_mono_nonneg; try lia; apply Z.pow_nonneg; lia).
      lia. }
    lia.
Qed.

(** *** Division *)

(** The location computed from the remainder of the integer division is
    that of the exact quotient. *)
Lemma new_location_located (q d r e : Z) :
  (0 <= q)%Z -> (0 <= r < d)%Z ->
  located ((IZR q + IZR r / IZR d) * bpow e)
          (shr_record_of_loc q (new_location d r)) e.
Proof.
  intros Hq Hr. pose proof (bpow_gt_0 e) as Hb.
  assert (Hd : 0 < IZR d) by (apply IZR_lt; lia).
  assert (Hr0 : 0 <= IZR r) by (apply IZR_le; lia).
  split; [now rewrite shr_m_of_loc|]. rewrite shr_m_of_loc.
  assert (Hhalf : forall c, (2 * r ?= d)%Z = c ->
            match c with
            | Lt => IZR r / IZR d < / 2
            | Eq => IZR r / IZR d = / 2
            | Gt => / 2 < IZR r / IZR d
            end).
  { intros c <-. destruct (Z.compare_spec (2 * r) d) as [E|E|E].
    - assert (0 < IZR r) by (apply IZR_lt; lia).
      rewrite <- E, mult_IZR. field. lra.
    - apply IZR_lt in E. rewrite mult_IZR in E.
      apply Rmult_lt_reg_r with (IZR d); [lra|]. field_simplify; lra.
    - apply IZR_lt in E. rewrite mult_IZR in E.
      apply Rmult_lt_reg_r with (IZR d); [lra|]. field_simplify; lra. }
  assert (Hlt1 : IZR r / IZR d < 1).
  { apply Rmult_lt_reg_r with (IZR d); [lra|]. field_simplify; [|lra].
    apply IZR_lt. lia. }
  assert (Hpos : (r <> 0)%Z -> 0 < IZR r / IZR d).
  { intros Hn. apply Rdiv_lt_0_compat; [apply IZR_lt; lia | lra]. }
  unfold new_location, new_location_even, new_location_odd.
  destruct (Z.even d) eqn:Ev; destruct (Z.eqb_spec r 0) as [E0|E0].
  - subst r. simpl. unfold Rdiv. rewrite Rmult_0_l, Rplus_0_r. reflexivity.
  - specialize (Hpos E0). specialize (Hhalf _ eq_refl).
    destruct (2 * r ?= d)%Z; simpl; nra.
  - subst r. simpl. unfold Rdiv. rewrite Rmult_0_l, Rplus_0_r. reflexivity.
  - specialize (Hpos E0). specialize (Hhalf _ eq_refl).
    assert (Hodd : (2 * r <> d)%Z).
    { intros E. rewrite <- E, Z.even_mul in Ev. discriminate. }
    destruct (Z.compare_spec (2 * r + 1) d) as [E|E|E];
      destruct (Z.compare_spec (2 * r) d) as [E'|E'|E']; try lia; simpl; nra.
Qed.

(** The quotient of two positive floats is rounded to nearest. *)
Lemma SFdiv_finite mx ex my ey :
  exists v,
    nearest (SF2R (S754_finite false mx ex) / SF2R (S754_finite false my ey)) v
    /\ carries (SF64div (S754_finite false mx ex) (S754_finite false my ey)) false v.
Proof.
  unfold SF64div, SFdiv, SFdiv_core_binary. simpl xorb.
  change (Zdigits2 (Z.pos mx)) with (Zpos (digits2_pos mx)).
  change (Zdigits2 (Z.pos my)) with (Zpos (digits2_pos my)).
  pose proof (digits2_bounds mx) as [Hlx Hux].
  pose proof (digits2_bounds my) as [Hly Huy].
  set (d1 := Zpos (digits2_pos mx)) in *. set (d2 := Zpos (digits2_pos my)) in *.
  set (e' := Z.min (SpecFloat.fexp prec emax (d1 + ex - (d2 + ey))) (ex - ey)).
  assert (Ee' : e' = Z.min (Z.max (d1 + ex - (d2 + ey) - 53) (-1074)) (ex - ey))
    by (subst e'; now rewrite fexp_eq).
  clearbody e'.
  set (s := (ex - ey - e')%Z).
  assert (Es : s = (ex - ey - e')%Z) by reflexivity.
  clearbody s.
  assert (Hs : (0 <= s)%Z) by lia.
  set (m' := match s with
             | 0%Z => Z.pos mx
             | Z.pos _ => Z.shiftl (Z.pos mx) s
             | Z.neg _ => 0%Z
             end).
  assert (Em' : m' = (Z.pos mx * 2 ^ s)%Z).
  { subst m'. destruct s as [|p|p]; [simpl; lia | | lia].
    rewrite Z.shiftl_mul_pow2 by lia. reflexivity. }
  clearbody m'.
  pose proof (Z_div_mod m' (Z.pos my) ltac:(lia)) as Hdm.
  destruct (Z.div_eucl m' (Z.pos my)) as [q r]. destruct Hdm as [Hqr Hr].
  assert (Hps : (0 < 2 ^ s)%Z) by (apply Z.pow_pos_nonneg; lia).
  assert (Hq : (0 <= q)%Z) by nia.
  apply binary_round_aux_carries.
  - replace (SF2R (S754_finite false mx ex) / SF2R (S754_finite false my ey))
      with ((IZR q + IZR r / IZR (Z.pos my)) * bpow e').
    + apply new_location_located; assumption.
    + simpl SF2R.
      assert (Hmy : 0 < IZR (Z.pos my)) by (apply IZR_lt; lia).
      pose proof (bpow_gt_0 ey). pose proof (bpow_gt_0 e').
      replace ex with (s + e' + ey)%Z by lia.
      rewrite !bpow_add, (bpow_IZR s) by lia.
      apply (f_equal IZR) in Hqr, Em'. rewrite Em' in Hqr.
      rewrite plus_IZR, !mult_IZR in Hqr.
      transitivity (IZR (Z.pos mx) * IZR (2 ^ s) * bpow e' / IZR (Z.pos my));
        [rewrite Hqr; field; lra | field; lra].
  - rewrite fexp_eq.
    destruct (Z_le_gt_dec e' (-1074)) as [|Hgt]; [lia|].
    assert (Hsl : (53 - d1 + d2 <= s)%Z) by lia.
    assert (H52 : (2 ^ 52 <= q)%Z).
    { destruct (Z_le_gt_dec (2 ^ 52) q) as [|Hlt]; [assumption|exfalso].
      assert (Hm'l : (2 ^ (52 + d2) <= m')%Z).
      { rewrite Em'.
        apply Z.le_trans with (2 ^ (d1 - 1) * 2 ^ s)%Z.
        - rewrite <- Z.pow_add_r by lia. apply Z.pow_le_mono_r; lia.
        - apply Z.mul_le_mono_nonneg_r; lia. }
      rewrite Z.pow_add_r in Hm'l by lia.
      assert (m' < 2 ^ 52 * Z.pos my)%Z by nia.
      assert (2 ^ 52 * Z.pos my < 2 ^ 52 * 2 ^ d2)%Z by (apply Z.mul_lt_mono_pos_l; lia).
      lia. }
    pose proof (Zdigits2_bounds q ltac:(lia)) as [_ Hdq].
    assert (Hd53 : (53 <= Zdigits2 q)%Z).
    { destruct (Z_le_gt_dec 53 (Zdigits2 q)) as [|Hlt]; [assumption|exfalso].
      assert (2 ^ Zdigits2 q <= 2 ^ 52)%Z by (apply Z.pow_le_mono_r; [lia|lia]).
      lia. }
    lia.
Qed.

(** *** Alignment and plain rounding *)

Lemma bpow_split e e' :
  (e' <= e)%Z -> bpow e = IZR (2 ^ (e - e')) * bpow e'.
Proof.
  intros H. rewrite <- bpow_IZR, <- bpow_add by lia. f_equal. lia.
Qed.

Lemma iter_xO_value m d : Zpos (Pos.iter xO m d) = (Zpos m * 2 ^ Zpos d)%Z.
Proof.
  change (Pos.iter xO m d) with (shift_pos d m).
  rewrite shift_pos_correct. change (Zpower_pos 2 d) with (2 ^ Zpos d)%Z. lia.
Qed.

Lemma shl_align_down m e e' :
  (e' <= e)%Z ->
  Zpos (fst (shl_align m e e')) = (Zpos m * 2 ^ (e - e'))%Z
  /\ snd (shl_align m e e') = e'.
Proof.
  intros H. unfold shl_align.
  destruct (e' - e)%Z as [|d|d] eqn:E; simpl fst; simpl snd.
  - replace (e - e')%Z with 0%Z by lia. split; lia.
  - lia.
  - rewrite iter_xO_value. replace (e - e')%Z with (Zpos d) by lia. split; lia.
Qed.

Lemma shl_align_up m e e' :
  (e <= e')%Z -> shl_align m e e' = (m, e).
Proof.
  intros H. unfold shl_align. destruct (e' - e)%Z as [|d|d] eqn:E; try reflexivity. lia.
Qed.

(** [binary_round] rounds the exact value [m 2^e] to nearest. *)
Lemma binary_round_carries s m e :
  exists v,
    nearest (IZR (Zpos m) * bpow e) v
    /\ carries (binary_round prec emax s m e) s v.
Proof.
  unfold binary_round.
  set (t := SpecFloat.fexp prec emax (Zpos (digits2_pos m) + e)).
  destruct (Z_le_gt_dec e t) as [Hle|Hgt].
  - rewrite shl_align_up by assumption.
    apply binary_round_aux_carries; [|exact Hle].
    split; [simpl; lia | reflexivity].
  - destruct (shl_align_down m e t ltac:(lia)) as [Hm He].
    destruct (shl_align m e t) as [mz ez]. simpl fst in *; simpl snd in *. subst ez.
    assert (Hp : (0 < 2 ^ (e - t))%Z) by (apply Z.pow_pos_nonneg; lia).
    apply binary_round_aux_carries.
    + split; [simpl; lia|]. simpl. rewrite Hm, mult_IZR.
      rewrite (bpow_split e t) by lia. ring.
    + assert (Hd : Zdigits2 (Zpos mz) = (Zpos (digits2_pos m) + (e - t))%Z).
      { pose proof (digits2_bounds m) as [Hl Hu].
        apply Zdigits2_unique; [|lia]. rewrite Hm.
        replace (Z.pos (digits2_pos m) + (e - t) - 1)%Z
          with ((Z.pos (digits2_pos m) - 1) + (e - t))%Z by lia.
        rewrite !Z.pow_add_r by lia. split.
        - apply Z.mul_le_mono_nonneg_r; lia.
        - apply Z.mul_lt_mono_pos_r; lia. }
      rewrite Hd. replace (Z.pos (digits2_pos m) + (e - t) + t)%Z
        with (Z.pos (digits2_pos m) + e)%Z by lia.
      subst t. lia.
Qed.

Lemma binary_normalize_carries (M e : Z) :
  (0 <= M)%Z ->
  exists v,
    nearest (IZR M * bpow e) v
    /\ carries (binary_normalize prec emax M e false) false v.
Proof.
  intros HM. destruct M as [|p|p]; [|apply binary_round_carries|lia].
  exists 0. split; [|left; split; reflexivity].
  split; [lra|]. intros y _. simpl. rewrite Rmult_0_l.
  replace (0 - 0) with 0 by ring. rewrite Rabs_R0. apply Rabs_pos.
Qed.

(** *** Addition and subtraction of positive numbers *)

Lemma aligned_value m e e' :
  (e' <= e)%Z ->
  IZR (Zpos (fst (shl_align m e e'))) * bpow e' = IZR (Zpos m) * bpow e.
Proof.
  intros H. destruct (shl_align_down m e e' H) as [Hm _]. rewrite Hm, mult_IZR.
  rewrite (bpow_split e e') by lia. ring.
Qed.

(** Sums and differences of positive floats are rounded to nearest. *)
Lemma SFadd_finite mx ex my ey :
  exists v,
    nearest (SF2R (S754_finite false mx ex) + SF2R (S754_finite false my ey)) v
    /\ carries (SF64add (S754_finite false mx ex) (S754_finite false my ey)) false v.
Proof.
  unfold SF64add, SFadd, cond_Zopp.
  set (ez := Z.min ex ey).
  pose proof (aligned_value mx ex ez ltac:(lia)) as Hx.
  pose proof (aligned_value my ey ez ltac:(lia)) as Hy.
  set (M := (Z.pos (fst (shl_align mx ex ez)) + Z.pos (fst (shl_align my ey ez)))%Z).
  replace (SF2R (S754_finite false mx ex) + SF2R (S754_finite false my ey))
    with (IZR M * bpow ez).
  - apply binary_normalize_carries. lia.
  - subst M. rewrite plus_IZR. simpl SF2R. rewrite <- Hx, <- Hy. ring.
Qed.

Lemma SFsub_finite mx ex my ey :
  SF2R (S754_finite false my ey) <= SF2R (S754_finite false mx ex) ->
  exists v,
    nearest (SF2R (S754_finite false mx ex) - SF2R (S754_finite false my ey)) v
    /\ carries (SF64sub (S754_finite false mx ex) (S754_finite false my ey)) false v.
Proof.
  intros Hle. unfold SF64sub, SFsub, cond_Zopp.
  set (ez := Z.min ex ey).
  pose proof (aligned_value mx ex ez ltac:(lia)) as Hx.
  pose proof (aligned_value my ey ez ltac:(lia)) as Hy.
  set (M := (Z.pos (fst (shl_align mx ex ez)) - Z.pos (fst (shl_align my ey ez)))%Z).
  assert (EM : SF2R (S754_finite false mx ex) - SF2R (S754_finite false my ey)
               = IZR M * bpow ez).
  { subst M. rewrite minus_IZR. simpl SF2R. rewrite <- Hx, <- Hy. ring. }
  rewrite EM. apply binary_normalize_carries.
  pose proof (bpow_gt_0 ez) as Hb.
  assert (0 <= IZR M) by nra. now apply le_IZR.
Qed.

(** *** Small integers *)

(** Integers below 2^53 are converted exactly. *)
Lemma of_uint63_value n :
  (0 < n < 2 ^ 53)%Z ->
  exists m e,
    Prim2SF (of_uint63 (Uint63.of_Z n)) = S754_finite false m e
    /\ IZR (Zpos m) * bpow e = IZR n.
Proof.
  intros Hn. rewrite of_uint63_spec, Uint63.of_Z_spec.
  rewrite Z.mod_small by (change wB with (2 ^ 63)%Z; lia).
  destruct (binary_normalize_carries n 0 ltac:(lia)) as (v & Hv & Hc).
  assert (E0 : IZR n * bpow 0 = IZR n) by (unfold bpow; simpl; ring).
  rewrite E0 in Hv.
  assert (Ev : v = IZR n) by (apply (nearest_exact _ _ Hv), format_IZR; lia).
  assert (Hpos : 0 < IZR n) by (apply IZR_lt; lia).
  destruct Hc as [[_ Hz]|[(m & e & Hz & Hm)|[_ Hinf]]].
  - lra.
  - exists m, e. split; [exact Hz | lra].
  - exfalso. rewrite (bpow_IZR 1024) in Hinf by lia.
    assert (IZR n < IZR (2 ^ 1024)) by (apply IZR_lt; lia). lra.
Qed.

(** ** The operations on numbers *)

(** A number that compares above 0 is a positive finite float or
    +infinity. *)
Lemma positive_cases x :
  (0 <? x)%float = true ->
  (exists m e, Prim2SF x = S754_finite false m e)
  \/ Prim2SF x = S754_infinity false.
Proof.
  rewrite FloatAxioms.ltb_spec. change (Prim2SF 0) with (S754_zero false).
  destruct (Prim2SF x) as [s|s| |s m e]; try destruct s; cbn;
    try discriminate; eauto.
Qed.

Lemma valid_of_Prim2SF x m e :
  Prim2SF x = S754_finite false m e ->
  valid_binary (S754_finite false m e) = true.
Proof. intros <-. apply Prim2SF_valid. Qed.

Section Operations.

Variables a b : float.
Variables (ma : positive) (ea : Z) (mb : positive) (eb : Z).
Hypothesis Ha : Prim2SF a = S754_finite false ma ea.
Hypothesis Hb : Prim2SF b = S754_finite false mb eb.

Lemma mul_carries :
  exists v, nearest (F2R a * F2R b) v /\ carries (Prim2SF (a * b)) false v.
Proof.
  unfold F2R. rewrite FloatAxioms.mul_spec, Ha, Hb.
  apply SFmul_finite; eapply valid_of_Prim2SF; eassumption.
Qed.

Lemma div_carries :
  exists v, nearest (F2R a / F2R b) v /\ carries (Prim2SF (a / b)) false v.
Proof. unfold F2R. rewrite FloatAxioms.div_spec, Ha, Hb. apply SFdiv_finite. Qed.

Lemma add_carries :
  exists v, nearest (F2R a + F2R b) v /\ carries (Prim2SF (a + b)) false v.
Proof. unfold F2R. rewrite FloatAxioms.add_spec, Ha, Hb. apply SFadd_finite. Qed.

Lemma sub_carries :
  F2R b <= F2R a ->
  exists v, nearest (F2R a - F2R b) v /\ carries (Prim2SF (a - b)) false v.
Proof. unfold F2R. rewrite FloatAxioms.sub_spec, Ha, Hb. apply SFsub_finite. Qed.

End Operations.

Lemma F2R_finite x m e :
  Prim2SF x = S754_finite false m e -> F2R x = IZR (Zpos m) * bpow e.
Proof. unfold F2R. now intros ->. Qed.

Lemma F2R_finite_pos x m e :
  Prim2SF x = S754_finite false m e -> 0 < F2R x.
Proof. unfold F2R. intros ->. apply SF2R_pos. Qed.

Lemma F2R_format x m e :
  Prim2SF x = S754_finite false m e -> format (F2R x).
Proof.
  intros H. unfold F2R. rewrite H. apply SF2R_format.
  eapply valid_of_Prim2SF; eassumption.
Qed.

Lemma F2R_lt_overflow x m e :
  Prim2SF x = S754_finite false m e -> F2R x < bpow 1024.
Proof.
  intros H. rewrite (F2R_finite _ _ _ H).
  destruct (valid_finite _ _ (valid_of_Prim2SF _ _ _ H)) as (_ & He & Hm & _).
  replace 1024%Z with (53 + 971)%Z by lia. rewrite bpow_add, (bpow_IZR 53) by lia.
  pose proof (bpow_le e 971 ltac:(lia)). pose proof (bpow_gt_0 e).
  assert (IZR (Z.pos m) < IZR (2 ^ 53)) by (apply IZR_lt; lia).
  assert (0 < IZR (Z.pos m)) by (apply IZR_lt; lia).
  nra.
Qed.

(** A result whose exact value is a positive number of the format below
    2^1024 is that number. *)
Lemma carries_exact z x v :
  nearest x v -> carries z false v ->
  format x -> 0 < x -> x < bpow 1024 ->
  exists m e, z = S754_finite false m e /\ IZR (Zpos m) * bpow e = x.
Proof.
  intros Hn Hc Hf H0 H1. pose proof (nearest_exact _ _ Hn Hf) as E. subst v.
  destruct Hc as [[_ Hz]|[(m & e & Hz & Hm)|[_ Hinf]]]; [lra| |lra].
  exists m, e. split; [assumption|lra].
Qed.

Lemma scaled_value M k :
  (0 <= k)%Z -> IZR (M * 2 ^ k) * bpow (- k) = IZR M.
Proof.
  intros Hk. rewrite mult_IZR, <- (bpow_IZR k) by lia.
  rewrite Rmult_assoc, <- bpow_add. replace (k + - k)%Z with 0%Z by lia.
  unfold bpow. simpl. ring.
Qed.

Lemma F2R_one : F2R 1 = 1.
Proof.
  unfold F2R. change (Prim2SF 1) with (S754_finite false (2 ^ 52) (- 52)).
  simpl SF2R. change (Z.pos (2 ^ 52)) with (1 * 2 ^ 52)%Z.
  now rewrite scaled_value.
Qed.

(** The candidate prescalers are the powers of two 2^0, 2^3, 2^6, 2^8,
    2^10. *)
Lemma prescaler_value N :
  In N prescalers ->
  exists k, (0 <= k <= 10)%Z
            /\ Prim2SF N = S754_finite false (2 ^ 52) (k - 52)
            /\ F2R N = IZR (2 ^ k).
Proof.
  intros H.
  assert (Hk : forall k, (0 <= k)%Z ->
            SF2R (S754_finite false (2 ^ 52) (k - 52)) = IZR (2 ^ k)).
  { intros k Hk. simpl SF2R. change (Z.pos (2 ^ 52)) with (1 * 2 ^ 52)%Z.
    replace (k - 52)%Z with (k + - 52)%Z by lia.
    rewrite bpow_add, <- Rmult_assoc, (Rmult_comm _ (bpow k)), Rmult_assoc.
    rewrite scaled_value by lia. rewrite bpow_IZR by lia. ring. }
  in_prescalers H; subst N;
    [exists 0%Z|exists 3%Z|exists 6%Z|exists 8%Z|exists 10%Z];
    (split; [lia|]); (split; [reflexivity|]); unfold F2R;
    match goal with |- SF2R (Prim2SF ?f) = IZR (2 ^ ?k) =>
      change (Prim2SF f) with (S754_finite false (2 ^ 52) (k - 52)) end;
    apply Hk; lia.
Qed.

(** ** [Math.round] on a positive finite number *)

(** On a positive finite [x], [Math.round] gives the integer [n] with
    n <= x + 1/2 < n + 1, or [x] itself from 2^52 on. *)
Lemma Math_round_finite x m e :
  Prim2SF x = S754_finite false m e ->
  ((0 <= e)%Z /\ JS.Math_round x = x)
  \/ ((e < 0)%Z
      /\ exists n, (0 <= n < 2 ^ 53)%Z
                   /\ IZR n <= F2R x + / 2 < IZR n + 1
                   /\ JS.Math_round x
                      = if (n =? 0)%Z then zero else JS.of_Z n).
Proof.
  intros H. unfold JS.Math_round. rewrite H.
  destruct (Z.leb_spec 0 e) as [He|He]; [left; split; [assumption|reflexivity]|].
  right. split; [assumption|].
  set (P := (2 ^ (- e))%Z).
  assert (HP : (2 <= P)%Z).
  { subst P. replace (- e)%Z with (1 + (- e - 1))%Z by lia.
    rewrite Z.pow_add_r by lia.
    assert (0 < 2 ^ (- e - 1))%Z by (apply Z.pow_pos_nonneg; lia). lia. }
  assert (E2P : (2 ^ (1 - e) = 2 * P)%Z).
  { subst P. replace (1 - e)%Z with (1 + - e)%Z by lia.
    rewrite Z.pow_add_r by lia. reflexivity. }
  rewrite E2P. change (Z.pos m~0) with (2 * Z.pos m)%Z.
  assert (EP : IZR P = bpow (- e)) by (subst P; now rewrite bpow_IZR by lia).
  clearbody P.
  pose proof (Z_div_mod_eq_full (2 * Z.pos m + P) (2 * P)) as Hdiv.
  pose proof (Z.mod_pos_bound (2 * Z.pos m + P) (2 * P) ltac:(lia)) as Hmod.
  set (n := ((2 * Z.pos m + P) / (2 * P))%Z) in *. clearbody n.
  set (r := ((2 * Z.pos m + P) mod (2 * P))%Z) in *. clearbody r.
  destruct (valid_finite _ _ (valid_of_Prim2SF _ _ _ H)) as (_ & _ & Hm & _).
  exists n. split; [|split; [|reflexivity]].
  - split; nia.
  - rewrite (F2R_finite _ _ _ H).
    assert (Eb : bpow e = / IZR P).
    { rewrite EP. replace e with (- - e)%Z at 1 by lia.
      unfold bpow. now rewrite powerRZ_neg'. }
    rewrite Eb.
    assert (HPr : 2 <= IZR P) by (apply IZR_le; lia).
    assert (Hl : IZR (2 * P * n) <= IZR (2 * Z.pos m + P)) by (apply IZR_le; nia).
    assert (Hu : IZR (2 * Z.pos m + P) < IZR (2 * P * (n + 1))) by (apply IZR_lt; nia).
    rewrite ?plus_IZR, ?mult_IZR in Hl. rewrite !mult_IZR, !plus_IZR, !mult_IZR in Hu.
    assert (Hq : IZR (Z.pos m) * / IZR P * IZR P = IZR (Z.pos m)) by (field; lra).
    set (q := IZR (Z.pos m) * / IZR P) in *.
    split.
    + apply Rmult_le_reg_l with (IZR P); [lra|]. nra.
    + apply Rmult_lt_reg_l with (IZR P); [lra|]. nra.
Qed.

Lemma of_Z_value n :
  (0 < n < 2 ^ 53)%Z ->
  exists m e, Prim2SF (JS.of_Z n) = S754_finite false m e
              /\ F2R (JS.of_Z n) = IZR n.
Proof.
  intros Hn. destruct n as [|p|p]; try lia. unfold JS.of_Z.
  destruct (of_uint63_value (Z.pos p) Hn) as (m & e & H1 & H2).
  exists m, e. split; [assumption|]. now rewrite (F2R_finite _ _ _ H1).
Qed.

(** ** What the guard of the loop says about TOP *)

(** A TOP that passes the guard is a positive finite number, at most
    65535. *)
Lemma guard_finite c t tm N :
  usable c t tm N = true ->
  exists m e, Prim2SF (topOf c t N) = S754_finite false m e
              /\ F2R (topOf c t N) <= 65535.
Proof.
  unfold usable. intros H. apply andb_prop in H. destruct H as [H0 H1].
  assert (Hmax : exists mM eM, Prim2SF (maxTop tm) = S754_finite false mM eM
                               /\ F2R (maxTop tm) <= 65535).
  { unfold maxTop, is16Bit. destruct (tm =? 1)%float.
    - exists (65535 * 2 ^ 37)%positive, (- 37)%Z. split; [reflexivity|].
      unfold F2R. change (Prim2SF 65535) with (S754_finite false (65535 * 2 ^ 37) (- 37)).
      unfold SF2R. change (Z.pos (65535 * 2 ^ 37)) with (65535 * 2 ^ 37)%Z.
      pose proof (scaled_value 65535 37 ltac:(lia)) as E.
      change (- (37))%Z with (-37)%Z in E. rewrite E. lra.
    - exists (255 * 2 ^ 45)%positive, (- 45)%Z. split; [reflexivity|].
      unfold F2R. change (Prim2SF 255) with (S754_finite false (255 * 2 ^ 45) (- 45)).
      unfold SF2R. change (Z.pos (255 * 2 ^ 45)) with (255 * 2 ^ 45)%Z.
      pose proof (scaled_value 255 45 ltac:(lia)) as E.
      change (- (45))%Z with (-45)%Z in E. rewrite E. lra. }
  destruct Hmax as (mM & eM & HM & HMv).
  rewrite FloatAxioms.leb_spec, HM in H1.
  destruct (positive_cases _ H0) as [(m & e & Ht)|Ht]; rewrite Ht in H1.
  - exists m, e. split; [assumption|].
    apply Rle_trans with (F2R (maxTop tm)); [|assumption].
    unfold F2R. rewrite Ht, HM. apply SFleb_finite; try assumption.
    + eapply valid_of_Prim2SF; eassumption.
    + eapply valid_of_Prim2SF; eassumption.
  - discriminate.
Qed.

(** ** The quantisation error, on real numbers *)

Lemma format_half_above n :
  (0 <= n <= 65536)%Z -> format (IZR n + / 2).
Proof.
  intros Hn. exists (2 * n + 1)%Z, (-1)%Z. repeat split; try lia.
  rewrite plus_IZR, mult_IZR. unfold bpow. simpl. field.
Qed.

Lemma format_half_below n :
  (1 <= n <= 65536)%Z -> format (IZR n - / 2 - bpow (-37)).
Proof.
  intros Hn. exists ((2 * n - 1) * 2 ^ 36 - 1)%Z, (-37)%Z. repeat split; try lia.
  rewrite minus_IZR, mult_IZR, minus_IZR, mult_IZR.
  pose proof (scaled_value 1 36 ltac:(lia)) as E36.
  rewrite Z.mul_1_l in E36. change (- (36))%Z with (-36)%Z in E36.
  assert (E : bpow (-36) = 2 * bpow (-37)).
  { replace (-36)%Z with (-37 + 1)%Z by lia. now rewrite bpow_succ. }
  rewrite E in E36. pose proof (bpow_gt_0 (-37)).
  set (b := bpow (-37)) in *. set (p := IZR (2 ^ 36)) in *.
  replace (((2 * IZR n - 1) * p - 1) * b)
    with ((2 * IZR n - 1) * (p * b) - b) by ring.
  replace (p * b) with (/ 2) by lra. field.
Qed.

(** With [x] the exact quotient clock / (K target), [xf] its rounding,
    [n] the integer nearest [xf], [a] the exact frequency clock / (K n)
    and [va] its rounding, the relative distance of [va] to the target is
    at most 1 / (n - 1). *)
Lemma relative_error_bound (vc vt K x xf a va : R) (n : Z) :
  0 < vc -> 0 < vt -> 1 <= K -> (2 <= n <= 65536)%Z ->
  x = vc / (K * vt) ->
  nearest x xf ->
  IZR n <= xf + / 2 < IZR n + 1 ->
  a = vc / (K * IZR n) ->
  nearest a va ->
  format vt ->
  Rabs (va - vt) / vt <= 1 / (IZR n - 1).
Proof.
  intros Hc Ht HK Hn Ex Hxf Hround Ea Hva Hfmt.
  assert (Hn2 : 2 <= IZR n) by (apply IZR_le; lia).
  assert (Hn16 : IZR n <= 65536) by (apply IZR_le; lia).
  pose proof (bpow_gt_0 (-37)) as He. set (eps := bpow (-37)) in *.
  assert (Heps : eps * 137438953472 = 1).
  { pose proof (scaled_value 1 37 ltac:(lia)) as E.
    rewrite Z.mul_1_l in E. change (- (37))%Z with (-37)%Z in E.
    fold eps in E. change (2 ^ 37)%Z with 137438953472%Z in E. lra. }
  assert (Hx1 : x < IZR n + / 2).
  { destruct (Rlt_le_dec x (IZR n + / 2)) as [|Hge]; [assumption|exfalso].
    pose proof (nearest_ge _ _ _ Hxf (format_half_above n ltac:(lia)) Hge). lra. }
  assert (Hx2 : IZR n - / 2 - eps < x).
  { destruct (Rlt_le_dec (IZR n - / 2 - eps) x) as [|Hle]; [assumption|exfalso].
    pose proof (nearest_le _ _ _ Hxf (format_half_below n ltac:(lia)) Hle).
    fold eps in H. lra. }
  set (u := x - IZR n).
  assert (Hu : - / 2 - eps < u < / 2) by (unfold u; lra).
  assert (Ead : a - vt = vt * u / IZR n).
  { rewrite Ea. unfold u. rewrite Ex. field. lra. }
  destruct Hva as [_ Hva]. specialize (Hva vt Hfmt).
  assert (Hd : Rabs (a - vt) <= vt * (/ 2 + eps) / IZR n).
  { rewrite Ead. unfold Rdiv. rewrite Rmult_assoc.
    rewrite Rabs_mult, (Rabs_pos_eq vt) by lra.
    rewrite Rmult_assoc. apply Rmult_le_compat_l; [lra|].
    rewrite Rabs_mult, (Rabs_pos_eq (/ IZR n))
      by (left; apply Rinv_0_lt_compat; lra).
    apply Rmult_le_compat_r; [left; apply Rinv_0_lt_compat; lra|].
    unfold Rabs. destruct Rcase_abs; lra. }
  assert (Hv : Rabs (va - vt) <= 2 * Rabs (a - vt)).
  { replace (vt - a) with (- (a - vt)) in Hva by ring. rewrite Rabs_Ropp in Hva.
    replace (va - vt) with ((va - a) + (a - vt)) by ring.
    pose proof (Rabs_triang (va - a) (a - vt)). lra. }
  apply Rmult_le_reg_r with vt; [assumption|].
  replace (Rabs (va - vt) / vt * vt) with (Rabs (va - vt)) by (field; lra).
  apply Rle_trans with (2 * (vt * (/ 2 + eps) / IZR n)); [lra|].
  replace (2 * (vt * (/ 2 + eps) / IZR n)) with ((1 + 2 * eps) / IZR n * vt)
    by (field; lra).
  apply Rmult_le_compat_r; [lra|].
  apply Rmult_le_reg_r with (IZR n * (IZR n - 1)); [nra|].
  replace ((1 + 2 * eps) / IZR n * (IZR n * (IZR n - 1)))
    with ((1 + 2 * eps) * (IZR n - 1)) by (field; lra).
  replace (1 / (IZR n - 1) * (IZR n * (IZR n - 1))) with (IZR n) by (field; lra).
  nra.
Qed.

Lemma carries_F2R f v :
  carries (Prim2SF f) false v -> v < bpow 1024 -> F2R f = v.
Proof.
  unfold F2R. intros [[-> ->]|[(m & e & -> & ->)|[_ H]]] Hv;
    [reflexivity | reflexivity | lra].
Qed.

Lemma carries_finite f m e v :
  carries (Prim2SF f) false v ->
  Prim2SF f = S754_finite false m e -> F2R f = v.
Proof.
  unfold F2R. intros [[E _]|[(m' & e' & E & ->)|[E _]]] H; rewrite H in E;
    try discriminate.
  injection E as -> ->. now rewrite H.
Qed.

(** The quotient [clockFreq / (N * targetFreq)] of positive inputs. *)
Lemma quotient_cases c t N :
  (0 <? c)%float = true -> (0 <? t)%float = true -> In N prescalers ->
  Prim2SF (c / (N * t)) = S754_zero false
  \/ Prim2SF (c / (N * t)) = S754_nan
  \/ Prim2SF (c / (N * t)) = S754_infinity false
  \/ (exists mc ec mt et m e,
        Prim2SF c = S754_finite false mc ec
        /\ Prim2SF t = S754_finite false mt et
        /\ Prim2SF (c / (N * t)) = S754_finite false m e
        /\ nearest (F2R c / (F2R N * F2R t)) (F2R (c / (N * t)))).
Proof.
  intros Hc Ht HN.
  destruct (prescaler_value N HN) as (k & Hk & HNs & HNv).
  assert (Hdenom : Prim2SF (N * t) = S754_infinity false
                   \/ exists m e, Prim2SF (N * t) = S754_finite false m e
                                  /\ Prim2SF t <> S754_infinity false
                                  /\ F2R (N * t) = F2R N * F2R t).
  { destruct (positive_cases _ Ht) as [(mt & et & Hts)|Hts].
    - destruct (mul_carries N t _ _ _ _ HNs Hts) as (v & Hv & Hcv).
      assert (Hf : format (F2R N * F2R t)).
      { rewrite HNv, (F2R_finite _ _ _ Hts).
        destruct (valid_finite _ _ (valid_of_Prim2SF _ _ _ Hts)) as (_ & He & Hm & _).
        exists (Z.pos mt), (et + k)%Z. repeat split; try lia.
        rewrite bpow_add, (bpow_IZR k) by lia. ring. }
      pose proof (nearest_exact _ _ Hv Hf) as Ev.
      assert (Hpos : 0 < F2R N * F2R t).
      { apply Rmult_lt_0_compat; eapply F2R_finite_pos; eassumption. }
      destruct Hcv as [[_ Hz]|[(m & e & Hz & Hm)|[Hz _]]]; [lra| |now left].
      right. exists m, e. split; [assumption|]. split; [congruence|].
      rewrite (F2R_finite _ _ _ Hz). lra.
    - left. rewrite FloatAxioms.mul_spec, HNs, Hts. reflexivity. }
  destruct Hdenom as [Hd|(md & ed & Hd & Htf & Hdv)].
  - destruct (positive_cases _ Hc) as [(mc & ec & Hcs)|Hcs].
    + left. rewrite FloatAxioms.div_spec, Hcs, Hd. reflexivity.
    + right; left. rewrite FloatAxioms.div_spec, Hcs, Hd. reflexivity.
  - destruct (positive_cases _ Hc) as [(mc & ec & Hcs)|Hcs].
    + destruct (div_carries c (N * t) _ _ _ _ Hcs Hd) as (v & Hv & Hcv).
      rewrite Hdv in Hv.
      destruct (positive_cases _ Ht) as [(mt & et & Hts)|Hts]; [|contradiction].
      destruct Hcv as [[Hz _]|[(m & e & Hz & Hm)|[Hz _]]].
      * now left.
      * do 3 right. exists mc, ec, mt, et, m, e.
        split; [assumption|]. split; [assumption|]. split; [assumption|].
        rewrite (F2R_finite _ _ _ Hz), <- Hm. exact Hv.
      * right; right; now left.
    + right; right; left. rewrite FloatAxioms.div_spec, Hcs, Hd. reflexivity.
Qed.

(** A quotient that is zero, NaN or infinite never passes the guard. *)
Lemma special_top x :
  Prim2SF x = S754_zero false \/ Prim2SF x = S754_nan
  \/ Prim2SF x = S754_infinity false ->
  forall m e, Prim2SF (JS.Math_round x - 1) <> S754_finite false m e.
Proof.
  intros H m e. unfold JS.Math_round.
  destruct H as [H|[H|H]]; rewrite H, FloatAxioms.sub_spec, H;
    change (Prim2SF 1) with (S754_finite false (2 ^ 52) (- 52)); discriminate.
Qed.

(** On a usable candidate, TOP + 1 is the integer nearest to the rounded
    quotient, and TOP holds it exactly. *)
Lemma usable_top c t tm N :
  (0 <? c)%float = true -> (0 <? t)%float = true -> In N prescalers ->
  usable c t tm N = true ->
  exists (n : Z) mc ec mt et mx ex mtop etop,
    (2 <= n <= 65536)%Z
    /\ Prim2SF c = S754_finite false mc ec
    /\ Prim2SF t = S754_finite false mt et
    /\ Prim2SF (c / (N * t)) = S754_finite false mx ex
    /\ nearest (F2R c / (F2R N * F2R t)) (F2R (c / (N * t)))
    /\ IZR n <= F2R (c / (N * t)) + / 2 < IZR n + 1
    /\ Prim2SF (topOf c t N) = S754_finite false mtop etop
    /\ F2R (topOf c t N) = IZR n - 1.
Proof.
  intros Hc Ht HN Hu.
  destruct (guard_finite _ _ _ _ Hu) as (mtop & etop & Htop & Hmax).
  pose proof (F2R_finite_pos _ _ _ Htop) as Htop0.
  unfold topOf in *.
  destruct (quotient_cases c t N Hc Ht HN)
    as [H|[H|[H|(mc & ec & mt & et & mx & ex & Hcs & Hts & Hx & Hnear)]]];
    try (exfalso; apply (special_top (c / (N * t)) ltac:(tauto) mtop etop);
         exact Htop).
  assert (H1 : Prim2SF 1 = S754_finite false (2 ^ 52) (- 52)) by reflexivity.
  destruct (Math_round_finite _ _ _ Hx) as [[He Hr]|(He & n & Hn & Hnx & Hr)].
  - (* the quotient is 2^52 or more: TOP cannot fit *)
    exfalso. rewrite Hr in *.
    destruct (valid_finite _ _ (valid_of_Prim2SF _ _ _ Hx)) as (_ & _ & _ & Hm).
    specialize (Hm ltac:(lia)).
    assert (Hbig : IZR (2 ^ 52) <= F2R (c / (N * t))).
    { rewrite (F2R_finite _ _ _ Hx). pose proof (bpow_ge_1 ex He).
      assert (IZR (2 ^ 52) <= IZR (Z.pos mx)) by now apply IZR_le.
      assert (0 < IZR (2 ^ 52)) by (apply IZR_lt; lia). nra. }
    assert (IZR (2 ^ 52) = 4503599627370496) by (simpl; lra).
    destruct (sub_carries _ 1 _ _ _ _ Hx H1) as (v & Hv & Hcv).
    { rewrite F2R_one. lra. }
    rewrite (carries_finite _ _ _ _ Hcv Htop) in Hmax.
    assert (Hfmt : format 65536) by (apply (format_IZR 65536); lia).
    pose proof (nearest_ge _ _ _ Hv Hfmt) as Hge. rewrite F2R_one in Hge.
    specialize (Hge ltac:(lra)). lra.
  - rewrite Hr in *. destruct (Z.eqb_spec n 0) as [E0|E0].
    + exfalso. rewrite FloatAxioms.sub_spec, H1 in Htop.
      change (Prim2SF zero) with (S754_zero false) in Htop. discriminate Htop.
    + destruct (of_Z_value n ltac:(lia)) as (mr & er & Hrs & Hrv).
      assert (Hn1 : 1 <= IZR n) by (apply IZR_le; lia).
      destruct (sub_carries _ 1 _ _ _ _ Hrs H1) as (v & Hv & Hcv).
      { rewrite F2R_one, Hrv. lra. }
      rewrite F2R_one, Hrv in Hv.
      pose proof (carries_finite _ _ _ _ Hcv Htop) as Etop.
      assert (Hfmt : format (IZR n - 1)).
      { rewrite <- minus_IZR. apply format_IZR. lia. }
      pose proof (nearest_exact _ _ Hv Hfmt) as Ev.
      rewrite Ev in Etop. rewrite Etop in Htop0, Hmax.
      assert (Hn2 : (2 <= n <= 65536)%Z).
      { split.
        - assert (H : IZR 1 < IZR n) by lra. apply lt_IZR in H. lia.
        - assert (H : IZR n <= IZR 65536) by lra. apply le_IZR in H. lia. }
      exists n, mc, ec, mt, et, mx, ex, mtop, etop.
      repeat (split; [first [assumption | lia | lra]|]). assumption.
Qed.

Lemma finite_number_intro x m e :
  Prim2SF x = S754_finite false m e -> finite_number x = true.
Proof. unfold finite_number. now intros ->. Qed.

Lemma carries_finite_number f v :
  carries (Prim2SF f) false v -> v < bpow 1024 -> finite_number f = true.
Proof.
  unfold finite_number. intros [[-> _]|[(m & e & -> & _)|[_ H]]] Hv;
    [reflexivity | reflexivity | lra].
Qed.

(** C9: on a successful calculation with positive clock and target
    frequencies, the target, TOP and the achieved frequency are finite, and
    |actualFrequency - targetFrequency| / targetFrequency <= 1 / TOP, the
    three read as the real numbers they stand for. *)
Theorem C9_relative_frequency_error (c t d tm : float) :
  error (calculation c t d tm) = None ->
  (0 <? c)%float = true ->
  (0 <? t)%float = true ->
  finite_number t = true
  /\ finite_number (top (calculation c t d tm)) = true
  /\ finite_number (actualFrequency (calculation c t d tm)) = true
  /\ Rabs (F2R (actualFrequency (calculation c t d tm)) - F2R t) / F2R t
     <= 1 / F2R (top (calculation c t d tm)).
Proof.
  intros Herr Hc Ht.
  destruct (calculation_cases c t d tm)
    as [(bf & N & af & Hp & _ & Hu & ->) | (_ & E)];
    [|rewrite E in Herr; discriminate].
  assert (HN : In N prescalers).
  { rewrite Hp. apply in_or_app. right. now left. }
  change (top (resultOf c t d tm N)) with (topOf c t N).
  change (actualFrequency (resultOf c t d tm N))
    with (c / (N * (1 + topOf c t N)))%float.
  destruct (usable_top c t tm N Hc Ht HN Hu)
    as (n & mc & ec & mt & et & mx & ex & mtop & etop
        & Hn & Hcs & Hts & Hxs & Hnear & Hround & Htop & Htopv).
  destruct (prescaler_value N HN) as (k & Hk & HNs & HNv).
  assert (H1 : Prim2SF 1 = S754_finite false (2 ^ 52) (- 52)) by reflexivity.
  assert (Hn2 : 2 <= IZR n <= 65536) by (split; apply IZR_le; lia).
  assert (HK : 1 <= IZR (2 ^ k) <= 1024).
  { split; apply IZR_le.
    - pose proof (Z.pow_pos_nonneg 2 k). lia.
    - change 1024%Z with (2 ^ 10)%Z. apply Z.pow_le_mono_r; lia. }
  (* 1 + top *)
  destruct (add_carries 1 (topOf c t N) _ _ _ _ H1 Htop) as (v1 & Hv1 & Hc1).
  rewrite F2R_one, Htopv in Hv1.
  replace (1 + (IZR n - 1)) with (IZR n) in Hv1 by ring.
  destruct (carries_exact _ _ _ Hv1 Hc1) as (m1 & e1 & Hs1 & Hval1).
  { apply format_IZR. lia. }
  { lra. }
  { rewrite (bpow_IZR 1024) by lia. apply IZR_lt.
    assert (2 ^ 53 < 2 ^ 1024)%Z by (apply Z.pow_lt_mono_r; lia). lia. }
  (* N * (1 + top) *)
  destruct (mul_carries N (1 + topOf c t N) _ _ _ _ HNs Hs1) as (v2 & Hv2 & Hc2).
  rewrite HNv, (F2R_finite _ _ _ Hs1), Hval1, <- mult_IZR in Hv2.
  assert (Hprod : (0 < 2 ^ k * n < 2 ^ 53)%Z).
  { assert (0 < 2 ^ k <= 2 ^ 10)%Z
      by (split; [apply Z.pow_pos_nonneg; lia | apply Z.pow_le_mono_r; lia]).
    change (2 ^ 10)%Z with 1024%Z in *. change (2 ^ 53)%Z with 9007199254740992%Z.
    nia. }
  destruct (carries_exact _ _ _ Hv2 Hc2) as (m2 & e2 & Hs2 & Hval2).
  { apply format_IZR. lia. }
  { apply IZR_lt. lia. }
  { rewrite (bpow_IZR 1024) by lia. apply IZR_lt.
    assert (2 ^ 53 < 2 ^ 1024)%Z by (apply Z.pow_lt_mono_r; lia). lia. }
  (* the achieved frequency *)
  destruct (div_carries c (N * (1 + topOf c t N)) _ _ _ _ Hcs Hs2)
    as (va & Hva & Hca).
  rewrite (F2R_finite _ _ _ Hs2), Hval2, mult_IZR in Hva.
  pose proof (F2R_finite_pos _ _ _ Hcs) as Hc0.
  pose proof (F2R_finite_pos _ _ _ Hts) as Ht0.
  assert (Ha_le : F2R c / (IZR (2 ^ k) * IZR n) <= F2R c).
  { assert (HKn : 1 <= IZR (2 ^ k) * IZR n) by nra.
    apply Rmult_le_reg_r with (IZR (2 ^ k) * IZR n); [lra|].
    replace (F2R c / (IZR (2 ^ k) * IZR n) * (IZR (2 ^ k) * IZR n))
      with (F2R c) by (field; lra).
    rewrite <- (Rmult_1_r (F2R c)) at 1.
    apply Rmult_le_compat_l; lra. }
  pose proof (nearest_le _ _ _ Hva (F2R_format _ _ _ Hcs) Ha_le) as Hva_le.
  pose proof (F2R_lt_overflow _ _ _ Hcs) as Hc_fin.
  split; [eapply finite_number_intro; eassumption|].
  split; [eapply finite_number_intro; eassumption|].
  split; [apply (carries_finite_number _ _ Hca); lra|].
  rewrite (carries_F2R _ _ Hca ltac:(lra)), Htopv.
  apply (relative_error_bound (F2R c) (F2R t) (IZR (2 ^ k))
           (F2R c / (IZR (2 ^ k) * F2R t)) (F2R (c / (N * t)))
           (F2R c / (IZR (2 ^ k) * IZR n)) va n); try assumption; try reflexivity;
    try lra; try lia.
  - now rewrite <- HNv.
  - eapply F2R_format; eassumption.
Qed.

End Rounding.

Lemma C9_relative_frequency_error_witness :
  finite_number 500 = true
  /\ finite_number (top (calculation 20000000 500 75 2)) = true
  /\ finite_number (actualFrequency (calculation 20000000 500 75 2)) = true
  /\ (Rabs (F2R (actualFrequency (calculation 20000000 500 75 2)) - F2R 500)
      / F2R 500
      <= 1 / F2R (top (calculation 20000000 500 75 2)))%R.
Proof.
  apply (C9_relative_frequency_error 20000000 500 75 2); reflexivity.
Defined.

(** * Further properties of the solver *)

(** ** The register table *)

Lemma registers_names (tm N tp oc : float) :
  map name (registersOf tm N tp oc)
  = if tm =? 1 then ["TCCR1A"; "TCCR1B"; "ICR1"; "OCR1A"]
    else ["TCCR" ++ dec tm ++ "A"; "TCCR" ++ dec tm ++ "B";
          "OCR" ++ dec tm ++ "A"; "OCR" ++ dec tm ++ "B"].
Proof. unfold registersOf. destruct (tm =? 1); reflexivity. Qed.

(** X12: a successful calculation names its four registers TCCR1A,
    TCCR1B, ICR1, OCR1A on Timer 1, and TCCRnA, TCCRnB, OCRnA, OCRnB on
    Timer n = 0 or 2, in this order. *)
Theorem registers_of_each_timer (c t d : float) :
  (error (calculation c t d 1) = None ->
   map name (registers (calculation c t d 1))
   = ["TCCR1A"; "TCCR1B"; "ICR1"; "OCR1A"])
  /\ (error (calculation c t d 0) = None ->
      map name (registers (calculation c t d 0))
      = ["TCCR0A"; "TCCR0B"; "OCR0A"; "OCR0B"])
  /\ (error (calculation c t d 2) = None ->
      map name (registers (calculation c t d 2))
      = ["TCCR2A"; "TCCR2B"; "OCR2A"; "OCR2B"]).
Proof.
  repeat split; intros H; destruct (success_prescaler _ _ _ _ H) as [_ ->];
    change (registers (resultOf ?c ?t ?d ?tm ?N))
      with (registersOf tm N (topOf c t N) (ocrOf c t d N));
    rewrite registers_names; reflexivity.
Qed.

Lemma registers_of_each_timer_witness :
  map name (registers (calculation 16000000 1000 50 1))
  = ["TCCR1A"; "TCCR1B"; "ICR1"; "OCR1A"]
  /\ map name (registers (calculation 16000000 1000 50 0))
     = ["TCCR0A"; "TCCR0B"; "OCR0A"; "OCR0B"]
  /\ map name (registers (calculation 16000000 1000 50 2))
     = ["TCCR2A"; "TCCR2B"; "OCR2A"; "OCR2B"].
Proof.
  destruct (registers_of_each_timer 16000000 1000 50) as (H1 & H0 & H2).
  split; [|split]; [apply H1|apply H0|apply H2]; reflexivity.
Defined.

Lemma controlRegisterB_16bit (c t d tm N : float) :
  (tm =? 1) = true ->
  controlRegisterB (resultOf c t d tm N)
  = Some ("0x1" ++ JS.Number_toString 16 (JS.parseInt2 (csBits1 N))).
Proof.
  intros H. unfold controlRegisterB, resultOf, registersOf. simpl registers.
  rewrite H. reflexivity.
Qed.

Lemma controlRegisterA_value (c t d tm N : float) :
  option_map value (nth_error (registers (resultOf c t d tm N)) 0)
  = Some (if tm =? 1 then "0x82" else "0x23").
Proof.
  unfold resultOf, registersOf. simpl registers.
  destruct (tm =? 1); [reflexivity|]. destruct (tm =? 0); reflexivity.
Qed.

Lemma controlRegisterB_description (c t d N : float) :
  option_map description (nth_error (registers (resultOf c t d 1 N)) 1)
  = Some ("WGM13=1, WGM12=1, CS=" ++ csBits1 N ++ " (Prescaler " ++ dec N ++ ")").
Proof. reflexivity. Qed.

(** X13: on Timer 1 the value written to TCCR1B is 0x11, 0x12, 0x13, 0x14
    or 0x15 for the prescaler 1, 8, 64, 256 or 1024 selected, that is the
    clock-select code 1 to 5. *)
Theorem timer1_clock_select (c t d : float) :
  error (calculation c t d 1) = None ->
  (prescaler (calculation c t d 1) = 1
   /\ controlRegisterB (calculation c t d 1) = Some "0x11"
   /\ clockSelect (calculation c t d 1) = Some 1%Z)
  \/ (prescaler (calculation c t d 1) = 8
      /\ controlRegisterB (calculation c t d 1) = Some "0x12"
      /\ clockSelect (calculation c t d 1) = Some 2%Z)
  \/ (prescaler (calculation c t d 1) = 64
      /\ controlRegisterB (calculation c t d 1) = Some "0x13"
      /\ clockSelect (calculation c t d 1) = Some 3%Z)
  \/ (prescaler (calculation c t d 1) = 256
      /\ controlRegisterB (calculation c t d 1) = Some "0x14"
      /\ clockSelect (calculation c t d 1) = Some 4%Z)
  \/ (prescaler (calculation c t d 1) = 1024
      /\ controlRegisterB (calculation c t d 1) = Some "0x15"
      /\ clockSelect (calculation c t d 1) = Some 5%Z).
Proof.
  intros H. destruct (success_prescaler _ _ _ _ H) as [Hin Hr].
  remember (prescaler (calculation c t d 1)) as N eqn:HN. clear HN.
  rewrite Hr. unfold clockSelect.
  rewrite controlRegisterB_16bit by reflexivity. clear Hr H.
  in_prescalers Hin; subst N; vm_compute; tauto.
Qed.

Lemma timer1_clock_select_witness :
  prescaler (calculation 16000000 1 50 1) = 256
  /\ controlRegisterB (calculation 16000000 1 50 1) = Some "0x14"
  /\ clockSelect (calculation 16000000 1 50 1) = Some 4%Z.
Proof.
  destruct (timer1_clock_select 16000000 1 50 eq_refl)
    as [(E & _)|[(E & _)|[(E & _)|[H|(E & _)]]]];
    [discriminate E..|exact H|discriminate E].
Defined.

Lemma registerNumber_A (c t d tm N : float) :
  registerNumber (resultOf c t d tm N) 0
  = Some (if tm =? 1 then 130%Z else 35%Z).
Proof.
  unfold registerNumber.
  pose proof (controlRegisterA_value c t d tm N) as H.
  destruct (nth_error (registers (resultOf c t d tm N)) 0) as [reg|];
    [|discriminate]. simpl in H. injection H as ->.
  destruct (tm =? 1); reflexivity.
Qed.

Lemma registerNumber_B (c t d tm N : float) :
  registerNumber (resultOf c t d tm N) 1
  = match controlRegisterB (resultOf c t d tm N) with
    | Some v => literal_value v
    | None => None
    end.
Proof.
  unfold registerNumber, controlRegisterB.
  destruct (nth_error (registers (resultOf c t d tm N)) 1); reflexivity.
Qed.

(** X14: the waveform generation mode the two control registers select.
    On Timer 1 the values written give WGM13:0 = 1010, mode 10: bit 4
    (WGM13) of TCCR1B is set and bit 3 (WGM12) is clear, while the
    description of the register starts with WGM13=1, WGM12=1.  On Timer 0
    and Timer 2 they give WGMn2:0 = 111, mode 7. *)
Theorem waveform_mode_written (c t d : float) :
  (error (calculation c t d 1) = None ->
   waveformMode (calculation c t d 1) = Some 10%Z
   /\ (exists b, registerNumber (calculation c t d 1) 1 = Some b
                 /\ Z.testbit b 4 = true /\ Z.testbit b 3 = false)
   /\ (exists rest,
         option_map description (nth_error (registers (calculation c t d 1)) 1)
         = Some ("WGM13=1, WGM12=1" ++ rest)))
  /\ (error (calculation c t d 0) = None ->
      waveformMode (calculation c t d 0) = Some 7%Z)
  /\ (error (calculation c t d 2) = None ->
      waveformMode (calculation c t d 2) = Some 7%Z).
Proof.
  split; [|split]; intros H; destruct (success_prescaler _ _ _ _ H) as [Hin Hr];
    remember (prescaler (calculation _ _ _ _)) as N eqn:HN; clear HN;
    rewrite Hr; clear Hr H.
  - split; [|split].
    + unfold waveformMode. rewrite registerNumber_A, registerNumber_B.
      rewrite controlRegisterB_16bit by reflexivity.
      change (timer (resultOf c t d 1 N)) with 1.
      in_prescalers Hin; subst N; vm_compute; reflexivity.
    + rewrite registerNumber_B, controlRegisterB_16bit by reflexivity.
      in_prescalers Hin; subst N; vm_compute; eexists; repeat split.
    + rewrite controlRegisterB_description. eexists. reflexivity.
  - unfold waveformMode. rewrite registerNumber_A, registerNumber_B.
    rewrite controlRegisterB_8bit by reflexivity.
    change (timer (resultOf c t d 0 N)) with 0.
    in_prescalers Hin; subst N; vm_compute; reflexivity.
  - unfold waveformMode. rewrite registerNumber_A, registerNumber_B.
    rewrite controlRegisterB_8bit by reflexivity.
    change (timer (resultOf c t d 2 N)) with 2.
    in_prescalers Hin; subst N; vm_compute; reflexivity.
Qed.

Lemma waveform_mode_written_witness :
  waveformMode (calculation 16000000 1000 50 1) = Some 10%Z
  /\ waveformMode (calculation 16000000 1000 50 0) = Some 7%Z
  /\ waveformMode (calculation 16000000 1000 50 2) = Some 7%Z.
Proof.
  destruct (waveform_mode_written 16000000 1000 50) as (H1 & H0 & H2).
  split; [|split]; [apply H1|apply H0|apply H2]; reflexivity.
Defined.

(** X15: on every successful calculation the clock-select code written to
    control register B is between 1 and 7: never 0, which stops the
    timer. *)
Theorem clock_never_stopped (c t d tm : float) :
  error (calculation c t d tm) = None ->
  exists k, clockSelect (calculation c t d tm) = Some k /\ (1 <= k <= 7)%Z.
Proof.
  intros H. destruct (success_prescaler _ _ _ _ H) as [Hin Hr].
  remember (prescaler (calculation c t d tm)) as N eqn:HN. clear HN.
  rewrite Hr. clear Hr H.
  destruct (tm =? 1) eqn:E1.
  - unfold clockSelect. rewrite controlRegisterB_16bit by assumption.
    in_prescalers Hin; subst N; vm_compute; eexists; (split; [reflexivity|]);
      split; discriminate.
  - rewrite clockSelect_8bit by assumption. unfold csBits.
    destruct (tm =? 0);
      in_prescalers Hin; subst N; vm_compute; eexists; (split; [reflexivity|]);
      split; discriminate.
Qed.

Lemma clock_never_stopped_witness :
  exists k, clockSelect (calculation 16000000 1000 50 2) = Some k
            /\ (1 <= k <= 7)%Z.
Proof. apply (clock_never_stopped 16000000 1000 50 2). reflexivity. Defined.

Lemma search_same_numbers (c t d tm tm' : float) :
  maxTop tm = maxTop tm' ->
  forall candidates,
    match search c t d tm candidates, search c t d tm' candidates with
    | Some r, Some r' => same_numbers r r'
    | None, None => True
    | _, _ => False
    end.
Proof.
  intros Hmax. induction candidates as [|N rest IH]; simpl; [exact I|].
  assert (E : usable c t tm N = usable c t tm' N)
    by (unfold usable; now rewrite Hmax).
  rewrite <- E. destruct (usable c t tm N); [|exact IH].
  repeat split.
Qed.

(** X6: Timer 0 and Timer 2 give the same numbers on the same input:
    prescaler, top, ocr, both frequencies, both duty cycles and the error
    coincide; only the timer index and the register table differ. *)
Theorem timers_0_and_2_same_numbers (c t d : float) :
  same_numbers (calculation c t d 0) (calculation c t d 2).
Proof.
  unfold calculation.
  pose proof (search_same_numbers c t d 0 2 eq_refl prescalers) as H.
  destruct (search c t d 0 prescalers), (search c t d 2 prescalers);
    try contradiction; [exact H|]. repeat split.
Qed.

(** ** Digits of the register literals *)

Lemma append_assoc (a b c : string) : (a ++ b) ++ c = a ++ (b ++ c).
Proof. induction a as [|x a IH]; simpl; [reflexivity|now rewrite IH]. Qed.

Lemma int_digits_acc fuel radix n acc :
  JS.int_digits fuel radix n acc = JS.int_digits fuel radix n "" ++ acc.
Proof.
  revert n acc. induction fuel as [|f IH]; intros n acc; simpl; [reflexivity|].
  destruct (n / radix =? 0)%Z; [reflexivity|].
  rewrite IH, (IH _ (String _ "")), append_assoc. reflexivity.
Qed.

Lemma hex_value_app s1 s2 a :
  hex_value (s1 ++ s2) a
  = match hex_value s1 a with
    | Some v => hex_value s2 v
    | None => None
    end.
Proof.
  revert a. induction s1 as [|c s1 IH]; intros a; simpl; [reflexivity|].
  destruct (hex_digit c); [apply IH|reflexivity].
Qed.

Lemma sixteen_cases (P : Z -> Prop) :
  P 0%Z -> P 1%Z -> P 2%Z -> P 3%Z -> P 4%Z -> P 5%Z -> P 6%Z -> P 7%Z ->
  P 8%Z -> P 9%Z -> P 10%Z -> P 11%Z -> P 12%Z -> P 13%Z -> P 14%Z ->
  P 15%Z -> forall d, (0 <= d < 16)%Z -> P d.
Proof.
  intros.
  assert (E : (d = 0 \/ d = 1 \/ d = 2 \/ d = 3 \/ d = 4 \/ d = 5 \/ d = 6
               \/ d = 7 \/ d = 8 \/ d = 9 \/ d = 10 \/ d = 11 \/ d = 12
               \/ d = 13 \/ d = 14 \/ d = 15)%Z) by lia.
  repeat (destruct E as [->|E]; [assumption|]). now subst.
Qed.

(** A digit of [toString(16)] is read back as its value, and survives
    upper-casing followed by lower-casing. *)
Lemma hex_digit_char d :
  (0 <= d < 16)%Z ->
  hex_digit (JS.digit_char d) = Some d
  /\ lower_char (JS.upper_char (JS.digit_char d)) = JS.digit_char d.
Proof. revert d. apply sixteen_cases; split; reflexivity. Qed.

Lemma lowercase_upper_digits fuel n acc :
  (0 <= n)%Z ->
  lowercase (JS.toUpperCase (JS.int_digits fuel 16 n acc))
  = JS.int_digits fuel 16 n (lowercase (JS.toUpperCase acc)).
Proof.
  revert n acc. induction fuel as [|f IH]; intros n acc Hn; simpl;
    [reflexivity|].
  assert (Hd : (0 <= n mod 16 < 16)%Z) by (apply Z.mod_pos_bound; lia).
  destruct (n / 16 =? 0)%Z.
  - simpl. now rewrite (proj2 (hex_digit_char _ Hd)).
  - rewrite IH by (apply Z.div_pos; lia). simpl.
    now rewrite (proj2 (hex_digit_char _ Hd)).
Qed.

Lemma hex_value_single d a :
  (0 <= d < 16)%Z ->
  hex_value (String (JS.digit_char d) "") a = Some (16 * a + d)%Z.
Proof.
  intros Hd. unfold hex_value. now rewrite (proj1 (hex_digit_char d Hd)).
Qed.

(** Reading the digits of [n] gives [n] back. *)
Lemma hex_value_digits fuel n :
  (0 < n < 16 ^ Z.of_nat fuel)%Z ->
  hex_value (JS.int_digits fuel 16 n "") 0 = Some n.
Proof.
  revert n. induction fuel as [|f IH]; intros n Hn.
  - simpl in Hn. lia.
  - assert (Hd : (0 <= n mod 16 < 16)%Z) by (apply Z.mod_pos_bound; lia).
    pose proof (Z.div_mod n 16 ltac:(lia)) as Hdm.
    cbn [JS.int_digits].
    destruct (Z.eqb_spec (n / 16) 0) as [E|E].
    + rewrite (hex_value_single _ _ Hd). f_equal. lia.
    + rewrite int_digits_acc, hex_value_app.
      assert (Hq : (0 < n / 16 < 16 ^ Z.of_nat f)%Z).
      { assert (0 <= n / 16)%Z by (apply Z.div_pos; lia).
        split; [lia|]. apply Z.div_lt_upper_bound; [lia|].
        rewrite Nat2Z.inj_succ, Z.pow_succ_r in Hn by lia. lia. }
      rewrite (IH _ Hq), (hex_value_single _ _ Hd). f_equal. lia.
Qed.

Lemma enough_fuel n :
  (0 < n)%Z -> (n < 16 ^ Z.of_nat (S (Z.to_nat (Z.log2 n))))%Z.
Proof.
  intros Hn. pose proof (Z.log2_nonneg n) as Hl.
  rewrite Nat2Z.inj_succ, Z2Nat.id by assumption.
  pose proof (Z.log2_spec n Hn) as [_ Hu].
  apply Z.lt_le_trans with (2 ^ Z.succ (Z.log2 n))%Z; [assumption|].
  apply Z.pow_le_mono_l. lia.
Qed.

Section Reach.

Local Open Scope R_scope.

Lemma F2R_scaled x M k :
  (0 < M)%Z -> (0 <= k)%Z ->
  Prim2SF x = S754_finite false (Z.to_pos (M * 2 ^ k)) (- k) ->
  F2R x = IZR M.
Proof.
  intros HM Hk H. unfold F2R. rewrite H. unfold SF2R.
  assert (0 < 2 ^ k)%Z by (apply Z.pow_pos_nonneg; lia).
  rewrite Z2Pos.id by nia. now apply scaled_value.
Qed.

(** *** Order and equality of positive floats *)

Lemma SFleb_total m1 e1 m2 e2 :
  SFleb (S754_finite false m1 e1) (S754_finite false m2 e2) = false ->
  SFleb (S754_finite false m2 e2) (S754_finite false m1 e1) = true.
Proof.
  unfold SFleb, SFcompare. rewrite (Z.compare_antisym e1 e2).
  destruct (e1 ?= e2)%Z; simpl; try discriminate; try reflexivity.
  rewrite !Pos.compare_cont_spec. simpl.
  rewrite (Pos.compare_antisym m1 m2).
  destruct (m1 ?= m2)%positive; simpl; try discriminate; reflexivity.
Qed.

(** Positive finite floats compare as their values do. *)
Lemma leb_of_real a b ma ea mb eb :
  Prim2SF a = S754_finite false ma ea ->
  Prim2SF b = S754_finite false mb eb ->
  F2R a < F2R b -> (a <=? b)%float = true.
Proof.
  intros Ha Hb Hlt. rewrite FloatAxioms.leb_spec, Ha, Hb.
  destruct (SFleb (S754_finite false ma ea) (S754_finite false mb eb)) eqn:E;
    [reflexivity|exfalso].
  apply SFleb_total in E.
  apply SFleb_finite in E; try (eapply valid_of_Prim2SF; eassumption).
  unfold F2R in Hlt. rewrite Ha, Hb in Hlt. lra.
Qed.

Lemma leb_to_real a b ma ea mb eb :
  Prim2SF a = S754_finite false ma ea ->
  Prim2SF b = S754_finite false mb eb ->
  (a <=? b)%float = true -> F2R a <= F2R b.
Proof.
  intros Ha Hb H. rewrite FloatAxioms.leb_spec, Ha, Hb in H.
  unfold F2R. rewrite Ha, Hb.
  apply SFleb_finite; try assumption; eapply valid_of_Prim2SF; eassumption.
Qed.

(** A positive value has one float. *)
Lemma positive_float_unique a b ma ea mb eb :
  Prim2SF a = S754_finite false ma ea ->
  Prim2SF b = S754_finite false mb eb ->
  F2R a = F2R b -> a = b.
Proof.
  intros Ha Hb E.
  apply Prim2SF_inj. rewrite Ha, Hb.
  (* equal exponents and mantissas *)
  destruct (valid_finite _ _ (valid_of_Prim2SF _ _ _ Ha)) as (_ & Hea & Hma & Hna).
  destruct (valid_finite _ _ (valid_of_Prim2SF _ _ _ Hb)) as (_ & Heb & Hmb & Hnb).
  rewrite (F2R_finite _ _ _ Ha), (F2R_finite _ _ _ Hb) in E.
  assert (Hstrict : forall m1 e1 m2 e2,
            (Z.pos m1 < 2 ^ 53)%Z -> (2 ^ 52 <= Z.pos m2)%Z -> (e1 < e2)%Z ->
            IZR (Z.pos m1) * bpow e1 < IZR (Z.pos m2) * bpow e2).
  { intros m1 e1 m2 e2 H1 H2 He.
    apply Rlt_le_trans with (IZR (2 ^ 53) * bpow e1).
    - apply Rmult_lt_compat_r; [apply bpow_gt_0|]. now apply IZR_lt.
    - apply Rle_trans with (IZR (2 ^ 52) * bpow e2).
      + replace e2 with ((e2 - 1) + 1)%Z by lia. rewrite bpow_succ.
        pose proof (bpow_le e1 (e2 - 1) ltac:(lia)). pose proof (bpow_gt_0 e1).
        replace (IZR (2 ^ 53)) with (2 * IZR (2 ^ 52))
          by (rewrite <- mult_IZR; f_equal).
        assert (0 < IZR (2 ^ 52)) by (apply IZR_lt; lia). nra.
      + apply Rmult_le_compat_r; [pose proof (bpow_gt_0 e2); lra|].
        now apply IZR_le. }
  destruct (Z.lt_trichotomy ea eb) as [Hl|[He|Hg]].
  - pose proof (Hstrict ma ea mb eb Hma (Hnb ltac:(lia)) Hl). lra.
  - subst eb. f_equal.
    apply Rmult_eq_reg_r in E; [|pose proof (bpow_gt_0 ea); lra].
    apply eq_IZR in E. lia.
  - pose proof (Hstrict mb eb ma ea Hmb (Hna ltac:(lia)) Hg). lra.
Qed.

Lemma maxTop_value tm :
  exists m e, Prim2SF (maxTop tm) = S754_finite false m e
              /\ F2R (maxTop tm) = if (tm =? 1)%float then 65535 else 255.
Proof.
  unfold maxTop, is16Bit. destruct (tm =? 1)%float.
  - exists (65535 * 2 ^ 37)%positive, (- 37)%Z. split; [reflexivity|].
    unfold F2R. change (Prim2SF 65535) with (S754_finite false (65535 * 2 ^ 37) (- 37)).
    unfold SF2R. change (Z.pos (65535 * 2 ^ 37)) with (65535 * 2 ^ 37)%Z.
    pose proof (scaled_value 65535 37 ltac:(lia)) as E.
    change (- (37))%Z with (-37)%Z in E. exact E.
  - exists (255 * 2 ^ 45)%positive, (- 45)%Z. split; [reflexivity|].
    unfold F2R. change (Prim2SF 255) with (S754_finite false (255 * 2 ^ 45) (- 45)).
    unfold SF2R. change (Z.pos (255 * 2 ^ 45)) with (255 * 2 ^ 45)%Z.
    pose proof (scaled_value 255 45 ltac:(lia)) as E.
    change (- (45))%Z with (-45)%Z in E. exact E.
Qed.

(** A TOP that passes the guard is a positive finite number, at most the
    largest value the timer counts to. *)
Lemma guard_maxTop c t tm N :
  usable c t tm N = true ->
  exists m e, Prim2SF (topOf c t N) = S754_finite false m e
              /\ 0 < F2R (topOf c t N) <= F2R (maxTop tm).
Proof.
  intros Hu. destruct (guard_finite _ _ _ _ Hu) as (m & e & Ht & _).
  exists m, e. split; [assumption|]. split; [eapply F2R_finite_pos; eassumption|].
  unfold usable in Hu. apply andb_prop in Hu. destruct Hu as [_ Hle].
  destruct (maxTop_value tm) as (mM & eM & HM & _).
  eapply leb_to_real; eassumption.
Qed.

(** ** The 16-bit timer reaches whatever an 8-bit timer reaches *)

Lemma usable_on_timer1 c t tm N :
  usable c t tm N = true -> usable c t 1 N = true.
Proof.
  intros Hu. destruct (guard_maxTop _ _ _ _ Hu) as (m & e & Ht & _ & Hle).
  destruct (maxTop_value tm) as (_ & _ & _ & Hv).
  destruct (maxTop_value 1) as (m1 & e1 & H1 & Hv1).
  change ((1 =? 1)%float) with true in Hv1.
  unfold usable in *. apply andb_prop in Hu. destruct Hu as [H0 HT].
  rewrite H0. simpl.
  destruct (tm =? 1)%float eqn:E.
  - unfold maxTop, is16Bit in *. rewrite E in HT. exact HT.
  - destruct (Req_dec (F2R (topOf c t N)) (F2R (maxTop 1))) as [Eq|Ne].
    + rewrite Hv1 in Eq. lra.
    + eapply leb_of_real; try eassumption. lra.
Qed.

(** X1: whenever the calculation succeeds on some timer, it succeeds on
    Timer 1 as well, with a prescaler that is not larger. *)
Theorem timer1_reaches_more (c t d tm : float) :
  error (calculation c t d tm) = None ->
  error (calculation c t d 1) = None
  /\ (prescaler (calculation c t d 1) <=? prescaler (calculation c t d tm))%float
     = true.
Proof.
  intros H.
  destruct (calculation_cases c t d tm)
    as [(bf & N & af & Hp & _ & Hu & E) | (_ & E)];
    [|rewrite E in H; discriminate].
  rewrite E. change (prescaler (resultOf c t d tm N)) with N.
  assert (HN : In N prescalers) by (rewrite Hp; apply in_or_app; right; now left).
  pose proof (usable_on_timer1 _ _ _ _ Hu) as Hu1.
  unfold calculation.
  destruct (search c t d 1 prescalers) as [r|] eqn:Hs.
  - split.
    + destruct (search_first _ _ _ _ _ _ Hs) as (b & K & a & _ & _ & _ & ->).
      reflexivity.
    + exact (search_least _ _ _ _ _ _ prescalers_ascending Hs N HN Hu1).
  - pose proof (proj1 (search_none _ _ _ _ _) Hs N HN) as Hn.
    rewrite Hn in Hu1. discriminate.
Qed.

Lemma timer1_reaches_more_witness :
  error (calculation 16000000 1000 50 1) = None
  /\ (prescaler (calculation 16000000 1000 50 1)
      <=? prescaler (calculation 16000000 1000 50 0))%float = true.
Proof. apply (timer1_reaches_more 16000000 1000 50 0). reflexivity. Defined.

(** ** TOP and the exact quotient *)

(** The integer [n] nearest to the rounded quotient is within one half,
    and the rounding of one division, of the exact quotient. *)
Lemma quotient_window x xf n :
  (1 <= n <= 65536)%Z ->
  nearest x xf -> IZR n <= xf + / 2 < IZR n + 1 ->
  IZR n - / 2 - bpow (-37) < x < IZR n + / 2.
Proof.
  intros Hn Hxf Hround. split.
  - destruct (Rlt_le_dec (IZR n - / 2 - bpow (-37)) x) as [|Hle];
      [assumption|exfalso].
    pose proof (nearest_le _ _ _ Hxf (format_half_below n Hn) Hle).
    pose proof (bpow_gt_0 (-37)). lra.
  - destruct (Rlt_le_dec x (IZR n + / 2)) as [|Hge]; [assumption|exfalso].
    pose proof (nearest_ge _ _ _ Hxf (format_half_above n ltac:(lia)) Hge). lra.
Qed.

(** X2: on a successful calculation with positive clock and target
    frequencies, TOP is a whole number n - 1 with n >= 2 and n - 1 at most
    maxTop, and n is within 1/2 + 2^-37 of the exact quotient
    clock / (prescaler x target). *)
Theorem top_is_rounded_quotient (c t d tm : float) :
  error (calculation c t d tm) = None ->
  (0 <? c)%float = true ->
  (0 <? t)%float = true ->
  exists n : Z,
    F2R (top (calculation c t d tm)) = IZR n - 1
    /\ (2 <= n)%Z
    /\ IZR n - 1 <= F2R (maxTop tm)
    /\ Rabs (IZR n - F2R c / (F2R (prescaler (calculation c t d tm)) * F2R t))
       < / 2 + bpow (-37).
Proof.
  intros Herr Hc Ht.
  destruct (calculation_cases c t d tm)
    as [(bf & N & af & Hp & _ & Hu & ->) | (_ & E)];
    [|rewrite E in Herr; discriminate].
  assert (HN : In N prescalers) by (rewrite Hp; apply in_or_app; right; now left).
  change (top (resultOf c t d tm N)) with (topOf c t N).
  change (prescaler (resultOf c t d tm N)) with N.
  destruct (usable_top c t tm N Hc Ht HN Hu)
    as (n & mc & ec & mt & et & mx & ex & mtop & etop
        & Hn & Hcs & Hts & Hxs & Hnear & Hround & Htop & Htopv).
  destruct (guard_maxTop _ _ _ _ Hu) as (_ & _ & _ & _ & Hmax).
  exists n. split; [assumption|]. split; [lia|]. split; [lra|].
  pose proof (quotient_window _ _ n ltac:(lia) Hnear Hround) as [Hl Hh].
  pose proof (bpow_gt_0 (-37)).
  unfold Rabs. destruct Rcase_abs; lra.
Qed.

Lemma top_is_rounded_quotient_witness :
  exists n : Z,
    F2R (top (calculation 16000000 1000 50 1)) = IZR n - 1
    /\ (2 <= n)%Z
    /\ IZR n - 1 <= F2R (maxTop 1)
    /\ Rabs (IZR n
             - F2R 16000000
               / (F2R (prescaler (calculation 16000000 1000 50 1)) * F2R 1000))
       < / 2 + bpow (-37).
Proof. apply (top_is_rounded_quotient 16000000 1000 50 1); reflexivity. Defined.

(** X3: a calculation with positive clock and target frequencies succeeds
    only if the clock is above (3/2 - 2^-37) times the target and below
    67109376 times the target on Timer 1, 262656 times on an 8-bit timer
    (that is (maxTop + 3/2) x 1024). *)
Theorem achievable_range (c t d tm : float) :
  error (calculation c t d tm) = None ->
  (0 <? c)%float = true ->
  (0 <? t)%float = true ->
  (3 / 2 - bpow (-37)) * F2R t < F2R c
  /\ F2R c < (if (tm =? 1)%float then 67109376 else 262656) * F2R t.
Proof.
  intros Herr Hc Ht.
  destruct (calculation_cases c t d tm)
    as [(bf & N & af & Hp & _ & Hu & E) | (_ & E)];
    [|rewrite E in Herr; discriminate].
  assert (HN : In N prescalers) by (rewrite Hp; apply in_or_app; right; now left).
  destruct (usable_top c t tm N Hc Ht HN Hu)
    as (n & mc & ec & mt & et & mx & ex & mtop & etop
        & Hn & Hcs & Hts & Hxs & Hnear & Hround & Htop & Htopv).
  destruct (guard_maxTop _ _ _ _ Hu) as (_ & _ & _ & _ & Hmax).
  destruct (maxTop_value tm) as (_ & _ & _ & Hv). rewrite Hv, Htopv in Hmax.
  destruct (prescaler_value N HN) as (k & Hk & _ & HNv).
  pose proof (quotient_window _ _ n ltac:(lia) Hnear Hround) as [Hl Hh].
  pose proof (F2R_finite_pos _ _ _ Hcs) as Hc0.
  pose proof (F2R_finite_pos _ _ _ Hts) as Ht0.
  assert (HK : 1 <= F2R N <= 1024).
  { rewrite HNv. split; apply IZR_le.
    - pose proof (Z.pow_pos_nonneg 2 k). lia.
    - change 1024%Z with (2 ^ 10)%Z. apply Z.pow_le_mono_r; lia. }
  assert (Hn2 : 2 <= IZR n) by (apply IZR_le; lia).
  pose proof (bpow_gt_0 (-37)) as He.
  assert (Heps : bpow (-37) < / 2).
  { pose proof (scaled_value 1 37 ltac:(lia)) as E37.
    rewrite Z.mul_1_l in E37. change (- (37))%Z with (-37)%Z in E37.
    change (2 ^ 37)%Z with 137438953472%Z in E37. lra. }
  set (D := F2R N * F2R t) in *.
  assert (HD : 0 < D) by (unfold D; nra).
  assert (Ex : F2R c = F2R c / D * D) by (field; lra).
  set (x := F2R c / D) in *.
  split.
  - assert (3 / 2 - bpow (-37) < x) by lra.
    assert (F2R t <= D) by (unfold D; nra).
    rewrite Ex. nra.
  - assert (Hxn : x < IZR n + / 2) by lra.
    assert (D <= 1024 * F2R t) by (unfold D; nra).
    rewrite Ex.
    destruct (tm =? 1)%float.
    + assert (x < 65536 + / 2) by lra.
      apply Rlt_le_trans with ((65536 + / 2) * D); [nra|]. nra.
    + assert (x < 256 + / 2) by lra.
      apply Rlt_le_trans with ((256 + / 2) * D); [nra|]. nra.
Qed.

Lemma achievable_range_witness :
  (3 / 2 - bpow (-37)) * F2R 1000 < F2R 16000000
  /\ F2R 16000000 < 67109376 * F2R 1000.
Proof. apply (achievable_range 16000000 1000 50 1); reflexivity. Defined.

Lemma small_lt_overflow n : (n < 2 ^ 53)%Z -> IZR n < bpow 1024.
Proof.
  intros H. rewrite (bpow_IZR 1024) by lia. apply IZR_lt.
  assert (2 ^ 53 < 2 ^ 1024)%Z by (apply Z.pow_lt_mono_r; lia). lia.
Qed.

(** Adding one to a float that holds the integer [n - 1] is exact, on
    either side. *)
Lemma plus_one_exact x m e n :
  Prim2SF x = S754_finite false m e -> F2R x = IZR n - 1 ->
  (2 <= n <= 65536)%Z ->
  (exists m1 e1, Prim2SF (x + 1)%float = S754_finite false m1 e1
                 /\ F2R (x + 1)%float = IZR n)
  /\ (exists m1 e1, Prim2SF (1 + x)%float = S754_finite false m1 e1
                    /\ F2R (1 + x)%float = IZR n).
Proof.
  intros Hx Hv Hn.
  assert (H1 : Prim2SF 1 = S754_finite false (2 ^ 52) (- 52)) by reflexivity.
  assert (Hn2 : 2 <= IZR n) by (apply IZR_le; lia).
  split.
  - destruct (add_carries x 1 _ _ _ _ Hx H1) as (v1 & Hv1 & Hc1).
    rewrite F2R_one, Hv in Hv1.
    replace (IZR n - 1 + 1) with (IZR n) in Hv1 by ring.
    destruct (carries_exact _ _ _ Hv1 Hc1) as (m1 & e1 & Hs1 & Hval1).
    { apply format_IZR. lia. }
    { lra. }
    { apply small_lt_overflow. lia. }
    exists m1, e1. split; [assumption|]. now rewrite (F2R_finite _ _ _ Hs1).
  - destruct (add_carries 1 x _ _ _ _ H1 Hx) as (v1 & Hv1 & Hc1).
    rewrite F2R_one, Hv in Hv1.
    replace (1 + (IZR n - 1)) with (IZR n) in Hv1 by ring.
    destruct (carries_exact _ _ _ Hv1 Hc1) as (m1 & e1 & Hs1 & Hval1).
    { apply format_IZR. lia. }
    { lra. }
    { apply small_lt_overflow. lia. }
    exists m1, e1. split; [assumption|]. now rewrite (F2R_finite _ _ _ Hs1).
Qed.

(** The achieved frequency is the rounding of clock / (N (TOP + 1)). *)
Lemma actual_frequency_rounding c t N mc ec mtop etop n :
  In N prescalers ->
  Prim2SF c = S754_finite false mc ec ->
  Prim2SF (topOf c t N) = S754_finite false mtop etop ->
  F2R (topOf c t N) = IZR n - 1 -> (2 <= n <= 65536)%Z ->
  exists va, nearest (F2R c / (F2R N * IZR n)) va
             /\ carries (Prim2SF (c / (N * (1 + topOf c t N)))%float) false va
             /\ va <= F2R c.
Proof.
  intros HN Hcs Htop Htopv Hn.
  destruct (prescaler_value N HN) as (k & Hk & HNs & HNv).
  destruct (plus_one_exact _ _ _ _ Htop Htopv Hn) as [_ (m1 & e1 & Hs1 & Hval1)].
  assert (Hn2 : 2 <= IZR n <= 65536) by (split; apply IZR_le; lia).
  assert (HK : 1 <= IZR (2 ^ k) <= 1024).
  { split; apply IZR_le.
    - pose proof (Z.pow_pos_nonneg 2 k). lia.
    - change 1024%Z with (2 ^ 10)%Z. apply Z.pow_le_mono_r; lia. }
  destruct (mul_carries N (1 + topOf c t N) _ _ _ _ HNs Hs1) as (v2 & Hv2 & Hc2).
  rewrite HNv, Hval1, <- mult_IZR in Hv2.
  assert (Hprod : (0 < 2 ^ k * n < 2 ^ 53)%Z).
  { assert (0 < 2 ^ k <= 2 ^ 10)%Z
      by (split; [apply Z.pow_pos_nonneg; lia | apply Z.pow_le_mono_r; lia]).
    change (2 ^ 10)%Z with 1024%Z in *. change (2 ^ 53)%Z with 9007199254740992%Z.
    nia. }
  destruct (carries_exact _ _ _ Hv2 Hc2) as (m2 & e2 & Hs2 & Hval2).
  { apply format_IZR. lia. }
  { apply IZR_lt. lia. }
  { apply small_lt_overflow. lia. }
  destruct (div_carries c (N * (1 + topOf c t N)) _ _ _ _ Hcs Hs2)
    as (va & Hva & Hca).
  rewrite (F2R_finite _ _ _ Hs2), Hval2, mult_IZR in Hva.
  exists va. rewrite HNv. split; [assumption|]. split; [assumption|].
  pose proof (F2R_finite_pos _ _ _ Hcs) as Hc0.
  apply (nearest_le _ _ _ Hva (F2R_format _ _ _ Hcs)).
  assert (HKn : 1 <= IZR (2 ^ k) * IZR n) by nra.
  apply Rmult_le_reg_r with (IZR (2 ^ k) * IZR n); [lra|].
  replace (F2R c / (IZR (2 ^ k) * IZR n) * (IZR (2 ^ k) * IZR n))
    with (F2R c) by (field; lra).
  rewrite <- (Rmult_1_r (F2R c)) at 1.
  apply Rmult_le_compat_l; lra.
Qed.

(** X5: when the clock is a whole multiple k of prescaler x target for the
    prescaler selected, TOP is k - 1 and the achieved frequency is the
    target itself. *)
Theorem exact_division_hits_target (c t d tm : float) (k : Z) :
  error (calculation c t d tm) = None ->
  (0 <? c)%float = true ->
  (0 <? t)%float = true ->
  F2R c = IZR k * (F2R (prescaler (calculation c t d tm)) * F2R t) ->
  F2R (top (calculation c t d tm)) = IZR k - 1
  /\ actualFrequency (calculation c t d tm) = t.
Proof.
  intros Herr Hc Ht.
  destruct (calculation_cases c t d tm)
    as [(bf & N & af & Hp & _ & Hu & ->) | (_ & E)];
    [|rewrite E in Herr; discriminate].
  assert (HN : In N prescalers) by (rewrite Hp; apply in_or_app; right; now left).
  change (top (resultOf c t d tm N)) with (topOf c t N).
  change (prescaler (resultOf c t d tm N)) with N.
  change (actualFrequency (resultOf c t d tm N))
    with (c / (N * (1 + topOf c t N)))%float.
  intros Hk.
  destruct (usable_top c t tm N Hc Ht HN Hu)
    as (n & mc & ec & mt & et & mx & ex & mtop & etop
        & Hn & Hcs & Hts & Hxs & Hnear & Hround & Htop & Htopv).
  destruct (prescaler_value N HN) as (j & Hj & HNs & HNv).
  pose proof (F2R_finite_pos _ _ _ Hcs) as Hc0.
  pose proof (F2R_finite_pos _ _ _ Hts) as Ht0.
  assert (HK : 1 <= F2R N).
  { rewrite HNv. apply IZR_le. pose proof (Z.pow_pos_nonneg 2 j). lia. }
  assert (HD : 0 < F2R N * F2R t) by nra.
  assert (Ex : F2R c / (F2R N * F2R t) = IZR k) by (rewrite Hk; field; lra).
  rewrite Ex in Hnear.
  assert (Hkn : k = n).
  { destruct (Z_lt_le_dec k 65537) as [Hlt|Hge].
    - destruct (Z_lt_le_dec k 0) as [Hneg|Hpos].
      + assert (IZR k < 0) by (apply IZR_lt; lia).
        assert (F2R c < 0) by (rewrite Hk; nra). lra.
      + rewrite (nearest_exact _ _ Hnear (format_IZR k ltac:(lia))) in Hround.
        assert (n < k + 1)%Z by (apply lt_IZR; rewrite plus_IZR; lra).
        assert (k < n + 1)%Z by (apply lt_IZR; rewrite plus_IZR; lra).
        lia.
    - pose proof (nearest_ge _ _ 65537 Hnear (format_IZR 65537 ltac:(lia))
                    ltac:(apply IZR_le; lia)).
      assert (IZR n <= 65536) by (apply IZR_le; lia). lra. }
  subst k. split; [assumption|].
  destruct (actual_frequency_rounding c t N _ _ _ _ n HN Hcs Htop Htopv Hn)
    as (va & Hva & Hca & Hle).
  assert (Ea : F2R c / (F2R N * IZR n) = F2R t).
  { assert (2 <= IZR n) by (apply IZR_le; lia). rewrite Hk. field. lra. }
  rewrite Ea in Hva.
  pose proof (nearest_exact _ _ Hva (F2R_format _ _ _ Hts)) as Ev. subst va.
  pose proof (F2R_lt_overflow _ _ _ Hts) as Hfin.
  destruct Hca as [[_ Hz]|[(m & e & Hz & Hm)|[_ Hinf]]]; [lra| |lra].
  eapply positive_float_unique; try eassumption.
  rewrite (F2R_finite _ _ _ Hz). symmetry. exact Hm.
Qed.

Lemma exact_division_hits_target_witness :
  F2R (top (calculation 16000000 1000 50 1)) = 16000 - 1
  /\ actualFrequency (calculation 16000000 1000 50 1) = 1000%float.
Proof.
  apply (exact_division_hits_target 16000000 1000 50 1 16000);
    [reflexivity|reflexivity|reflexivity|].
  change (prescaler (calculation 16000000 1000 50 1)) with 1%float.
  rewrite F2R_one, (F2R_scaled 16000000 16000000 29),
    (F2R_scaled 1000 1000 43); [lra|lia|lia|reflexivity|lia|lia|reflexivity].
Defined.

Lemma holds_F2R x v : holds x v -> F2R x = v.
Proof.
  unfold F2R. intros [[[s ->] ->]|(m & e & -> & ->)]; reflexivity.
Qed.

Lemma holds_finite_number x v : holds x v -> finite_number x = true.
Proof.
  unfold finite_number. intros [[[s ->] _]|(m & e & -> & _)]; reflexivity.
Qed.

Lemma holds_nonneg x v : holds x v -> 0 <= v.
Proof.
  intros [[_ ->]|(m & e & _ & ->)]; [lra|].
  pose proof (SF2R_pos m e) as H. simpl in H. lra.
Qed.

Lemma holds_finite x m e :
  Prim2SF x = S754_finite false m e -> holds x (F2R x).
Proof. intros H. right. exists m, e. split; [assumption|]. now apply F2R_finite. Qed.

Lemma format_zero : format 0.
Proof. apply (format_IZR 0). lia. Qed.

Lemma holds_format x v : holds x v -> format v.
Proof.
  intros [[_ ->]|(m & e & H & ->)]; [apply format_zero|].
  rewrite <- (F2R_finite _ _ _ H). eapply F2R_format; eassumption.
Qed.

Lemma carries_holds x v :
  carries (Prim2SF x) false v -> v < bpow 1024 -> holds x v.
Proof.
  intros [[H ->]|[(m & e & H & ->)|[_ H]]] Hv.
  - left. split; [now exists false|reflexivity].
  - right. now exists m, e.
  - lra.
Qed.

Lemma nearest_zero : nearest 0 0.
Proof.
  split; [lra|]. intros y _. replace (0 - 0) with 0 by ring.
  rewrite Rabs_R0. apply Rabs_pos.
Qed.

Lemma F2R_100 :
  Prim2SF 100 = S754_finite false (100 * 2 ^ 46) (- 46) /\ F2R 100 = 100.
Proof.
  split; [reflexivity|]. unfold F2R.
  change (Prim2SF 100) with (S754_finite false (100 * 2 ^ 46) (- 46)).
  unfold SF2R. change (Z.pos (100 * 2 ^ 46)) with (100 * 2 ^ 46)%Z.
  pose proof (scaled_value 100 46 ltac:(lia)) as E.
  change (- (46))%Z with (-46)%Z in E. exact E.
Qed.

(** A duty cycle between 0 and 100 is a zero or a positive finite number. *)
Lemma duty_cases d :
  (0 <=? d)%float = true -> (d <=? 100)%float = true ->
  holds d (F2R d) /\ F2R d <= 100.
Proof.
  intros H0 H1. destruct F2R_100 as [E100 V100].
  pose proof H1 as H1'.
  rewrite FloatAxioms.leb_spec in H0, H1. rewrite E100 in H1.
  change (Prim2SF 0) with (S754_zero false) in H0. unfold F2R.
  destruct (Prim2SF d) as [s|s| |s m e] eqn:E; try destruct s;
    try discriminate.
  - split; [|simpl; lra]. left. split; [now exists true|reflexivity].
  - split; [|simpl; lra]. left. split; [now exists false|reflexivity].
  - split; [right; now exists m, e|].
    pose proof (leb_to_real d 100 _ _ _ _ E E100 H1') as Hle.
    unfold F2R in Hle at 1. rewrite E, V100 in Hle. exact Hle.
Qed.

Section Duty.

Variables (c t d N : float) (n : Z) (mtop : positive) (etop : Z).
Hypothesis Htop : Prim2SF (topOf c t N) = S754_finite false mtop etop.
Hypothesis Htopv : F2R (topOf c t N) = IZR n - 1.
Hypothesis Hn : (2 <= n <= 65536)%Z.

(** [((top + 1) * dutyCycle) / 100]: two roundings. *)
Lemma scaled_duty :
  holds d (F2R d) -> F2R d <= 100 ->
  exists v u,
    nearest (IZR n * F2R d) v /\ nearest (v / 100) u
    /\ format v
    /\ holds (((topOf c t N + 1) * d) / 100)%float u.
Proof.
  intros Hd Hle. destruct F2R_100 as [E100 V100].
  destruct (plus_one_exact _ _ _ _ Htop Htopv Hn) as [(m1 & e1 & Hs1 & Hv1) _].
  assert (Hn2 : 2 <= IZR n <= 65536) by (split; apply IZR_le; lia).
  destruct Hd as [[[s Hz] Hv]|(m & e & Hds & Hv)].
  - exists 0, 0. rewrite Hv, Rmult_0_r. split; [apply nearest_zero|].
    replace (0 / 100) with 0 by field. split; [apply nearest_zero|].
    split; [apply format_zero|].
    left. split; [|reflexivity]. exists s.
    rewrite FloatAxioms.div_spec, FloatAxioms.mul_spec, Hs1, Hz, E100.
    destruct s; reflexivity.
  - destruct (mul_carries _ _ _ _ _ _ Hs1 Hds) as (v & Hnv & Hcv).
    rewrite Hv1 in Hnv.
    assert (Hv100 : v <= IZR (100 * n)).
    { apply (nearest_le _ _ _ Hnv); [apply format_IZR; lia|].
      rewrite mult_IZR. nra. }
    assert (Hvfin : v < bpow 1024).
    { apply Rle_lt_trans with (IZR (100 * n)); [assumption|].
      apply small_lt_overflow. lia. }
    rewrite mult_IZR in Hv100.
    destruct Hcv as [[Hz ->]|[(mp & ep & Hp & Hpv)|[_ Hinf]]]; [| |lra].
    + exists 0, 0. split; [assumption|].
      replace (0 / 100) with 0 by field. split; [apply nearest_zero|].
      split; [apply format_zero|].
      left. split; [|reflexivity]. exists false.
      rewrite FloatAxioms.div_spec, Hz, E100. reflexivity.
    + destruct (div_carries _ 100 _ _ _ _ Hp E100) as (u & Hnu & Hcu).
      rewrite V100, (F2R_finite _ _ _ Hp), <- Hpv in Hnu.
      exists v, u. split; [assumption|]. split; [assumption|].
      split; [rewrite Hpv, <- (F2R_finite _ _ _ Hp); eapply F2R_format; eassumption|].
      apply carries_holds; [assumption|].
      apply Rle_lt_trans with (IZR n).
      * apply (nearest_le _ _ _ Hnu); [apply format_IZR; lia|]. lra.
      * apply small_lt_overflow. lia.
Qed.

End Duty.

(** [Math.round] of a zero or a positive number at most [n]. *)
Lemma Math_round_holds q u n :
  holds q u -> u <= IZR n -> (n <= 65536)%Z ->
  exists r, (0 <= r <= n)%Z /\ IZR r <= u + / 2 < IZR r + 1
            /\ holds (JS.Math_round q) (IZR r).
Proof.
  intros Hq Hu Hn.
  destruct Hq as [[[s Hz] ->]|(m & e & Hs & Hv)].
  - exists 0%Z. assert (0 <= n)%Z by (apply le_IZR; lra).
    split; [lia|]. split; [lra|].
    left. split; [|reflexivity]. exists s. unfold JS.Math_round. now rewrite Hz.
  - pose proof (F2R_finite _ _ _ Hs) as HF. rewrite <- Hv in HF.
    destruct (Math_round_finite _ _ _ Hs) as [[He ->]|(He & r & Hr & Hround & ->)].
    + rewrite (bpow_IZR e He), <- mult_IZR in Hv.
      exists (Z.pos m * 2 ^ e)%Z.
      assert (0 < 2 ^ e)%Z by (apply Z.pow_pos_nonneg; lia).
      split; [split; [lia|apply le_IZR; lra]|].
      split; [lra|]. right. exists m, e. split; [assumption|].
      now rewrite mult_IZR, <- (bpow_IZR e He).
    + rewrite HF in Hround. exists r.
      assert (r < n + 1)%Z by (apply lt_IZR; rewrite plus_IZR; lra).
      split; [lia|]. split; [assumption|].
      destruct (Z.eqb_spec r 0) as [->|Hne].
      * left. split; [now exists false|reflexivity].
      * destruct (of_Z_value r ltac:(lia)) as (m' & e' & Hs' & Hv').
        right. exists m', e'. split; [assumption|].
        now rewrite <- Hv', (F2R_finite _ _ _ Hs').
Qed.

(** Subtracting one from the rounded value [r]. *)
Lemma minus_one_cases R r :
  holds R (IZR r) -> (0 <= r <= 65536)%Z ->
  (r = 0%Z /\ (R - 1)%float = (-1)%float)
  \/ (r = 1%Z /\ (R - 1)%float = 0%float)
  \/ ((2 <= r)%Z
      /\ exists m e, Prim2SF (R - 1)%float = S754_finite false m e
                     /\ F2R (R - 1)%float = IZR r - 1).
Proof.
  intros HR Hr.
  assert (H1 : Prim2SF 1 = S754_finite false (2 ^ 52) (- 52)) by reflexivity.
  destruct HR as [[[s Hz] Hv]|(m & e & Hs & Hv)].
  - left. split; [now apply eq_IZR|].
    apply Prim2SF_inj. rewrite FloatAxioms.sub_spec, Hz, H1.
    destruct s; reflexivity.
  - right. pose proof (F2R_finite _ _ _ Hs) as HF. rewrite <- Hv in HF.
    pose proof (F2R_finite_pos _ _ _ Hs) as Hpos. rewrite HF in Hpos.
    assert (1 <= r)%Z by (apply lt_IZR in Hpos; lia).
    destruct (sub_carries R 1 _ _ _ _ Hs H1) as (v & Hnv & Hcv).
    { rewrite F2R_one, HF. apply IZR_le. lia. }
    rewrite F2R_one, HF in Hnv.
    destruct (Z.eq_dec r 1) as [->|Hne].
    + left. split; [reflexivity|].
      replace (1 - 1) with 0 in Hnv by ring.
      pose proof (nearest_exact _ _ Hnv (format_IZR 0 ltac:(lia))) as ->.
      apply Prim2SF_inj. change (Prim2SF 0) with (S754_zero false).
      destruct Hcv as [[Hz _]|[(m' & e' & _ & Hm)|[_ Hinf]]].
      * assumption.
      * pose proof (SF2R_pos m' e') as Hp. simpl in Hp. lra.
      * pose proof (bpow_gt_0 1024). lra.
    + right. split; [lia|].
      rewrite <- minus_IZR in Hnv.
      destruct (carries_exact _ _ _ Hnv Hcv) as (m' & e' & Hs' & Hv').
      { apply format_IZR. lia. }
      { apply IZR_lt. lia. }
      { apply small_lt_overflow. lia. }
      exists m', e'. split; [assumption|].
      now rewrite (F2R_finite _ _ _ Hs'), Hv', minus_IZR.
Qed.

Lemma SFcompare_refl m e :
  SFcompare (S754_finite false m e) (S754_finite false m e) = Some Eq.
Proof.
  unfold SFcompare. rewrite Z.compare_refl.
  now rewrite Pos.compare_cont_refl.
Qed.

(** [Math.max(0, x)] of a positive finite number is the number. *)
Lemma Math_max_positive x m e :
  Prim2SF x = S754_finite false m e -> JS.Math_max 0 x = x.
Proof.
  intros H. unfold JS.Math_max.
  assert (Hn : is_nan x = false).
  { unfold is_nan. rewrite FloatAxioms.eqb_spec, H. unfold SFeqb.
    now rewrite SFcompare_refl. }
  rewrite Hn. change (is_nan 0) with false. simpl orb.
  assert (Hlt : (0 <? x)%float = true).
  { rewrite FloatAxioms.ltb_spec, H. reflexivity. }
  now rewrite Hlt.
Qed.

(** [(x / y) * 100] for whole numbers 1 <= r <= n held by [x] and [y]. *)
Lemma quotient_percent x y mx ex my ey r n :
  Prim2SF x = S754_finite false mx ex -> F2R x = IZR r ->
  Prim2SF y = S754_finite false my ey -> F2R y = IZR n ->
  (1 <= r <= n)%Z -> (n <= 65536)%Z ->
  exists w, holds ((x / y) * 100)%float w /\ w <= 100 /\ (r = n -> w = 100).
Proof.
  intros Hx Hxv Hy Hyv Hr Hn. destruct F2R_100 as [E100 V100].
  assert (Hr1 : 1 <= IZR r) by (apply IZR_le; lia).
  assert (Hrn : IZR r <= IZR n) by (apply IZR_le; lia).
  assert (Hn1 : IZR n <= 65536) by (apply IZR_le; lia).
  destruct (div_carries _ _ _ _ _ _ Hx Hy) as (w1 & Hn1' & Hc1).
  rewrite Hxv, Hyv in Hn1'.
  assert (Hw1 : w1 <= 1).
  { apply (nearest_le _ _ _ Hn1'); [apply format_IZR; lia|].
    apply Rmult_le_reg_r with (IZR n); [lra|].
    replace (IZR r / IZR n * IZR n) with (IZR r) by (field; lra). lra. }
  assert (Hw0 : bpow (-16) <= w1).
  { apply (nearest_ge _ _ _ Hn1').
    - rewrite <- (Rmult_1_l (bpow (-16))). apply format_IZR_bpow; lia.
    - pose proof (scaled_value 1 16 ltac:(lia)) as E16.
      rewrite Z.mul_1_l in E16. change (- (16))%Z with (-16)%Z in E16.
      change (2 ^ 16)%Z with 65536%Z in E16.
      apply Rmult_le_reg_r with (IZR n); [lra|].
      replace (IZR r / IZR n * IZR n) with (IZR r) by (field; lra).
      pose proof (bpow_gt_0 (-16)). nra. }
  pose proof (bpow_gt_0 (-16)) as Hb16.
  pose proof (small_lt_overflow 100 ltac:(lia)) as Hb.
  destruct Hc1 as [[_ Hz]|[(mq & eq & Hq & Hqv)|[_ Hinf]]]; [lra| |lra].
  destruct (mul_carries _ 100 _ _ _ _ Hq E100) as (w & Hnw & Hcw).
  rewrite V100, (F2R_finite _ _ _ Hq), <- Hqv in Hnw.
  assert (Hw : w <= 100).
  { apply (nearest_le _ _ _ Hnw); [apply format_IZR; lia|]. lra. }
  exists w. split; [apply carries_holds; [assumption|lra]|].
  split; [assumption|]. intros ->.
  replace (IZR n / IZR n) with 1 in Hn1' by (field; lra).
  rewrite (nearest_exact _ _ Hn1' (format_IZR 1 ltac:(lia))) in Hnw.
  rewrite Rmult_1_l in Hnw.
  exact (nearest_exact _ _ Hnw (format_IZR 100 ltac:(lia))).
Qed.

(** The compare value, its clamp, and the duty cycle reached, from the
    rounded value [r] of the scaled duty cycle. *)
Lemma duty_chain c t d N n mtop etop :
  Prim2SF (topOf c t N) = S754_finite false mtop etop ->
  F2R (topOf c t N) = IZR n - 1 ->
  (2 <= n <= 65536)%Z ->
  holds d (F2R d) -> F2R d <= 100 ->
  exists r v u,
    (0 <= r <= n)%Z
    /\ nearest (IZR n * F2R d) v /\ nearest (v / 100) u
    /\ format v /\ format u
    /\ F2R (((topOf c t N + 1) * d) / 100)%float = u
    /\ IZR r <= u + / 2 < IZR r + 1
    /\ holds (JS.Math_max 0 (ocrOf c t d N)) (IZR (Z.max 0 (r - 1)))
    /\ ((2 <= r)%Z -> exists m e, Prim2SF (ocrOf c t d N) = S754_finite false m e
                                  /\ F2R (ocrOf c t d N) = IZR r - 1)
    /\ exists w, holds (((ocrOf c t d N + 1) / (topOf c t N + 1)) * 100)%float w
                 /\ w <= 100
                 /\ (r = n -> w = 100).
Proof.
  intros Htop Htopv Hn Hd Hle.
  destruct F2R_100 as [E100 V100].
  destruct (scaled_duty c t d N n _ _ Htop Htopv Hn Hd Hle)
    as (v & u & Hnv & Hnu & Hfv & Hq).
  assert (Hn2 : 2 <= IZR n <= 65536) by (split; apply IZR_le; lia).
  assert (Hun : u <= IZR n).
  { apply (nearest_le _ _ _ Hnu); [apply format_IZR; lia|].
    assert (v <= IZR (100 * n)).
    { apply (nearest_le _ _ _ Hnv); [apply format_IZR; lia|].
      rewrite mult_IZR. nra. }
    rewrite mult_IZR in *. lra. }
  destruct (Math_round_holds _ _ n Hq Hun ltac:(lia)) as (r & Hr & Hround & HR).
  exists r, v, u. split; [assumption|]. split; [assumption|].
  split; [assumption|]. split; [assumption|].
  split; [exact (holds_format _ _ Hq)|].
  split; [exact (holds_F2R _ _ Hq)|]. split; [assumption|].
  destruct (plus_one_exact _ _ _ _ Htop Htopv Hn) as [(m1 & e1 & Hs1 & Hv1) _].
  unfold ocrOf.
  set (o := (JS.Math_round (((topOf c t N + 1) * d) / 100) - 1)%float).
  destruct (minus_one_cases _ r HR ltac:(lia))
    as [[-> Ho]|[[-> Ho]|(Hr2 & mo & eo & Hos & Hov)]]; fold o in Ho || fold o in Hos, Hov.
  - (* the rounded value is 0: ocr is -1 *)
    rewrite Ho. split; [|split; [lia|]].
    { left. split; [now exists false|reflexivity]. }
    exists 0. split; [|split; [lra|lia]].
    left. split; [|reflexivity]. exists false.
    rewrite FloatAxioms.mul_spec, FloatAxioms.div_spec, Hs1, E100.
    reflexivity.
  - (* the rounded value is 1: ocr is 0 *)
    rewrite Ho. split; [|split; [lia|]].
    { left. split; [now exists false|reflexivity]. }
    change (0 + 1)%float with 1%float.
    apply (quotient_percent 1 (topOf c t N + 1) (2 ^ 52) (- 52) m1 e1 1 n);
      try assumption; try reflexivity; try lia. apply F2R_one.
  - (* the rounded value is at least 2 *)
    rewrite (Math_max_positive _ _ _ Hos).
    replace (Z.max 0 (r - 1)) with (r - 1)%Z by lia.
    split; [|split; [intros _; now exists mo, eo|]].
    { right. exists mo, eo. split; [assumption|].
      now rewrite <- (F2R_finite _ _ _ Hos), Hov, minus_IZR. }
    destruct (plus_one_exact _ _ _ _ Hos Hov ltac:(lia))
      as [(m2 & e2 & Hs2 & Hv2) _].
    apply (quotient_percent _ _ _ _ _ _ r n Hs2 Hv2 Hs1 Hv1); lia.
Qed.

(** X8: for a duty cycle between 0 and 100, on a successful calculation
    with positive clock and target frequencies, the compare value [ocr] is
    a finite whole number between 0 and TOP, and the duty cycle reported is
    a finite number between 0 and 100. *)
Theorem compare_value_within_top (c t d tm : float) :
  error (calculation c t d tm) = None ->
  (0 <? c)%float = true ->
  (0 <? t)%float = true ->
  (0 <=? d)%float = true ->
  (d <=? 100)%float = true ->
  finite_number (ocr (calculation c t d tm)) = true
  /\ (exists k : Z, F2R (ocr (calculation c t d tm)) = IZR k)
  /\ 0 <= F2R (ocr (calculation c t d tm)) <= F2R (top (calculation c t d tm))
  /\ finite_number (actualDutyCycle (calculation c t d tm)) = true
  /\ 0 <= F2R (actualDutyCycle (calculation c t d tm)) <= 100.
Proof.
  intros Herr Hc Ht Hd0 Hd1.
  destruct (calculation_cases c t d tm)
    as [(bf & N & af & Hp & _ & Hu & ->) | (_ & E)];
    [|rewrite E in Herr; discriminate].
  assert (HN : In N prescalers) by (rewrite Hp; apply in_or_app; right; now left).
  change (top (resultOf c t d tm N)) with (topOf c t N).
  change (ocr (resultOf c t d tm N)) with (JS.Math_max 0 (ocrOf c t d N)).
  change (actualDutyCycle (resultOf c t d tm N))
    with (((ocrOf c t d N + 1) / (topOf c t N + 1)) * 100)%float.
  destruct (usable_top c t tm N Hc Ht HN Hu)
    as (n & mc & ec & mt & et & mx & ex & mtop & etop
        & Hn & Hcs & Hts & Hxs & Hnear & Hround & Htop & Htopv).
  destruct (duty_cases d Hd0 Hd1) as [Hd Hle].
  destruct (duty_chain c t d N n _ _ Htop Htopv Hn Hd Hle)
    as (r & v & u & Hr & _ & _ & _ & _ & _ & _ & Hocr & _ & w & Hw & Hw100 & _).
  rewrite (holds_F2R _ _ Hocr), (holds_F2R _ _ Hw), Htopv.
  split; [exact (holds_finite_number _ _ Hocr)|].
  split; [now exists (Z.max 0 (r - 1))|].
  split.
  - split; [apply IZR_le; lia|].
    rewrite <- minus_IZR. apply IZR_le. lia.
  - split; [exact (holds_finite_number _ _ Hw)|].
    split; [exact (holds_nonneg _ _ Hw)|assumption].
Qed.

Lemma compare_value_within_top_witness :
  finite_number (ocr (calculation 16000000 1000 50 1)) = true
  /\ (exists k : Z, F2R (ocr (calculation 16000000 1000 50 1)) = IZR k)
  /\ 0 <= F2R (ocr (calculation 16000000 1000 50 1))
     <= F2R (top (calculation 16000000 1000 50 1))
  /\ finite_number (actualDutyCycle (calculation 16000000 1000 50 1)) = true
  /\ 0 <= F2R (actualDutyCycle (calculation 16000000 1000 50 1)) <= 100.
Proof. apply (compare_value_within_top 16000000 1000 50 1); reflexivity. Defined.

(** X10: at a duty cycle of 100 the compare value is TOP, the reported
    duty cycle is exactly 100, and the compare register is written the same
    literal as the TOP register. *)
Theorem full_duty_compare_is_top (c t tm : float) :
  error (calculation c t 100 tm) = None ->
  (0 <? c)%float = true ->
  (0 <? t)%float = true ->
  ocr (calculation c t 100 tm) = top (calculation c t 100 tm)
  /\ actualDutyCycle (calculation c t 100 tm) = 100%float
  /\ option_map value (nth_error (registers (calculation c t 100 tm)) 3)
     = option_map value (nth_error (registers (calculation c t 100 tm)) 2).
Proof.
  intros Herr Hc Ht.
  destruct (calculation_cases c t 100 tm)
    as [(bf & N & af & Hp & _ & Hu & ->) | (_ & E)];
    [|rewrite E in Herr; discriminate].
  assert (HN : In N prescalers) by (rewrite Hp; apply in_or_app; right; now left).
  change (top (resultOf c t 100 tm N)) with (topOf c t N).
  change (ocr (resultOf c t 100 tm N)) with (JS.Math_max 0 (ocrOf c t 100 N)).
  change (actualDutyCycle (resultOf c t 100 tm N))
    with (((ocrOf c t 100 N + 1) / (topOf c t N + 1)) * 100)%float.
  change (registers (resultOf c t 100 tm N))
    with (registersOf tm N (topOf c t N) (ocrOf c t 100 N)).
  destruct (usable_top c t tm N Hc Ht HN Hu)
    as (n & mc & ec & mt & et & mx & ex & mtop & etop
        & Hn & Hcs & Hts & Hxs & Hnear & Hround & Htop & Htopv).
  destruct F2R_100 as [E100 V100].
  destruct (duty_chain c t 100 N n _ _ Htop Htopv Hn
              (holds_finite _ _ _ E100) ltac:(lra))
    as (r & v & u & Hr & Hv & Hu' & _ & _ & _ & Hrr & Hocr & Ho & w & Hw & _ & Hw100).
  assert (Hn2 : 2 <= IZR n <= 65536) by (split; apply IZR_le; lia).
  rewrite V100, <- mult_IZR in Hv.
  pose proof (nearest_exact _ _ Hv (format_IZR (n * 100) ltac:(lia))) as ->.
  rewrite mult_IZR in Hu'.
  replace (IZR n * 100 / 100) with (IZR n) in Hu' by field.
  pose proof (nearest_exact _ _ Hu' (format_IZR n ltac:(lia))) as ->.
  assert (r = n).
  { assert (r < n + 1)%Z by (apply lt_IZR; rewrite plus_IZR; lra).
    assert (n < r + 1)%Z by (apply lt_IZR; rewrite plus_IZR; lra). lia. }
  subst r. destruct (Ho ltac:(lia)) as (mo & eo & Hos & Hov).
  assert (Eo : ocrOf c t 100 N = topOf c t N).
  { eapply positive_float_unique; try eassumption. now rewrite Hov, Htopv. }
  assert (Em : JS.Math_max 0 (ocrOf c t 100 N) = topOf c t N).
  { now rewrite (Math_max_positive _ _ _ Hos). }
  split; [assumption|]. split.
  - specialize (Hw100 eq_refl). subst w.
    destruct Hw as [[_ Hz]|(mw & ew & Hws & Hwv)]; [lra|].
    eapply positive_float_unique; try eassumption.
    now rewrite (F2R_finite _ _ _ Hws), <- Hwv, V100.
  - unfold registersOf. rewrite Em. now destruct (tm =? 1)%float.
Qed.

Lemma full_duty_compare_is_top_witness :
  ocr (calculation 16000000 1000 100 2) = top (calculation 16000000 1000 100 2)
  /\ actualDutyCycle (calculation 16000000 1000 100 2) = 100%float
  /\ option_map value (nth_error (registers (calculation 16000000 1000 100 2)) 3)
     = option_map value (nth_error (registers (calculation 16000000 1000 100 2)) 2).
Proof. apply (full_duty_compare_is_top 16000000 1000 2); reflexivity. Defined.

(** Rounding to nearest keeps the order of two different numbers. *)
Lemma nearest_monotone x y v w :
  nearest x v -> nearest y w -> format v -> format w -> x < y -> v <= w.
Proof.
  intros [_ Hv] [_ Hw] Fv Fw Hlt.
  specialize (Hv w Fw). specialize (Hw v Fv).
  destruct (Rle_lt_dec v w) as [|Hgt]; [assumption|exfalso].
  unfold Rabs in *. repeat destruct Rcase_abs; lra.
Qed.

(** Duty cycles in order between 0 and 100. *)
Lemma ordered_duties d1 d2 :
  (0 <=? d1)%float = true -> (d1 <=? d2)%float = true ->
  (d2 <=? 100)%float = true ->
  holds d1 (F2R d1) /\ holds d2 (F2R d2) /\ F2R d1 <= F2R d2 <= 100.
Proof.
  intros H0 H12 H2. destruct F2R_100 as [E100 V100].
  pose proof H12 as H12'. pose proof H2 as H2'.
  rewrite FloatAxioms.leb_spec in H0, H12, H2. rewrite E100 in H2.
  change (Prim2SF 0) with (S754_zero false) in H0.
  destruct (Prim2SF d1) as [s1|s1| |s1 m1 e1] eqn:E1; try destruct s1;
    try discriminate;
    destruct (Prim2SF d2) as [s2|s2| |s2 m2 e2] eqn:E2; try destruct s2;
    try discriminate.
  all: assert (Hd2 : holds d2 (F2R d2) /\ F2R d2 <= 100)
    by (apply duty_cases; [rewrite FloatAxioms.leb_spec, E2; reflexivity
                          | assumption]).
  all: destruct Hd2 as [Hd2 Hle]; pose proof (holds_nonneg _ _ Hd2) as Hnn.
  1-6: split; [left; split; [eexists; eassumption | unfold F2R; now rewrite E1]|];
       split; [assumption|]; split; [|assumption];
       unfold F2R at 1; rewrite E1; exact Hnn.
  split; [eapply holds_finite; eassumption|]. split; [assumption|].
  split; [|assumption]. eapply leb_to_real; eassumption.
Qed.

(** The scaled duty cycle [(s * d) / 100] grows with [d], for a positive
    [s] holding a whole number up to 65536. *)
Lemma scaled_monotone s ms es n d1 d2 :
  Prim2SF s = S754_finite false ms es -> F2R s = IZR n ->
  (1 <= n <= 65536)%Z ->
  holds d1 (F2R d1) -> holds d2 (F2R d2) -> F2R d1 <= F2R d2 <= 100 ->
  F2R ((s * d1) / 100)%float <= F2R ((s * d2) / 100)%float.
Proof.
  intros Hs Hsv Hn Hd1 Hd2 [H12 H2]. destruct F2R_100 as [E100 V100].
  assert (Hn1 : 1 <= IZR n <= 65536) by (split; apply IZR_le; lia).
  assert (Hzero : forall d, (exists z, Prim2SF d = S754_zero z) ->
                            F2R ((s * d) / 100)%float = 0).
  { intros d [z Hz]. unfold F2R.
    rewrite FloatAxioms.div_spec, FloatAxioms.mul_spec, Hs, Hz, E100.
    destruct z; reflexivity. }
  assert (Hpos : forall d m e, Prim2SF d = S754_finite false m e ->
                 F2R d <= 100 ->
                 exists v u, nearest (IZR n * F2R d) v /\ holds (s * d)%float v
                             /\ nearest (v / 100) u
                             /\ holds ((s * d) / 100)%float u).
  { intros d m e Hd Hle.
    destruct (mul_carries _ _ _ _ _ _ Hs Hd) as (v & Hnv & Hcv).
    rewrite Hsv in Hnv.
    pose proof (F2R_finite_pos _ _ _ Hd) as Hd0.
    assert (Hv100 : v <= IZR (100 * n)).
    { apply (nearest_le _ _ _ Hnv); [apply format_IZR; lia|].
      rewrite mult_IZR. nra. }
    pose proof (small_lt_overflow (100 * n) ltac:(lia)) as Hfin.
    assert (Hp : holds (s * d)%float v) by (apply carries_holds; [assumption|lra]).
    rewrite mult_IZR in Hv100.
    destruct Hp as [[[z Hz] Hv0]|(mp & ep & Hps & Hpv)].
    - exists v, 0. split; [assumption|].
      split; [left; split; [now exists z|assumption]|].
      rewrite Hv0. replace (0 / 100) with 0 by field.
      split; [apply nearest_zero|].
      left. split; [|reflexivity]. exists z.
      rewrite FloatAxioms.div_spec, Hz, E100. destruct z; reflexivity.
    - destruct (div_carries _ 100 _ _ _ _ Hps E100) as (u & Hnu & Hcu).
      rewrite V100, (F2R_finite _ _ _ Hps), <- Hpv in Hnu.
      exists v, u. split; [assumption|].
      split; [right; now exists mp, ep|]. split; [assumption|].
      apply carries_holds; [assumption|].
      apply Rle_lt_trans with (IZR n).
      + apply (nearest_le _ _ _ Hnu); [apply format_IZR; lia|]. lra.
      + apply small_lt_overflow. lia. }
  destruct Hd1 as [[Hz1 _]|(m1 & e1 & Hs1 & _)].
  - rewrite (Hzero _ Hz1).
    destruct Hd2 as [[Hz2 _]|(m2 & e2 & Hs2 & _)].
    + rewrite (Hzero _ Hz2). lra.
    + destruct (Hpos _ _ _ Hs2 H2) as (v & u & _ & _ & _ & Hq).
      rewrite (holds_F2R _ _ Hq). exact (holds_nonneg _ _ Hq).
  - pose proof (F2R_finite_pos _ _ _ Hs1) as Hp1.
    destruct Hd2 as [[[z Hz2] _]|(m2 & e2 & Hs2 & _)].
    { unfold F2R in H12 at 2. rewrite Hz2 in H12. simpl in H12. lra. }
    destruct (Req_dec (F2R d1) (F2R d2)) as [Eq|Ne].
    { rewrite (positive_float_unique _ _ _ _ _ _ Hs1 Hs2 Eq). lra. }
    destruct (Hpos _ _ _ Hs1 ltac:(lra)) as (v1 & u1 & Hnv1 & Hp1' & Hnu1 & Hq1).
    destruct (Hpos _ _ _ Hs2 H2) as (v2 & u2 & Hnv2 & Hp2' & Hnu2 & Hq2).
    rewrite (holds_F2R _ _ Hq1), (holds_F2R _ _ Hq2).
    assert (Hv : v1 <= v2).
    { apply (nearest_monotone _ _ _ _ Hnv1 Hnv2);
        [eapply holds_format; eassumption..|]. nra. }
    destruct Hp1' as [[Hz1 Hv1]|(mp1 & ep1 & Hps1 & Hpv1)].
    { rewrite Hv1 in Hnu1. replace (0 / 100) with 0 in Hnu1 by field.
      rewrite (nearest_exact _ _ Hnu1 format_zero).
      exact (holds_nonneg _ _ Hq2). }
    pose proof (F2R_finite_pos _ _ _ Hps1) as Hpp1.
    rewrite (F2R_finite _ _ _ Hps1), <- Hpv1 in Hpp1.
    destruct Hp2' as [[Hz2 Hv2]|(mp2 & ep2 & Hps2 & Hpv2)]; [lra|].
    destruct (Req_dec v1 v2) as [Eqv|Nev].
    { assert (Ep : (s * d1)%float = (s * d2)%float).
      { eapply positive_float_unique; try eassumption.
        rewrite (F2R_finite _ _ _ Hps1), (F2R_finite _ _ _ Hps2). lra. }
      rewrite <- (holds_F2R _ _ Hq1), <- (holds_F2R _ _ Hq2), Ep. lra. }
    apply (nearest_monotone _ _ _ _ Hnu1 Hnu2);
      [eapply holds_format; eassumption..|]. lra.
Qed.

(** Changing the duty cycle changes neither the candidate taken nor the
    fate of the search. *)
Lemma search_duty c t d d' tm l :
  match search c t d tm l with
  | Some r => search c t d' tm l = Some (resultOf c t d' tm (prescaler r))
              /\ r = resultOf c t d tm (prescaler r)
              /\ In (prescaler r) l
              /\ usable c t tm (prescaler r) = true
  | None => search c t d' tm l = None
  end.
Proof.
  induction l as [|N l IH]; simpl; [reflexivity|].
  destruct (usable c t tm N) eqn:E.
  - change (prescaler (resultOf c t d tm N)) with N. auto.
  - destruct (search c t d tm l); [|assumption].
    destruct IH as (H1 & H2 & H3 & H4). auto.
Qed.

Lemma calculation_duty c t d d' tm :
  error (calculation c t d tm) = None ->
  exists N, In N prescalers /\ usable c t tm N = true
            /\ calculation c t d tm = resultOf c t d tm N
            /\ calculation c t d' tm = resultOf c t d' tm N.
Proof.
  intros H. unfold calculation in *.
  pose proof (search_duty c t d d' tm prescalers) as S.
  destruct (search c t d tm prescalers) as [r|]; [|discriminate].
  destruct S as (S1 & S2 & S3 & S4). exists (prescaler r).
  rewrite S1. auto.
Qed.

(** X7: the duty cycle has no part in the frequency settings: with another
    duty cycle the calculation still succeeds, with the same prescaler, TOP
    and achieved frequency, and the same first three registers. *)
Theorem duty_leaves_frequency_settings (c t d d' tm : float) :
  error (calculation c t d tm) = None ->
  error (calculation c t d' tm) = None
  /\ prescaler (calculation c t d' tm) = prescaler (calculation c t d tm)
  /\ top (calculation c t d' tm) = top (calculation c t d tm)
  /\ actualFrequency (calculation c t d' tm)
     = actualFrequency (calculation c t d tm)
  /\ firstn 3 (registers (calculation c t d' tm))
     = firstn 3 (registers (calculation c t d tm)).
Proof.
  intros H. destruct (calculation_duty c t d d' tm H) as (N & _ & _ & -> & ->).
  repeat split. unfold resultOf, registers, registersOf.
  destruct (tm =? 1)%float; reflexivity.
Qed.

Lemma duty_leaves_frequency_settings_witness :
  error (calculation 16000000 1000 25 1) = None
  /\ prescaler (calculation 16000000 1000 25 1)
     = prescaler (calculation 16000000 1000 50 1)
  /\ top (calculation 16000000 1000 25 1) = top (calculation 16000000 1000 50 1)
  /\ actualFrequency (calculation 16000000 1000 25 1)
     = actualFrequency (calculation 16000000 1000 50 1)
  /\ firstn 3 (registers (calculation 16000000 1000 25 1))
     = firstn 3 (registers (calculation 16000000 1000 50 1)).
Proof.
  apply (duty_leaves_frequency_settings 16000000 1000 50 25 1). reflexivity.
Defined.

(** X9: the compare value grows with the duty cycle: for duty cycles
    0 <= d1 <= d2 <= 100 on the same successful input, ocr at d1 is at most
    ocr at d2. *)
Theorem compare_value_monotone (c t d1 d2 tm : float) :
  error (calculation c t d1 tm) = None ->
  (0 <? c)%float = true ->
  (0 <? t)%float = true ->
  (0 <=? d1)%float = true ->
  (d1 <=? d2)%float = true ->
  (d2 <=? 100)%float = true ->
  F2R (ocr (calculation c t d1 tm)) <= F2R (ocr (calculation c t d2 tm)).
Proof.
  intros Herr Hc Ht H0 H12 H2.
  destruct (calculation_duty c t d1 d2 tm Herr) as (N & HN & Hu & -> & ->).
  change (ocr (resultOf c t d1 tm N)) with (JS.Math_max 0 (ocrOf c t d1 N)).
  change (ocr (resultOf c t d2 tm N)) with (JS.Math_max 0 (ocrOf c t d2 N)).
  destruct (usable_top c t tm N Hc Ht HN Hu)
    as (n & mc & ec & mt & et & mx & ex & mtop & etop
        & Hn & Hcs & Hts & Hxs & Hnear & Hround & Htop & Htopv).
  destruct (ordered_duties d1 d2 H0 H12 H2) as (Hd1 & Hd2 & Hle).
  destruct (duty_chain c t d1 N n _ _ Htop Htopv Hn Hd1 ltac:(lra))
    as (r1 & v1 & u1 & Hr1 & _ & _ & _ & _ & Hu1 & Hrr1 & Hocr1 & _).
  destruct (duty_chain c t d2 N n _ _ Htop Htopv Hn Hd2 ltac:(lra))
    as (r2 & v2 & u2 & Hr2 & _ & _ & _ & _ & Hu2 & Hrr2 & Hocr2 & _).
  rewrite (holds_F2R _ _ Hocr1), (holds_F2R _ _ Hocr2).
  destruct (plus_one_exact _ _ _ _ Htop Htopv Hn) as [(m1 & e1 & Hs1 & Hv1) _].
  pose proof (scaled_monotone _ _ _ n d1 d2 Hs1 Hv1 ltac:(lia) Hd1 Hd2 Hle) as Hmono.
  rewrite Hu1, Hu2 in Hmono.
  assert (r1 < r2 + 1)%Z by (apply lt_IZR; rewrite plus_IZR; lra).
  apply IZR_le. lia.
Qed.

Lemma compare_value_monotone_witness :
  F2R (ocr (calculation 16000000 1000 25 1))
  <= F2R (ocr (calculation 16000000 1000 75 1)).
Proof. apply (compare_value_monotone 16000000 1000 25 75 1); reflexivity. Defined.

(** ** A duty cycle of zero *)

Lemma eqb_zero d :
  (d =? 0)%float = true -> exists s, Prim2SF d = S754_zero s.
Proof.
  rewrite FloatAxioms.eqb_spec. change (Prim2SF 0) with (S754_zero false).
  destruct (Prim2SF d) as [s|s| |s m e]; try destruct s; try discriminate;
    eauto.
Qed.

(** TOP + 1 of a usable candidate is a positive finite number between 1
    and 65536, whatever the clock and the target are. *)
Lemma top_plus_one_finite c t tm N :
  usable c t tm N = true ->
  exists m e, Prim2SF (topOf c t N + 1)%float = S754_finite false m e
              /\ 1 <= F2R (topOf c t N + 1)%float <= 65536.
Proof.
  intros Hu. destruct (guard_finite _ _ _ _ Hu) as (m & e & Ht & Hle).
  pose proof (F2R_finite_pos _ _ _ Ht) as Hpos.
  assert (H1 : Prim2SF 1 = S754_finite false (2 ^ 52) (- 52)) by reflexivity.
  destruct (add_carries _ 1 _ _ _ _ Ht H1) as (v & Hnv & Hcv).
  rewrite F2R_one in Hnv.
  assert (Hlo : 1 <= v)
    by (apply (nearest_ge _ _ _ Hnv); [apply format_IZR; lia | lra]).
  assert (Hhi : v <= 65536)
    by (apply (nearest_le _ _ _ Hnv); [apply format_IZR; lia | lra]).
  pose proof (small_lt_overflow 65536 ltac:(lia)) as Hfin.
  destruct Hcv as [[_ Hz]|[(m' & e' & Hs' & Hv')|[_ Hinf]]]; [lra| |lra].
  exists m', e'. split; [assumption|].
  rewrite (F2R_finite _ _ _ Hs'), <- Hv'. lra.
Qed.

(** X11: at a duty cycle of zero, on every successful calculation, the
    loop's ocr is -1, the record and the compare register hold 0, and the
    reported duty cycle is 0, although the formula applied to the ocr of
    the record gives a positive number. *)
Theorem zero_duty_reports_zero (c t d tm : float) :
  error (calculation c t d tm) = None ->
  (d =? 0)%float = true ->
  ocrOf c t d (prescaler (calculation c t d tm)) = (-1)%float
  /\ ocr (calculation c t d tm) = 0%float
  /\ option_map value (nth_error (registers (calculation c t d tm)) 3)
     = Some "0x0"%string
  /\ actualDutyCycle (calculation c t d tm) = 0%float
  /\ (0 <? ((ocr (calculation c t d tm) + 1)
            / (top (calculation c t d tm) + 1)) * 100)%float = true.
Proof.
  intros Herr Hd.
  destruct (calculation_cases c t d tm)
    as [(bf & N & af & Hp & _ & Hu & ->) | (_ & E)];
    [|rewrite E in Herr; discriminate].
  change (prescaler (resultOf c t d tm N)) with N.
  change (top (resultOf c t d tm N)) with (topOf c t N).
  change (ocr (resultOf c t d tm N)) with (JS.Math_max 0 (ocrOf c t d N)).
  change (actualDutyCycle (resultOf c t d tm N))
    with (((ocrOf c t d N + 1) / (topOf c t N + 1)) * 100)%float.
  change (registers (resultOf c t d tm N))
    with (registersOf tm N (topOf c t N) (ocrOf c t d N)).
  destruct (eqb_zero d Hd) as [s Hz].
  destruct (top_plus_one_finite _ _ _ _ Hu) as (m1 & e1 & Hs1 & Hv1).
  destruct F2R_100 as [E100 V100].
  assert (H1 : Prim2SF 1 = S754_finite false (2 ^ 52) (- 52)) by reflexivity.
  assert (Eo : ocrOf c t d N = (-1)%float).
  { assert (Hq : Prim2SF (((topOf c t N + 1) * d) / 100)%float = S754_zero s).
    { rewrite FloatAxioms.div_spec, FloatAxioms.mul_spec, Hs1, Hz, E100.
      destruct s; reflexivity. }
    unfold ocrOf. apply Prim2SF_inj.
    rewrite FloatAxioms.sub_spec. unfold JS.Math_round. rewrite Hq, Hq.
    destruct s; reflexivity. }
  rewrite Eo. split; [reflexivity|].
  change (JS.Math_max 0 (-1)) with 0%float.
  split; [reflexivity|]. split.
  { unfold registersOf. destruct (tm =? 1)%float; reflexivity. }
  split.
  - apply Prim2SF_inj.
    rewrite FloatAxioms.mul_spec, FloatAxioms.div_spec, Hs1, E100.
    reflexivity.
  - change (0 + 1)%float with 1%float.
    destruct (div_carries 1 _ _ _ _ _ H1 Hs1) as (w1 & Hn1 & Hc1).
    rewrite F2R_one in Hn1.
    pose proof (scaled_value 1 16 ltac:(lia)) as E16.
    rewrite Z.mul_1_l in E16. change (- (16))%Z with (-16)%Z in E16.
    change (2 ^ 16)%Z with 65536%Z in E16.
    pose proof (bpow_gt_0 (-16)) as Hb16.
    assert (F16 : format (bpow (-16))).
    { rewrite <- (Rmult_1_l (bpow (-16))). apply format_IZR_bpow; lia. }
    set (y := F2R (topOf c t N + 1)%float) in *.
    assert (Hw0 : bpow (-16) <= w1).
    { apply (nearest_ge _ _ _ Hn1 F16).
      apply Rmult_le_reg_r with y; [lra|].
      replace (1 / y * y) with 1 by (field; lra). nra. }
    assert (Hw1 : w1 <= 1).
    { apply (nearest_le _ _ _ Hn1); [apply format_IZR; lia|].
      apply Rmult_le_reg_r with y; [lra|].
      replace (1 / y * y) with 1 by (field; lra). lra. }
    pose proof (small_lt_overflow 100 ltac:(lia)) as Hfin.
    destruct Hc1 as [[_ Hz1]|[(mq & eq & Hq & Hqv)|[_ Hinf]]]; [lra| |lra].
    destruct (mul_carries _ 100 _ _ _ _ Hq E100) as (w & Hnw & Hcw).
    rewrite V100, (F2R_finite _ _ _ Hq), <- Hqv in Hnw.
    assert (Hwlo : bpow (-16) <= w)
      by (apply (nearest_ge _ _ _ Hnw F16); lra).
    rewrite FloatAxioms.ltb_spec.
    change (Prim2SF 0) with (S754_zero false).
    destruct Hcw as [[_ Hz2]|[(mw & ew & -> & _)|[-> _]]];
      [lra|reflexivity|reflexivity].
Qed.

Lemma zero_duty_reports_zero_witness :
  ocrOf 8000000 2000 0 (prescaler (calculation 8000000 2000 0 2)) = (-1)%float
  /\ ocr (calculation 8000000 2000 0 2) = 0%float
  /\ option_map value (nth_error (registers (calculation 8000000 2000 0 2)) 3)
     = Some "0x0"%string
  /\ actualDutyCycle (calculation 8000000 2000 0 2) = 0%float
  /\ (0 <? ((ocr (calculation 8000000 2000 0 2) + 1)
            / (top (calculation 8000000 2000 0 2) + 1)) * 100)%float = true.
Proof. apply (zero_duty_reports_zero 8000000 2000 0 2); reflexivity. Defined.

(** [toString] of a positive whole number prints the digits of its value,
    and nothing after them. *)
Lemma toString_whole radix x m e k :
  Prim2SF x = S754_finite false m e -> F2R x = IZR k ->
  JS.Number_toString radix x
  = JS.int_digits (S (Z.to_nat (Z.log2 k))) radix k "".
Proof.
  intros Hs Hv. rewrite (F2R_finite _ _ _ Hs) in Hv.
  unfold JS.Number_toString. rewrite Hs.
  destruct (Z.leb_spec 0 e) as [He|He].
  - rewrite (bpow_IZR e He), <- mult_IZR in Hv. apply eq_IZR in Hv.
    now rewrite Hv.
  - assert (Hk : Z.pos m = (k * 2 ^ (- e))%Z).
    { apply eq_IZR. rewrite mult_IZR, <- (bpow_IZR (- e)) by lia.
      rewrite <- Hv, Rmult_assoc, <- bpow_add.
      replace (e + - e)%Z with 0%Z by lia. unfold bpow. simpl. ring. }
    assert (H2 : (0 < 2 ^ (- e))%Z) by (apply Z.pow_pos_nonneg; lia).
    rewrite Hk, Z.div_mul, Z.mod_mul by lia. reflexivity.
Qed.

(** The literal the table prints for a zero or a positive whole number
    denotes that number. *)
Lemma literal_round_trip x k :
  holds x (IZR k) -> literal_value ("0x" ++ hexUpper x) = Some k.
Proof.
  intros [[[s Hz] Hv]|(m & e & Hs & Hv)].
  - apply eq_IZR in Hv. subst k. unfold hexUpper, JS.Number_toString.
    rewrite Hz. reflexivity.
  - pose proof (F2R_finite _ _ _ Hs) as HF. rewrite <- Hv in HF.
    pose proof (F2R_finite_pos _ _ _ Hs) as Hp. rewrite HF in Hp.
    apply lt_IZR in Hp.
    unfold hexUpper. rewrite (toString_whole 16 x m e k Hs HF).
    unfold literal_value.
    change (lowercase ("0x" ++ ?s)) with ("0x" ++ lowercase s)%string.
    rewrite lowercase_upper_digits by lia.
    change (byte_of_literal ("0x" ++ ?s)) with (hex_value s 0).
    apply hex_value_digits. split; [assumption|]. now apply enough_fuel.
Qed.

(** X16: on a successful calculation with positive clock and target
    frequencies, the hexadecimal literal written to the TOP register (the
    third of the table) denotes TOP, a whole number from 1 to 65535. *)
Theorem top_literal_denotes_top (c t d tm : float) :
  error (calculation c t d tm) = None ->
  (0 <? c)%float = true ->
  (0 <? t)%float = true ->
  exists k : Z,
    registerNumber (calculation c t d tm) 2 = Some k
    /\ F2R (top (calculation c t d tm)) = IZR k
    /\ (0 < k < 65536)%Z.
Proof.
  intros Herr Hc Ht.
  destruct (calculation_cases c t d tm)
    as [(bf & N & af & Hp & _ & Hu & ->) | (_ & E)];
    [|rewrite E in Herr; discriminate].
  assert (HN : In N prescalers) by (rewrite Hp; apply in_or_app; right; now left).
  change (top (resultOf c t d tm N)) with (topOf c t N).
  destruct (usable_top c t tm N Hc Ht HN Hu)
    as (n & mc & ec & mt & et & mx & ex & mtop & etop
        & Hn & Hcs & Hts & Hxs & Hnear & Hround & Htop & Htopv).
  exists (n - 1)%Z. rewrite minus_IZR. split; [|split; [assumption|lia]].
  assert (Hh : holds (topOf c t N) (IZR (n - 1))).
  { rewrite minus_IZR, <- Htopv. eapply holds_finite; eassumption. }
  unfold registerNumber.
  change (registers (resultOf c t d tm N))
    with (registersOf tm N (topOf c t N) (ocrOf c t d N)).
  unfold registersOf. destruct (tm =? 1)%float; simpl nth_error;
    cbv beta iota; unfold value; apply literal_round_trip; assumption.
Qed.

Lemma top_literal_denotes_top_witness :
  exists k : Z,
    registerNumber (calculation 16000000 1000 50 1) 2 = Some k
    /\ F2R (top (calculation 16000000 1000 50 1)) = IZR k
    /\ (0 < k < 65536)%Z.
Proof. apply (top_literal_denotes_top 16000000 1000 50 1); reflexivity. Defined.

(** X17: for a duty cycle between 0 and 100, the hexadecimal literal
    written to the compare register (the fourth of the table) denotes the
    ocr of the record. *)
Theorem compare_literal_denotes_ocr (c t d tm : float) :
  error (calculation c t d tm) = None ->
  (0 <? c)%float = true ->
  (0 <? t)%float = true ->
  (0 <=? d)%float = true ->
  (d <=? 100)%float = true ->
  exists k : Z,
    registerNumber (calculation c t d tm) 3 = Some k
    /\ F2R (ocr (calculation c t d tm)) = IZR k
    /\ (0 <= k < 65536)%Z.
Proof.
  intros Herr Hc Ht Hd0 Hd1.
  destruct (calculation_cases c t d tm)
    as [(bf & N & af & Hp & _ & Hu & ->) | (_ & E)];
    [|rewrite E in Herr; discriminate].
  assert (HN : In N prescalers) by (rewrite Hp; apply in_or_app; right; now left).
  change (ocr (resultOf c t d tm N)) with (JS.Math_max 0 (ocrOf c t d N)).
  destruct (usable_top c t tm N Hc Ht HN Hu)
    as (n & mc & ec & mt & et & mx & ex & mtop & etop
        & Hn & Hcs & Hts & Hxs & Hnear & Hround & Htop & Htopv).
  destruct (duty_cases d Hd0 Hd1) as [Hd Hle].
  destruct (duty_chain c t d N n _ _ Htop Htopv Hn Hd Hle)
    as (r & v & u & Hr & _ & _ & _ & _ & _ & _ & Hocr & _).
  exists (Z.max 0 (r - 1)). split; [|split; [exact (holds_F2R _ _ Hocr)|lia]].
  unfold registerNumber.
  change (registers (resultOf c t d tm N))
    with (registersOf tm N (topOf c t N) (ocrOf c t d N)).
  unfold registersOf. destruct (tm =? 1)%float; simpl nth_error;
    cbv beta iota; unfold value; apply literal_round_trip; assumption.
Qed.

Lemma compare_literal_denotes_ocr_witness :
  exists k : Z,
    registerNumber (calculation 16000000 1000 50 1) 3 = Some k
    /\ F2R (ocr (calculation 16000000 1000 50 1)) = IZR k
    /\ (0 <= k < 65536)%Z.
Proof.
  apply (compare_literal_denotes_ocr 16000000 1000 50 1); reflexivity.
Defined.

Lemma format_scale y k : format y -> (0 <= k)%Z -> format (IZR (2 ^ k) * y).
Proof.
  intros (m & e & -> & Hm & He) Hk. exists m, (e + k)%Z.
  split; [|split; [assumption|lia]].
  rewrite bpow_add, (bpow_IZR k Hk). ring.
Qed.

Lemma leb_of_real_le a b ma ea mb eb :
  Prim2SF a = S754_finite false ma ea ->
  Prim2SF b = S754_finite false mb eb ->
  F2R a <= F2R b -> (a <=? b)%float = true.
Proof.
  intros Ha Hb Hle. destruct (Req_dec (F2R a) (F2R b)) as [E|E].
  - rewrite (positive_float_unique _ _ _ _ _ _ Ha Hb E).
    rewrite FloatAxioms.leb_spec, Hb. unfold SFleb.
    now rewrite SFcompare_refl.
  - eapply leb_of_real; try eassumption. lra.
Qed.

Lemma finite_positive x :
  (0 <? x)%float = true -> finite_number x = true ->
  exists m e, Prim2SF x = S754_finite false m e.
Proof.
  intros Hp Hf. destruct (positive_cases x Hp) as [H|H]; [assumption|].
  unfold finite_number in Hf. rewrite H in Hf. discriminate.
Qed.

(** A candidate whose exact quotient lies between 3/2 and maxTop + 1
    passes the guard. *)
Lemma usable_intro c t tm N mc ec mt et :
  In N prescalers ->
  Prim2SF c = S754_finite false mc ec ->
  Prim2SF t = S754_finite false mt et ->
  3 / 2 <= F2R c / (F2R N * F2R t) <= F2R (maxTop tm) + 1 ->
  usable c t tm N = true.
Proof.
  intros HN Hcs Hts [Hlo Hhi].
  destruct (prescaler_value N HN) as (k & Hk & HNs & HNv).
  destruct (maxTop_value tm) as (mM & eM & HMs & HMv).
  set (M := (if (tm =? 1)%float then 65535 else 255)%Z).
  assert (HM : F2R (maxTop tm) = IZR M /\ (255 <= M <= 65535)%Z).
  { rewrite HMv. unfold M. destruct (tm =? 1)%float; split; try reflexivity; lia. }
  destruct HM as [HMv' HMr]. clearbody M. rewrite HMv' in Hhi.
  pose proof (F2R_finite_pos _ _ _ Hcs) as Hc0.
  pose proof (F2R_finite_pos _ _ _ Hts) as Ht0.
  pose proof (F2R_lt_overflow _ _ _ Hcs) as Hcfin.
  assert (HK : 1 <= F2R N).
  { rewrite HNv. apply IZR_le. pose proof (Z.pow_pos_nonneg 2 k). lia. }
  assert (HD : 0 < F2R N * F2R t) by nra.
  assert (HMR : 255 <= IZR M <= 65535) by (split; apply IZR_le; lia).
  (* N * targetFreq is exact *)
  destruct (mul_carries N t _ _ _ _ HNs Hts) as (v & Hnv & Hcv).
  assert (Fv : format (F2R N * F2R t)).
  { rewrite HNv. apply format_scale; [eapply F2R_format; eassumption|lia]. }
  pose proof (nearest_exact _ _ Hnv Fv) as Ev.
  assert (Hx : F2R c = F2R c / (F2R N * F2R t) * (F2R N * F2R t))
    by (field; lra).
  assert (HDc : F2R N * F2R t < bpow 1024).
  { apply Rle_lt_trans with (F2R c); [|assumption].
    set (x := F2R c / (F2R N * F2R t)) in *. nra. }
  destruct (carries_exact _ _ _ Hnv Hcv Fv HD HDc) as (mp & ep & Hps & Hpv).
  (* the quotient *)
  destruct (div_carries c (N * t) _ _ _ _ Hcs Hps) as (xf & Hnx & Hcx).
  rewrite (F2R_finite _ _ _ Hps), Hpv in Hnx.
  assert (Hxlo : 3 / 2 <= xf).
  { replace (3 / 2) with (IZR 1 + / 2) by (simpl; field).
    apply (nearest_ge _ _ _ Hnx); [apply format_half_above; lia|].
    simpl. lra. }
  assert (Hxhi : xf <= IZR (M + 1)).
  { apply (nearest_le _ _ _ Hnx); [apply format_IZR; lia|].
    rewrite plus_IZR. lra. }
  pose proof (small_lt_overflow (M + 1) ltac:(lia)) as Hfin.
  assert (Hq : holds (c / (N * t))%float xf)
    by (apply carries_holds; [assumption|lra]).
  (* Math.round *)
  destruct (Math_round_holds _ _ (M + 1) Hq Hxhi ltac:(lia))
    as (r & Hr & Hround & HR).
  assert (Hr2 : (2 <= r)%Z).
  { assert (2 < r + 1)%Z by (apply lt_IZR; rewrite plus_IZR; lra). lia. }
  destruct (minus_one_cases _ r HR ltac:(lia))
    as [[-> _]|[[-> _]|(_ & m & e & Htop & Htopv)]]; try lia.
  fold (topOf c t N) in Htop, Htopv.
  unfold usable. apply andb_true_intro. split.
  - rewrite FloatAxioms.ltb_spec, Htop. reflexivity.
  - apply (leb_of_real_le _ _ _ _ _ _ Htop HMs).
    rewrite Htopv, HMv'. rewrite <- minus_IZR. apply IZR_le. lia.
Qed.

(** X4: for finite positive clock and target frequencies, the calculation
    succeeds whenever the clock is at least 3/2 of the target and at most
    65536 x 1024 times the target on Timer 1, 256 x 1024 times on an 8-bit
    timer: the ranges of the five prescalers leave no gap. *)
Theorem reachable_range (c t d tm : float) :
  (0 <? c)%float = true -> finite_number c = true ->
  (0 <? t)%float = true -> finite_number t = true ->
  3 / 2 * F2R t <= F2R c ->
  F2R c <= (if (tm =? 1)%float then 67108864 else 262144) * F2R t ->
  error (calculation c t d tm) = None.
Proof.
  intros Hc Hcf Ht Htf Hlo Hhi.
  destruct (finite_positive c Hc Hcf) as (mc & ec & Hcs).
  destruct (finite_positive t Ht Htf) as (mt & et & Hts).
  pose proof (F2R_finite_pos _ _ _ Hcs) as Hc0.
  pose proof (F2R_finite_pos _ _ _ Hts) as Ht0.
  destruct (maxTop_value tm) as (_ & _ & _ & HMv).
  assert (Hex : exists N, In N prescalers /\ usable c t tm N = true).
  { assert (Hin : forall N j, In N prescalers -> F2R N = IZR (2 ^ j) ->
              3 / 2 * (IZR (2 ^ j) * F2R t) <= F2R c
              <= (F2R (maxTop tm) + 1) * (IZR (2 ^ j) * F2R t) ->
              exists N, In N prescalers /\ usable c t tm N = true).
    { intros N j HN HNv [H1 H2]. exists N. split; [assumption|].
      assert (HD : 0 < IZR (2 ^ j) * F2R t).
      { rewrite <- HNv. destruct (prescaler_value N HN) as (k & Hk & _ & E).
        rewrite E. assert (0 < IZR (2 ^ k)) by (apply IZR_lt, Z.pow_pos_nonneg; lia).
        nra. }
      apply (usable_intro c t tm N _ _ _ _ HN Hcs Hts). rewrite HNv.
      assert (E : F2R c / (IZR (2 ^ j) * F2R t) * (IZR (2 ^ j) * F2R t) = F2R c).
      { set (D := IZR (2 ^ j) * F2R t) in *. field. lra. }
      split; (apply Rmult_le_reg_r with (IZR (2 ^ j) * F2R t); [assumption|]);
        rewrite E; assumption. }
    assert (V1 : F2R 1 = IZR (2 ^ 0)) by apply F2R_one.
    assert (V8 : F2R 8 = IZR (2 ^ 3))
      by (apply (F2R_scaled 8 (2 ^ 3) 49); [lia|lia|reflexivity]).
    assert (V64 : F2R 64 = IZR (2 ^ 6))
      by (apply (F2R_scaled 64 (2 ^ 6) 46); [lia|lia|reflexivity]).
    assert (V256 : F2R 256 = IZR (2 ^ 8))
      by (apply (F2R_scaled 256 (2 ^ 8) 44); [lia|lia|reflexivity]).
    assert (V1024 : F2R 1024 = IZR (2 ^ 10))
      by (apply (F2R_scaled 1024 (2 ^ 10) 42); [lia|lia|reflexivity]).
    pose proof (Hin 1%float 0%Z ltac:(unfold prescalers; simpl; tauto) V1) as G1.
    pose proof (Hin 8%float 3%Z ltac:(unfold prescalers; simpl; tauto) V8) as G8.
    pose proof (Hin 64%float 6%Z ltac:(unfold prescalers; simpl; tauto) V64) as G64.
    pose proof (Hin 256%float 8%Z ltac:(unfold prescalers; simpl; tauto) V256) as G256.
    pose proof (Hin 1024%float 10%Z ltac:(unfold prescalers; simpl; tauto) V1024) as G1024.
    change (2 ^ 0)%Z with 1%Z in *. change (2 ^ 3)%Z with 8%Z in *.
    change (2 ^ 6)%Z with 64%Z in *. change (2 ^ 8)%Z with 256%Z in *.
    change (2 ^ 10)%Z with 1024%Z in *.
    clear Hin. rewrite HMv in *.
    destruct (tm =? 1)%float.
    - destruct (Rle_lt_dec (F2R c) (65536 * F2R t)); [apply G1; lra|].
      destruct (Rle_lt_dec (F2R c) (65536 * (8 * F2R t))); [apply G8; lra|].
      destruct (Rle_lt_dec (F2R c) (65536 * (64 * F2R t))); [apply G64; lra|].
      destruct (Rle_lt_dec (F2R c) (65536 * (256 * F2R t))); [apply G256; lra|].
      apply G1024; lra.
    - destruct (Rle_lt_dec (F2R c) (256 * F2R t)); [apply G1; lra|].
      destruct (Rle_lt_dec (F2R c) (256 * (8 * F2R t))); [apply G8; lra|].
      destruct (Rle_lt_dec (F2R c) (256 * (64 * F2R t))); [apply G64; lra|].
      destruct (Rle_lt_dec (F2R c) (256 * (256 * F2R t))); [apply G256; lra|].
      apply G1024; lra. }
  destruct Hex as (N & HN & Hu).
  unfold calculation.
  destruct (search c t d tm prescalers) as [r|] eqn:Hs.
  - destruct (search_first _ _ _ _ _ _ Hs) as (b & K & a & _ & _ & _ & ->).
    reflexivity.
  - pose proof (proj1 (search_none _ _ _ _ _) Hs N HN) as Hn.
    rewrite Hn in Hu. discriminate.
Qed.

Lemma reachable_range_witness : error (calculation 16000000 1000 50 2) = None.
Proof.
  assert (Ec : F2R 16000000 = 16000000)
    by (apply (F2R_scaled _ 16000000 29); [lia|lia|reflexivity]).
  assert (Et : F2R 1000 = 1000)
    by (apply (F2R_scaled _ 1000 43); [lia|lia|reflexivity]).
  apply (reachable_range 16000000 1000 50 2);
    [reflexivity|reflexivity|reflexivity|reflexivity| |].
  - rewrite Ec, Et. lra.
  - change (F2R 16000000 <= 262144 * F2R 1000). rewrite Ec, Et. lra.
Defined.

End Reach.
